(** * An in-memory filesystem tree: the two PyQt variants and their properties

    The repository holds two programs over the same linked node structure:
    - [Win]: winfilesystem.py (context menus, navigation history, metadata);
    - [Simple]: simplefilesystem.py (buttons and a path line edit).

    Python objects live in a store indexed by their identity; a reference is
    an index into the store and [None] is the empty option.  Every [while]
    loop that follows links takes a fuel argument; running out of fuel, or
    following a reference that is not in the store, gives [Stuck], which no
    Python run can show.  Text is kept as the bytes of its UTF-8 encoding, so
    comparing, splitting on '/' and testing a leading '~' act as in Python
    and [len(s.encode('utf-8'))] is the length of the string; text is taken
    to be well-formed Unicode, so that encoding never raises. *)

From Stdlib Require Import ZArith String Ascii List Lia.
From stdpp Require Import base list strings.
Import ListNotations.
Local Open Scope string_scope.

(** ** Python values shared by both programs *)
Module Py.

Inductive exn : Type :=
| FileExistsError                 (* raise FileExistsError(...) *)
| FileNotFoundError (path : string) (* raise FileNotFoundError(f"...: {path}") *)
| AttributeError.                 (* attribute access on None *)

Inductive res (A : Type) : Type :=
| Ok (a : A)
| Raise (e : exn)
| Stuck.
Arguments Ok {A} a.
Arguments Raise {A} e.
Arguments Stuck {A}.

Definition rbind {A B} (m : res A) (k : A -> res B) : res B :=
  match m with
  | Ok a => k a
  | Raise e => Raise e
  | Stuck => Stuck
  end.

(** A computation over a mutable state [S].  The state that comes with
    [Raise] is the state at the moment of the raise: Python undoes
    nothing. *)
Definition M (S A : Type) : Type := S -> res A * S.

Definition ret {S A} (a : A) : M S A := fun s => (Ok a, s).
Definition raise {S A} (e : exn) : M S A := fun s => (Raise e, s).
Definition stuck {S A} : M S A := fun s => (Stuck, s).
Definition bind {S A B} (m : M S A) (k : A -> M S B) : M S B :=
  fun s => match m s with
           | (Ok a, s') => k a s'
           | (Raise e, s') => (Raise e, s')
           | (Stuck, s') => (Stuck, s')
           end.
(** Reading the state with a function that cannot change it. *)
Definition reads {S A} (f : S -> res A) : M S A := fun s => (f s, s).

(** [s.startswith(c)] for a one-character [c]. *)
Definition startswith (s : string) (c : ascii) : bool :=
  match s with
  | String a _ => Ascii.eqb a c
  | EmptyString => false
  end.

(** [s[1:]] *)
Definition tail (s : string) : string :=
  match s with
  | String _ r => r
  | EmptyString => EmptyString
  end.

(** [s.split(sep)] for a one-character separator: never empty, and the
    empty string gives one empty piece. *)
Fixpoint split (sep : ascii) (s : string) : list string :=
  match s with
  | EmptyString => [EmptyString]
  | String a r =>
      if Ascii.eqb a sep then EmptyString :: split sep r
      else match split sep r with
           | p :: ps => String a p :: ps
           | [] => [String a EmptyString]
           end
  end.

(** [sep.join(l)] *)
Fixpoint join (sep : string) (l : list string) : string :=
  match l with
  | [] => EmptyString
  | [x] => x
  | x :: r => x ++ sep ++ join sep r
  end.

(** No character of the string is '/'. *)
Definition no_slash (s : string) : bool :=
  forallb (fun a => negb (Ascii.eqb a "/")) (list_ascii_of_string s).

(** Truth value of a string: the empty string is false. *)
Definition truthy (s : string) : bool :=
  match s with EmptyString => false | _ => true end.

(** The result is not an exception. *)
Definition quiet {A} (r : res A) : Prop :=
  match r with
  | Raise _ => False
  | _ => True
  end.



(** A handler ended in an error: an exception left it, or it showed an
    error or warning box [d]. *)
Definition failed {D} (r : res (option D)) : Prop :=
  match r with
  | Raise _ => True
  | Ok (Some _) => True
  | _ => False
  end.


(** [m] keeps [P]: from a state with [P] it ends, however it ends, in a
    state with [P]. *)
Definition keeps {S A} (P : S -> Prop) (m : M S A) : Prop :=
  forall s r s', P s -> m s = (r, s') -> P s'.

(** When [m] fails from [s], the state is still [s]. *)
Definition fails_clean {S D} (m : M S (option D)) (s : S) : Prop :=
  forall r s', m s = (r, s') -> failed r -> s' = s.

(** The outcome [x] of a computation is not [Stuck]: it returned a value
    in a state with [Q], or raised in a state with [J]. *)
Definition ends_in {S A : Type} (J : S -> Prop) (Q : A -> S -> Prop)
    (x : res A * S) : Prop :=
  match x with
  | (Ok a, s) => Q a s
  | (Raise _, s) => J s
  | (Stuck, _) => False
  end.

(** The result is a value or an exception. *)
Definition returns {A : Type} (r : res A) : Prop :=
  match r with
  | Stuck => False
  | _ => True
  end.

End Py.
Import Py.

Declare Scope py_scope.
Delimit Scope py_scope with py.
Notation "'let!' x ':=' m 'in' k" := (bind m (fun x => k))
  (at level 10, x name, m at level 100, k at level 200, only parsing)
  : py_scope.
Notation "'exec' m 'in' k" := (bind m (fun _ => k))
  (at level 10, m at level 100, k at level 200, only parsing) : py_scope.
Notation "'let?' x ':=' m 'in' k" := (rbind m (fun x => k))
  (at level 10, x name, m at level 100, k at level 200, only parsing)
  : py_scope.
Local Open Scope py_scope.

(** A reference to an object of the store: its identity. *)
Abbreviation ref := nat (only parsing).

(** ** Sibling chains

    [next c] is what the store says about object [c]: [None] when there is
    no such object, [Some n] when its [sibling_next] is [n]. *)
Module Chain.
Section chain.
Variable next : ref -> option (option ref).

(** The objects met from [first] along [sibling_next], in order. *)
Fixpoint walk (fuel : nat) (first : option ref) : res (list ref) :=
  match first with
  | None => Ok []
  | Some c =>
      match fuel with
      | 0 => Stuck
      | S fuel =>
          match next c with
          | None => Stuck
          | Some n => let? l := walk fuel n in Ok (c :: l)
          end
      end
  end.

Inductive chain : option ref -> list ref -> Prop :=
| chain_nil : chain None []
| chain_cons (c : ref) (n : option ref) (l : list ref) :
    next c = Some n -> chain n l -> chain (Some c) (c :: l).

End chain.
End Chain.

(** ** Trees of links

    The links [child] and [sibling_next] make a binary tree of the nodes
    below a node: [Br r kids sibs] is the node [r] with the tree [kids]
    of its children and the tree [sibs] of the siblings after it. *)
Module Tree.

Inductive links : Type :=
| Leaf
| Br (r : ref) (kids sibs : links).

Fixpoint refs (t : links) : list ref :=
  match t with
  | Leaf => []
  | Br r kids sibs => r :: refs kids ++ refs sibs
  end.

(** The first level of [t]: the chain of siblings. *)
Fixpoint spine (t : links) : list ref :=
  match t with
  | Leaf => []
  | Br r _ sibs => r :: spine sibs
  end.

(** The depth of calls and loop turns that a recursive deletion needs for
    the chain of [t]. *)
Fixpoint turns (t : links) : nat :=
  match t with
  | Leaf => 0
  | Br _ kids sibs => S (Nat.max (S (turns kids)) (turns sibs))
  end.

End Tree.

(** ** winfilesystem.py *)
Module Win.
Export Tree.

(** [FileNode.metadata]: a dict with the three fixed keys 'created',
    'modified' and 'size'; a [QDateTime] is its number of milliseconds
    since the epoch. *)
Record Metadata : Type := mkMetadata {
  created : Z;
  modified : Z;
  size : Z
}.

Record FileNode : Type := mkFileNode {
  name : string;
  isdir : bool;
  parent : option ref;
  child : option ref;
  sibling_prev : option ref;
  sibling_next : option ref;
  content : string;
  metadata : Metadata
}.

(** [FileNode.__init__(name, isdir, parent)]; the two readings of
    [QDateTime.currentDateTime()] are [t_created] and [t_modified]. *)
Definition new_FileNode (name : string) (isdir : bool) (parent : option ref)
    (t_created t_modified : Z) : FileNode :=
  {| name := name; isdir := isdir; parent := parent; child := None;
     sibling_prev := None; sibling_next := None; content := "";
     metadata := {| created := t_created; modified := t_modified; size := 0 |} |}.

Definition set_name (v : string) (n : FileNode) : FileNode :=
  mkFileNode v (isdir n) (parent n) (child n) (sibling_prev n) (sibling_next n)
             (content n) (metadata n).
Definition set_parent (v : option ref) (n : FileNode) : FileNode :=
  mkFileNode (name n) (isdir n) v (child n) (sibling_prev n) (sibling_next n)
             (content n) (metadata n).
Definition set_child (v : option ref) (n : FileNode) : FileNode :=
  mkFileNode (name n) (isdir n) (parent n) v (sibling_prev n) (sibling_next n)
             (content n) (metadata n).
Definition set_sibling_prev (v : option ref) (n : FileNode) : FileNode :=
  mkFileNode (name n) (isdir n) (parent n) (child n) v (sibling_next n)
             (content n) (metadata n).
Definition set_sibling_next (v : option ref) (n : FileNode) : FileNode :=
  mkFileNode (name n) (isdir n) (parent n) (child n) (sibling_prev n) v
             (content n) (metadata n).
Definition set_content (v : string) (n : FileNode) : FileNode :=
  mkFileNode (name n) (isdir n) (parent n) (child n) (sibling_prev n)
             (sibling_next n) v (metadata n).
(** [metadata.update({'modified': m, 'size': s})] *)
Definition update_metadata (m s : Z) (n : FileNode) : FileNode :=
  mkFileNode (name n) (isdir n) (parent n) (child n) (sibling_prev n)
             (sibling_next n) (content n)
             {| created := created (metadata n); modified := m; size := s |}.

(** The [FileManager] window with the store of its nodes and the two
    fields of its [FileSystemModel] ([self.model.root],
    [self.model.current]). *)
Record world : Type := mkWorld {
  heap : list FileNode;
  root : ref;
  current : ref;
  history : list ref;
  future : list ref;
  model_root : ref;
  model_current : ref
}.

Definition with_heap (h : list FileNode) (w : world) : world :=
  mkWorld h (root w) (current w) (history w) (future w)
          (model_root w) (model_current w).
Definition with_current (c : ref) (w : world) : world :=
  mkWorld (heap w) (root w) c (history w) (future w)
          (model_root w) (model_current w).
Definition with_history (l : list ref) (w : world) : world :=
  mkWorld (heap w) (root w) (current w) l (future w)
          (model_root w) (model_current w).
Definition with_future (l : list ref) (w : world) : world :=
  mkWorld (heap w) (root w) (current w) (history w) l
          (model_root w) (model_current w).

(** Reading an object. *)
Definition get (w : world) (r : ref) : res FileNode :=
  match heap w !! r with
  | Some nd => Ok nd
  | None => Stuck
  end.

Definition getM (r : ref) : M world FileNode := reads (fun w => get w r).

(** Assigning one attribute of an object. *)
Definition setattr (r : ref) (f : FileNode -> FileNode) : M world unit :=
  fun w => match heap w !! r with
           | Some nd => (Ok tt, with_heap (<[r := f nd]> (heap w)) w)
           | None => (Stuck, w)
           end.

(** Allocating a new object: its identity is new. *)
Definition alloc (nd : FileNode) : M world ref :=
  fun w => (Ok (length (heap w)), with_heap (heap w ++ [nd]) w).

Definition modify (f : world -> world) : M world unit :=
  fun w => (Ok tt, f w).

(** Identity comparison against a possibly-[None] value. *)
Definition is_ref (o : option ref) (r : ref) : bool :=
  match o with
  | Some x => Nat.eqb x r
  | None => false
  end.

(** [FileNode.full_path]: the [while node.parent] loop. *)
Fixpoint full_path_loop (fuel : nat) (w : world) (node : ref)
    (path : list string) : res (list string) :=
  let? nd := get w node in
  match parent nd with
  | None => Ok path
  | Some p =>
      match fuel with
      | 0 => Stuck
      | S fuel => full_path_loop fuel w p (path ++ [name nd])
      end
  end.

Definition full_path (fuel : nat) (w : world) (self : ref) : res string :=
  let? path := full_path_loop fuel w self [] in
  Ok (match path with
      | [] => "/"
      | _ => "/" ++ join "/" (rev path)
      end).

(** A [QModelIndex]: the invalid index [QModelIndex()] or one made by
    [createIndex(row, column, ptr)]. *)
Inductive QModelIndex : Type :=
| InvalidIndex
| createIndex (row column : nat) (ptr : option ref).

Definition isValid (i : QModelIndex) : bool :=
  match i with
  | InvalidIndex => false
  | createIndex _ _ _ => true
  end.

(** [column()] is -1 on the invalid index. *)
Definition column (i : QModelIndex) : Z :=
  match i with
  | InvalidIndex => (-1)%Z
  | createIndex _ c _ => Z.of_nat c
  end.

Module FileSystemModel.

(** [parent_index.internalPointer() if parent_index.isValid() else
    self.current] *)
Definition pointer_or_current (w : world) (i : QModelIndex) : option ref :=
  match i with
  | createIndex _ _ p => p
  | InvalidIndex => Some (model_current w)
  end.

(** Attribute access on a value that may be [None]. *)
Definition deref (w : world) (o : option ref) : res FileNode :=
  match o with
  | Some r => get w r
  | None => Raise AttributeError
  end.

(** [sibling_index]: the [while current] loop. *)
Fixpoint sibling_index_loop (fuel : nat) (w : world) (node : ref)
    (current : option ref) (index : nat) : res nat :=
  match current with
  | None => Ok 0
  | Some c =>
      if Nat.eqb c node then Ok index
      else match fuel with
           | 0 => Stuck
           | S fuel =>
               let? cd := get w c in
               sibling_index_loop fuel w node (sibling_next cd) (S index)
           end
  end.

Definition sibling_index (fuel : nat) (w : world) (node : option ref)
    : res nat :=
  let? nd := deref w node in
  match node, parent nd with
  | Some n, Some p =>
      let? pd := get w p in
      sibling_index_loop fuel w n (child pd) 0
  | _, _ => Ok 0
  end.

(** [rowCount]: the [while child] loop. *)
Fixpoint rowCount_loop (fuel : nat) (w : world) (child : option ref)
    (count : nat) : res nat :=
  match child with
  | None => Ok count
  | Some c =>
      match fuel with
      | 0 => Stuck
      | S fuel =>
          let? cd := get w c in
          rowCount_loop fuel w (sibling_next cd) (S count)
      end
  end.

Definition rowCount (fuel : nat) (w : world) (parent : QModelIndex)
    : res nat :=
  if (0 <? column parent)%Z then Ok 0
  else
    let? pd := deref w (pointer_or_current w parent) in
    rowCount_loop fuel w (child pd) 0.

Definition columnCount (parent : QModelIndex) : nat := 4.

(** Qt's [QAbstractItemModel::hasIndex]: row and column are not negative
    and lie below [rowCount(parent)] and [columnCount(parent)]. *)
Definition hasIndex (fuel : nat) (w : world) (row column : nat)
    (parent : QModelIndex) : res bool :=
  let? n := rowCount fuel w parent in
  Ok (Nat.ltb row n && Nat.ltb column (columnCount parent)).

(** [index]: the [for _ in range(row)] loop. *)
Fixpoint index_loop (w : world) (row : nat) (child : option ref)
    : res (option ref) :=
  match row with
  | 0 => Ok child
  | S row =>
      match child with
      | Some c => let? cd := get w c in index_loop w row (sibling_next cd)
      | None => index_loop w row None
      end
  end.

Definition index (fuel : nat) (w : world) (row column : nat)
    (parent : QModelIndex) : res QModelIndex :=
  let? ok := hasIndex fuel w row column parent in
  if negb ok then Ok InvalidIndex
  else
    let? pd := deref w (pointer_or_current w parent) in
    let? child := index_loop w row (child pd) in
    Ok (match child with
        | Some c => createIndex row column (Some c)
        | None => InvalidIndex
        end).

Definition parent (fuel : nat) (w : world) (index : QModelIndex)
    : res QModelIndex :=
  match index with
  | InvalidIndex => Ok InvalidIndex
  | createIndex _ _ child =>
      let? cd := deref w child in
      let parent := Win.parent cd in
      if is_ref parent (model_root w) || is_ref parent (model_current w)
      then Ok InvalidIndex
      else
        let? row := sibling_index fuel w parent in
        Ok (createIndex row 0 parent)
  end.

(** [remove_node]: the [while current and current != node] loop; the
    result is the final [current]. *)
Fixpoint remove_node_loop (fuel : nat) (w : world) (node : ref)
    (current : option ref) : res (option ref) :=
  match current with
  | None => Ok None
  | Some c =>
      if Nat.eqb c node then Ok (Some c)
      else match fuel with
           | 0 => Stuck
           | S fuel =>
               let? cd := get w c in
               remove_node_loop fuel w node (sibling_next cd)
           end
  end.

(** [beginRemoveRows] and [endRemoveRows] only notify the views. *)
Definition remove_node (fuel : nat) (parent_index : QModelIndex)
    (node : ref) : M world bool :=
  let! parent := reads (fun w => Ok (pointer_or_current w parent_index)) in
  let! pd := reads (fun w => deref w parent) in
  let! current := reads (fun w => remove_node_loop fuel w node (child pd)) in
  match current, parent with
  | Some _, Some parent =>
      let! nd := getM node in
      exec match sibling_prev nd with
           | Some p => setattr p (set_sibling_next (sibling_next nd))
           | None => ret tt
           end in
      let! nd := getM node in
      exec match sibling_next nd with
           | Some n => setattr n (set_sibling_prev (sibling_prev nd))
           | None => ret tt
           end in
      let! pd := getM parent in
      let! nd := getM node in
      exec (if is_ref (child pd) node
            then setattr parent (set_child (sibling_next nd))
            else ret tt) in
      exec setattr node (set_parent None) in
      exec setattr node (set_sibling_prev None) in
      exec setattr node (set_sibling_next None) in
      ret true
  | _, _ => ret false
  end.

End FileSystemModel.

(** What a handler shows to the user: [QMessageBox.critical] with the
    fixed text of [delete_item] on the root, or with [str(e)] of a caught
    exception. *)
Inductive dialog : Type :=
| critical_root
| critical_exn (e : exn).

(** [try: body  except Exception as e: QMessageBox.critical(...)] *)
Definition try_except (body : M world unit) : M world (option dialog) :=
  fun w => match body w with
           | (Ok _, w') => (Ok None, w')
           | (Raise e, w') => (Ok (Some (critical_exn e)), w')
           | (Stuck, w') => (Stuck, w')
           end.

(** [list.pop()]: the last element and the list without it. *)
Definition pop (l : list ref) : option (ref * list ref) :=
  match rev l with
  | [] => None
  | x :: r => Some (x, rev r)
  end.

(** [[n for n in l if n != node]] *)
Definition scrub (node : ref) (l : list ref) : list ref :=
  List.filter (fun n => negb (Nat.eqb n node)) l.

(** The view calls ([refresh_view], [address_bar.setText], the signals
    [layoutChanged] and [dataChanged]) touch no node and no navigation
    field and are left out of the handlers below. *)
Module FileManager.

(** [_create_node]: the [while last.sibling_next] loop. *)
Fixpoint _create_node_loop (fuel : nat) (w : world) (last : ref) : res ref :=
  let? ld := get w last in
  match sibling_next ld with
  | None => Ok last
  | Some n =>
      match fuel with
      | 0 => Stuck
      | S fuel => _create_node_loop fuel w n
      end
  end.

Definition _create_node (fuel : nat) (name : string) (isdir : bool)
    (parent : ref) (t_created t_modified : Z) : M world ref :=
  let! node := alloc (new_FileNode name isdir (Some parent)
                                   t_created t_modified) in
  let! pd := getM parent in
  match child pd with
  | None =>
      exec setattr parent (set_child (Some node)) in
      ret node
  | Some c =>
      let! last := reads (fun w => _create_node_loop fuel w c) in
      exec setattr last (set_sibling_next (Some node)) in
      exec setattr node (set_sibling_prev (Some last)) in
      ret node
  end.

(** [FileManager.__init__]: the root, the model over it, the directory
    "ROOT" made by [initFileSystem], and the two empty stacks. *)
Definition init (t0 t0' t1 t1' : Z) : world :=
  snd (_create_node 0 "ROOT" true 0 t1 t1'
         (mkWorld [new_FileNode "" true None t0 t0'] 0 0 [] [] 0 0)).

(** [resolve_path]: the inner [while child] loop; the result is [found]. *)
Fixpoint resolve_path_find (fuel : nat) (w : world) (child : option ref)
    (part : string) : res (option ref) :=
  match child with
  | None => Ok None
  | Some c =>
      match fuel with
      | 0 => Stuck
      | S fuel =>
          let? cd := get w c in
          if String.eqb (name cd) part then Ok (Some c)
          else resolve_path_find fuel w (sibling_next cd) part
      end
  end.

(** [resolve_path]: the [for part in parts] loop. *)
Fixpoint resolve_path_loop (fuel : nat) (w : world) (path : string)
    (current : ref) (parts : list string) : res ref :=
  match parts with
  | [] => Ok current
  | part :: parts =>
      if String.eqb part "." then resolve_path_loop fuel w path current parts
      else if String.eqb part ".." then
        let? cd := get w current in
        match parent cd with
        | Some p => resolve_path_loop fuel w path p parts
        | None => resolve_path_loop fuel w path current parts
        end
      else
        let? cd := get w current in
        let? found := resolve_path_find fuel w (child cd) part in
        match found with
        | None => Raise (FileNotFoundError path)
        | Some f => resolve_path_loop fuel w path f parts
        end
  end.

Definition resolve_path (fuel : nat) (w : world) (path : string) : res ref :=
  let path := if startswith path "~" then "/Home" ++ tail path else path in
  let current := if startswith path "/" then root w else current w in
  let parts := List.filter truthy (split "/" path) in
  resolve_path_loop fuel w path current parts.

(** [index.data(Qt.UserRole)] *)
Definition data_UserRole (index : QModelIndex) : option ref :=
  match index with
  | InvalidIndex => None
  | createIndex _ _ p => p
  end.

Definition navigateTree (index : QModelIndex) : M world unit :=
  match data_UserRole index with
  | None => ret tt
  | Some node =>
      let! nd := getM node in
      if isdir nd then
        exec modify (fun w => with_history (history w ++ [current w]) w) in
        exec modify (with_future []) in
        modify (with_current node)
      else ret tt
  end.

Definition navigateAddress (fuel : nat) (text : string)
    : M world (option dialog) :=
  try_except (
    let! node := reads (fun w => resolve_path fuel w text) in
    exec modify (fun w => with_history (history w ++ [current w]) w) in
    exec modify (with_future []) in
    modify (with_current node)).

Definition navigateBack : M world unit :=
  fun w =>
    match pop (history w) with
    | None => (Ok tt, w)
    | Some (top, rest) =>
        (Ok tt, with_history rest
                  (with_current top (with_future (future w ++ [current w]) w)))
    end.

Definition navigateForward : M world unit :=
  fun w =>
    match pop (future w) with
    | None => (Ok tt, w)
    | Some (top, rest) =>
        (Ok tt, with_future rest
                  (with_current top (with_history (history w ++ [current w]) w)))
    end.

Definition navigateUp : M world unit :=
  let! w := reads (fun w => Ok w) in
  let! cd := getM (current w) in
  match parent cd with
  | Some p =>
      exec modify (fun w => with_history (history w ++ [current w]) w) in
      modify (with_current p)
  | None => ret tt
  end.

(** [FileEditor.save_content]; [now] is the reading of
    [QDateTime.currentDateTime()]. *)
Definition save_content (node : ref) (new_content : string) (now : Z)
    : M world unit :=
  exec setattr node (set_content new_content) in
  setattr node (update_metadata now (Z.of_nat (String.length new_content))).

(** [open_file]; [edit] is what the user does in the editor dialog:
    [Some (text, now)] saves [text] at time [now] (the dialog is accepted),
    [None] closes the dialog without saving. *)
Definition open_file (fuel : nat) (node : ref) (edit : option (string * Z))
    : M world unit :=
  let! nd := getM node in
  if isdir nd then ret tt
  else match edit with
       | None => ret tt
       | Some (text, now) =>
           exec save_content node text now in
           let! p := reads (fun w =>
                       FileSystemModel.parent fuel w
                         (createIndex 0 0 (Some node))) in
           let! index := reads (fun w => FileSystemModel.index fuel w 0 0 p) in
           ret tt
       end.

(** [create_item]: the [while child] scan for the name. *)
Fixpoint create_item_loop (fuel : nat) (w : world) (child : option ref)
    (name : string) : res unit :=
  match child with
  | None => Ok tt
  | Some c =>
      match fuel with
      | 0 => Stuck
      | S fuel =>
          let? cd := get w c in
          if String.eqb (Win.name cd) name then Raise FileExistsError
          else create_item_loop fuel w (sibling_next cd) name
      end
  end.

(** [create_item]; [(name, ok)] is the answer of [QInputDialog.getText]. *)
Definition create_item (fuel : nat) (parent_node : ref) (isdir : bool)
    (name : string) (ok : bool) (t_created t_modified : Z)
    (edit : option (string * Z)) : M world (option dialog) :=
  if negb ok || negb (truthy name) then ret None
  else try_except (
    let! pd := getM parent_node in
    exec reads (fun w => create_item_loop fuel w (child pd) name) in
    let! new_node := _create_node fuel name isdir parent_node
                                  t_created t_modified in
    if negb isdir then open_file fuel new_node edit else ret tt).

(** [_delete_node] and its [while child] loop; [n] bounds the depth of the
    calls and the length of the loop, [fuel] the loops of the model. *)
Fixpoint _delete_node_rec (fuel n : nat) (node : ref)
    (parent_index : QModelIndex) {struct n} : M world unit :=
  match n with
  | 0 => stuck
  | S n =>
      let! nd := getM node in
      exec _delete_node_loop fuel n (child nd) parent_index in
      exec FileSystemModel.remove_node fuel parent_index node in
      ret tt
  end
with _delete_node_loop (fuel n : nat) (child : option ref)
    (parent_index : QModelIndex) {struct n} : M world unit :=
  match child with
  | None => ret tt
  | Some c =>
      match n with
      | 0 => stuck
      | S n =>
          let! cd := getM c in
          let next_child := sibling_next cd in
          let! i := reads (fun w => FileSystemModel.index fuel w 0 0 parent_index) in
          exec _delete_node_rec fuel n c i in
          _delete_node_loop fuel n next_child parent_index
      end
  end.

Definition _delete_node (fuel : nat) (node : ref)
    (parent_index : QModelIndex) : M world unit :=
  _delete_node_rec fuel fuel node parent_index.

(** [delete_item]; [reply_yes] is the answer to the confirmation box,
    asked only for a directory with a child. *)
Definition delete_item (fuel : nat) (node : ref) (reply_yes : bool)
    : M world (option dialog) :=
  let! w := reads (fun w => Ok w) in
  if Nat.eqb node (root w) then ret (Some critical_root)
  else
    let! nd := getM node in
    if isdir nd && bool_decide (is_Some (child nd)) && negb reply_yes
    then ret None
    else try_except (
      let! nd := getM node in
      let parent := parent nd in
      let! row := reads (fun w => FileSystemModel.sibling_index fuel w parent) in
      let! pp := reads (fun w =>
                   FileSystemModel.parent fuel w (createIndex 0 0 parent)) in
      let! parent_index := reads (fun w => FileSystemModel.index fuel w row 0 pp) in
      exec _delete_node fuel node parent_index in
      exec modify (fun w => with_history (scrub node (history w)) w) in
      exec modify (fun w => with_future (scrub node (future w)) w) in
      modify (fun w => if Nat.eqb (current w) node
                       then with_current (root w) w else w)).

(** [rename_item]: the [while sibling] scan. *)
Fixpoint rename_item_loop (fuel : nat) (w : world) (node : ref)
    (sibling : option ref) (new_name : string) : res unit :=
  match sibling with
  | None => Ok tt
  | Some s =>
      match fuel with
      | 0 => Stuck
      | S fuel =>
          let? sd := get w s in
          if negb (Nat.eqb s node) && String.eqb (name sd) new_name
          then Raise FileExistsError
          else rename_item_loop fuel w node (sibling_next sd) new_name
      end
  end.

(** [rename_item]; [(new_name, ok)] is the answer of
    [QInputDialog.getText]. *)
Definition rename_item (fuel : nat) (node : ref) (new_name : string)
    (ok : bool) : M world (option dialog) :=
  if negb ok || negb (truthy new_name) then ret None
  else try_except (
    let! nd := getM node in
    let! pd := reads (fun w => FileSystemModel.deref w (parent nd)) in
    exec reads (fun w => rename_item_loop fuel w node (child pd) new_name) in
    setattr node (set_name new_name)).

End FileManager.
Import FileManager.

(** The state left by a handler. *)
Definition after {A : Type} (m : M world A) (w : world) : world := snd (m w).

(** *** Running examples

    The window after start-up holds the root (object 0) and its directory
    "ROOT" (object 1). *)
Definition started : world := init 0 0 0 0.

(** root / docs / a.txt, with "hi" saved in a.txt: directory "docs" is
    object 2 and the file is object 3. *)
Definition with_docs : world :=
  after (create_item 8 2 false "a.txt" true 2 2 (Some ("hi", 3%Z)))
    (after (create_item 8 0 true "docs" true 1 1 None) started).

(** root / ROOT / {a / b, c / d}: the directories a, b, c, d are the
    objects 2, 3, 4, 5. *)
Definition with_abcd : world :=
  after (create_item 8 4 true "d" true 4 4 None)
    (after (create_item 8 1 true "c" true 3 3 None)
       (after (create_item 8 2 true "b" true 2 2 None)
          (after (create_item 8 1 true "a" true 1 1 None) started))).

(** The user walks ROOT, a, b by double clicks and then goes back once:
    [current] is a, [history] is [root; ROOT] and [future] is [b]. *)
Definition walked_back : world :=
  after navigateBack
    (after (navigateTree (createIndex 0 0 (Some 3)))
       (after (navigateTree (createIndex 0 0 (Some 2)))
          (after (navigateTree (createIndex 0 0 (Some 1))) with_abcd))).

(** The same walk without the step back: [current] is b. *)
Definition walked_in : world :=
  after (navigateTree (createIndex 0 0 (Some 3)))
    (after (navigateTree (createIndex 0 0 (Some 2)))
       (after (navigateTree (createIndex 0 0 (Some 1))) with_abcd)).

(** *** Navigation as the specification words it

    [navigateTo(node)]: push [current] onto [history], clear [future], set
    [current] to [node]. *)
Definition navigateTo_spec (node : ref) (w : world) : world :=
  with_current node (with_future [] (with_history (history w ++ [current w]) w)).

(** [up()]: [navigateTo(current.parent)] if [current.parent] exists, else
    no-op. *)
Definition up_spec (w : world) : option world :=
  match heap w !! current w with
  | Some cd =>
      Some (match parent cd with
            | Some p => navigateTo_spec p w
            | None => w
            end)
  | None => None
  end.

(** *** Reading the tree

    [listChildren node]: the children of [node] in the order of their
    sibling chain, which is the order in which [rowCount] and [index] of
    the model meet them. *)
Definition next_of (w : world) (c : ref) : option (option ref) :=
  sibling_next <$> heap w !! c.

Definition listChildren (fuel : nat) (w : world) (node : ref)
    : res (list ref) :=
  let? nd := get w node in
  Chain.walk (next_of w) fuel (child nd).

Definition name_at (w : world) (c : ref) : string :=
  match heap w !! c with
  | Some cd => name cd
  | None => ""
  end.

Definition parent_at (w : world) (c : ref) : option ref :=
  match heap w !! c with
  | Some cd => parent cd
  | None => None
  end.

(** A name that [resolve_path] reads as the name of a child: not empty,
    not "." or "..", and without '/'. *)
Definition ordinary (s : string) : bool :=
  truthy s && negb (String.eqb s ".") && negb (String.eqb s "..")
  && no_slash s.

(** The first of the nodes [l] whose name is [part]. *)
Definition child_named (w : world) (part : string) (l : list ref)
    : option ref :=
  List.find (fun c => String.eqb (name_at w c) part) l.

(** The segments of a path: its pieces between slashes that are not
    empty. *)
Definition segments (path : string) : list string :=
  List.filter truthy (split "/" path).

(** The children of [p] can be listed, each has [p] as its parent, and no
    two of them share a name. *)
Definition node_ok (fuel : nat) (w : world) (p : ref) : bool :=
  match listChildren fuel w p with
  | Ok l =>
      forallb (fun c => is_ref (parent_at w c) p) l
      && bool_decide (NoDup (map (name_at w) l))
  | _ => false
  end.

(** The links of the store form a tree below the root: the root has no
    parent and every object is [node_ok]. *)
Definition well_formed (fuel : nat) (w : world) : bool :=
  match heap w !! root w with
  | Some rd => bool_decide (parent rd = None)
  | None => false
  end
  && forallb (node_ok fuel w) (seq 0 (length (heap w))).

(** [descends r path n]: [path] lists the nodes strictly below [r] on the
    way down to [n], each a child of the one before. *)
Inductive descends (fuel : nat) (w : world) : ref -> list ref -> ref -> Prop :=
| descends_here (r : ref) : descends fuel w r [] r
| descends_child (r : ref) (l : list ref) (c : ref) (path : list ref)
    (n : ref) :
    listChildren fuel w r = Ok l -> c ∈ l ->
    descends fuel w c path n -> descends fuel w r (c :: path) n.

(** *** The operations of the tree engine as calls of the handlers *)
Inductive operation : Type :=
| createNode (parent_node : ref) (isdir : bool) (name : string) (ok : bool)
    (t_created t_modified : Z) (edit : option (string * Z))
| deleteNode (node : ref) (reply_yes : bool)
| renameNode (node : ref) (new_name : string) (ok : bool)
| updateContent (node : ref) (edit : option (string * Z))
| resolve (path : string).

Definition perform (fuel : nat) (o : operation) : M world (option dialog) :=
  match o with
  | createNode parent_node isdir name ok t_created t_modified edit =>
      create_item fuel parent_node isdir name ok t_created t_modified edit
  | deleteNode node reply_yes => delete_item fuel node reply_yes
  | renameNode node new_name ok => rename_item fuel node new_name ok
  | updateContent node edit =>
      exec open_file fuel node edit in ret None
  | resolve path =>
      exec reads (fun w => resolve_path fuel w path) in ret None
  end.


(** *** Where a handler can raise *)


(** The path that [resolve_path] works on and names in its error: a
    leading '~' is replaced by "/Home". *)
Definition expand (text : string) : string :=
  if startswith text "~" then "/Home" ++ tail text else text.

(** [below w par prev first t]: in the store of [w] the chain that starts
    at [first], after the node [prev], holds children of [par] linked in
    both directions, and they, with all below them, are linked as [t]
    says. *)
Fixpoint below (w : world) (par : ref) (prev first : option ref) (t : links)
    : Prop :=
  match t with
  | Leaf => first = None
  | Br r kids sibs =>
      first = Some r
      /\ exists nd, heap w !! r = Some nd /\ parent nd = Some par
                    /\ sibling_prev nd = prev
                    /\ below w r None (child nd) kids
                    /\ below w par (Some r) (sibling_next nd) sibs
  end.

(** What [save_content] makes of a node: the new content, its length as
    the size, and the clock reading as the time of modification. *)
Definition saved (text : string) (now : Z) (nd : FileNode) : FileNode :=
  mkFileNode (name nd) (isdir nd) (parent nd) (child nd)
    (sibling_prev nd) (sibling_next nd) text
    (mkMetadata (created (metadata nd)) now (Z.of_nat (String.length text))).

(** The place of [c] in the tree: its parent, the siblings before and
    after it, and its name. *)
Definition place_at (w : world) (c : ref)
    : option (option ref * option ref * option ref * string) :=
  (fun nd => (parent nd, sibling_prev nd, sibling_next nd, name nd))
    <$> heap w !! c.

(** *** What every state of the window satisfies *)

(** The [sibling_prev] links along the children [l], the first of which
    comes after [prev]. *)
Fixpoint linked (w : world) (prev : option ref) (l : list ref) : Prop :=
  match l with
  | [] => True
  | c :: l' =>
      sibling_prev <$> heap w !! c = Some prev /\ linked w (Some c) l'
  end.

(** The links form a tree below the root in which no two children of a
    node share a name ([well_formed], the walks bounded by the size of the
    store), every node was made after its parent, and the children of
    every node are linked backwards as they are forwards. *)
Definition sound (w : world) : Prop :=
  well_formed (length (heap w)) w = true
  /\ (forall c p, parent_at w c = Some p -> p < c)
  /\ (forall p l, listChildren (length (heap w)) w p = Ok l ->
      linked w None l).

(** The state after a sequence of operations. *)
Fixpoint run (fuel : nat) (os : list operation) (w : world) : world :=
  match os with
  | [] => w
  | o :: os => run fuel os (snd (perform fuel o w))
  end.

(** The operations that make the directory a (object 2) under ROOT and in
    it the file b.txt (object 3), saved with the text "hi". *)
Definition make_a_b : list operation :=
  [createNode 1 true "a" true 5 5 None;
   createNode 2 false "b.txt" true 6 6 (Some ("hi", 7%Z))].

(** A node with none of its four links left. *)
Definition cleared (nd : FileNode) : FileNode :=
  set_sibling_next None
    (set_sibling_prev None (set_parent None (set_child None nd))).

(** The links of the node [c]: parent, child and both siblings. *)
Definition links_at (w : world) (c : ref)
    : option (option ref * option ref * option ref * option ref) :=
  (fun nd => (parent nd, child nd, sibling_prev nd, sibling_next nd))
    <$> heap w !! c.

(** The first of the nodes [l] other than [node] that bears [new_name]. *)
Definition rival (w : world) (node : ref) (new_name : string) (l : list ref)
    : option ref :=
  List.find (fun s => negb (Nat.eqb s node)
                      && String.eqb (name_at w s) new_name) l.

(** *** Links in order *)

(** The links of the store are in order: every link leads to a node; a
    node was made after its parent and after its previous sibling, and
    before its child and its next sibling.  The root, the current node,
    the current node of the model and the nodes on the two stacks are
    nodes. *)
Definition ordered (w : world) : Prop :=
  root w < length (heap w) /\ current w < length (heap w)
  /\ model_current w < length (heap w)
  /\ Forall (fun n => n < length (heap w)) (history w)
  /\ Forall (fun n => n < length (heap w)) (future w)
  /\ forall x nd, heap w !! x = Some nd ->
       (forall p, parent nd = Some p -> p < x)
       /\ (forall c, child nd = Some c -> x < c /\ c < length (heap w))
       /\ (forall n, sibling_next nd = Some n ->
             x < n /\ n < length (heap w))
       /\ (forall p, sibling_prev nd = Some p -> p < x).

(** The pointer of the index, if it has one, is a node. *)
Definition valid_index (w : world) (i : QModelIndex) : Prop :=
  match i with
  | createIndex _ _ (Some p) => p < length (heap w)
  | _ => True
  end.

(** What the user does: one of the operations, a click on an item of the
    tree view, a path entered in the address bar, or one of the three
    navigation buttons. *)
Inductive event : Type :=
| act (o : operation)
| click (index : QModelIndex)
| address (text : string)
| back
| forward
| up.

Definition handle (fuel : nat) (e : event) : M world (option dialog) :=
  match e with
  | act o => perform fuel o
  | click index => exec navigateTree index in ret None
  | address text => navigateAddress fuel text
  | back => exec navigateBack in ret None
  | forward => exec navigateForward in ret None
  | up => exec navigateUp in ret None
  end.

(** The nodes that an event names are nodes of the store. *)
Definition valid_event (e : event) (w : world) : Prop :=
  match e with
  | act (createNode parent_node _ _ _ _ _ _) =>
      parent_node < length (heap w)
  | act (deleteNode node _) => node < length (heap w)
  | act (renameNode node _ _) => node < length (heap w)
  | act (updateContent node _) => node < length (heap w)
  | act (resolve _) => True
  | click index => valid_index w index
  | _ => True
  end.

(** Fuel that is enough for every loop and every depth of calls in a
    store of [h] nodes, and in a store of one more. *)
Definition enough (h : nat) : nat := 2 * h + 4.

(** The states that the window reaches: from the start, by events on
    nodes of the store, each handled with enough fuel. *)
Inductive reachable : world -> Prop :=
| reach_init t0 t0' t1 t1' : reachable (init t0 t0' t1 t1')
| reach_step fuel e w :
    reachable w -> valid_event e w -> enough (length (heap w)) <= fuel ->
    reachable (snd (handle fuel e w)).

End Win.

(** ** simplefilesystem.py *)
Module Simple.
Export Tree.

Record FileNode : Type := mkFileNode {
  filename : string;
  isdir : bool;
  i_nlink : Z;
  adr : Z;
  parent : option ref;
  child : option ref;
  sibling_prev : option ref;
  sibling_next : option ref;
  content : string
}.

(** [FileNode.__init__(filename, isdir, parent)] *)
Definition new_FileNode (filename : string) (isdir : bool)
    (parent : option ref) : FileNode :=
  {| filename := filename; isdir := isdir; i_nlink := 1; adr := 0;
     parent := parent; child := None; sibling_prev := None;
     sibling_next := None; content := "" |}.

Definition set_child (v : option ref) (n : FileNode) : FileNode :=
  mkFileNode (filename n) (isdir n) (i_nlink n) (adr n) (parent n) v
             (sibling_prev n) (sibling_next n) (content n).
Definition set_sibling_prev (v : option ref) (n : FileNode) : FileNode :=
  mkFileNode (filename n) (isdir n) (i_nlink n) (adr n) (parent n) (child n)
             v (sibling_next n) (content n).
Definition set_sibling_next (v : option ref) (n : FileNode) : FileNode :=
  mkFileNode (filename n) (isdir n) (i_nlink n) (adr n) (parent n) (child n)
             (sibling_prev n) v (content n).
Definition set_content (v : string) (n : FileNode) : FileNode :=
  mkFileNode (filename n) (isdir n) (i_nlink n) (adr n) (parent n) (child n)
             (sibling_prev n) (sibling_next n) v.

(** The [Filesystem] window with the store of its nodes. *)
Record world : Type := mkWorld {
  heap : list FileNode;
  root : ref;
  current_node : ref
}.

Definition with_heap (h : list FileNode) (w : world) : world :=
  mkWorld h (root w) (current_node w).
Definition with_current_node (c : ref) (w : world) : world :=
  mkWorld (heap w) (root w) c.

Definition get (w : world) (r : ref) : res FileNode :=
  match heap w !! r with
  | Some nd => Ok nd
  | None => Stuck
  end.

Definition getM (r : ref) : M world FileNode := reads (fun w => get w r).

Definition setattr (r : ref) (f : FileNode -> FileNode) : M world unit :=
  fun w => match heap w !! r with
           | Some nd => (Ok tt, with_heap (<[r := f nd]> (heap w)) w)
           | None => (Stuck, w)
           end.

Definition alloc (nd : FileNode) : M world ref :=
  fun w => (Ok (length (heap w)), with_heap (heap w ++ [nd]) w).

Definition is_ref (o : option ref) (r : ref) : bool :=
  match o with
  | Some x => Nat.eqb x r
  | None => false
  end.

(** What a handler shows to the user with [QMessageBox.warning]. *)
Inductive warning : Type :=
| directory_not_found      (* "Directory not found" *)
| directory_already_exists (* "Directory already exists" *)
| file_already_exists      (* "File already exists" *)
| parent_not_directory.    (* "Parent is not a directory or not found" *)

(** [Filesystem.__init__]; the tree widget calls ([updateTree]) touch no
    node and are left out of the handlers below. *)
Definition init : world := mkWorld [new_FileNode "/" true None] 0 0.

(** The [while sibling] loop shared by [getNodeFromItem] and [findNode]:
    [Some s] when it leaves through [break] with [node = s], [None] when
    it runs to its end. *)
Fixpoint findNode_while (fuel : nat) (w : world) (sibling : option ref)
    (name : string) : res (option ref) :=
  match sibling with
  | None => Ok None
  | Some s =>
      match fuel with
      | 0 => Stuck
      | S fuel =>
          let? sd := get w s in
          if String.eqb (filename sd) name then Ok (Some s)
          else findNode_while fuel w (sibling_next sd) name
      end
  end.

(** The first test of the loop body of [findNode] and [getNodeFromItem]:
    [node.child and node.child.filename == name]. *)
Definition first_child_named (w : world) (nd : FileNode) (name : string)
    : res (option ref) :=
  match child nd with
  | None => Ok None
  | Some c =>
      let? cd := get w c in
      Ok (if String.eqb (filename cd) name then Some c else None)
  end.

(** [findNode]: the [for name in names] loop; [None] is Python's [None]. *)
Fixpoint findNode_for (fuel : nat) (w : world) (node : ref)
    (names : list string) : res (option ref) :=
  match names with
  | [] => Ok (Some node)
  | name :: names =>
      if String.eqb name "" then findNode_for fuel w node names
      else
        let? nd := get w node in
        let? first := first_child_named w nd name in
        match first with
        | Some c => findNode_for fuel w c names
        | None =>
            let? found := findNode_while fuel w (child nd) name in
            match found with
            | Some s => findNode_for fuel w s names
            | None => Ok None
            end
        end
  end.

Definition findNode (fuel : nat) (w : world) (path : string)
    : res (option ref) :=
  findNode_for fuel w (root w) (split "/" path).

(** [getNodeFromItem]; an item is given by the texts on the way from the
    top item down to it.  A name that is not found leaves [node] where it
    is. *)
Fixpoint getNodeFromItem_for (fuel : nat) (w : world) (node : ref)
    (names : list string) : res ref :=
  match names with
  | [] => Ok node
  | name :: names =>
      let? nd := get w node in
      let? first := first_child_named w nd name in
      match first with
      | Some c => getNodeFromItem_for fuel w c names
      | None =>
          let? found := findNode_while fuel w (child nd) name in
          match found with
          | Some s => getNodeFromItem_for fuel w s names
          | None => getNodeFromItem_for fuel w node names
          end
      end
  end.

Definition getNodeFromItem (fuel : nat) (w : world) (item : list string)
    : res ref :=
  getNodeFromItem_for fuel w (root w) (List.tl item).

(** [onSelectionChanged] with the selected item, if any. *)
Definition onSelectionChanged (fuel : nat) (selected : option (list string))
    : M world unit :=
  match selected with
  | None => ret tt
  | Some item =>
      let! node := reads (fun w => getNodeFromItem fuel w item) in
      fun w => (Ok tt, with_current_node node w)
  end.

(** [onPathEntered] with the text of the line edit. *)
Definition onPathEntered (fuel : nat) (path : string)
    : M world (option warning) :=
  let! node := reads (fun w => findNode fuel w path) in
  match node with
  | Some n => fun w => (Ok None, with_current_node n w)
  | None => ret (Some directory_not_found)
  end.

Definition addChildNode (parent_node new_node : ref) : M world unit :=
  let! pd := getM parent_node in
  exec match child pd with
       | Some c =>
           exec setattr new_node (set_sibling_next (Some c)) in
           let! pd := getM parent_node in
           match child pd with
           | Some c => setattr c (set_sibling_prev (Some new_node))
           | None => raise AttributeError
           end
       | None => ret tt
       end in
  setattr parent_node (set_child (Some new_node)).

(** The two statements [new_node = FileNode(name, isdir, parent_node)] and
    [self.addChildNode(parent_node, new_node)] of [onCreateDir] and
    [onCreateFile]. *)
Definition create_under (name : string) (isdir : bool) (parent_node : ref)
    : M world ref :=
  let! new_node := alloc (new_FileNode name isdir (Some parent_node)) in
  exec addChildNode parent_node new_node in
  ret new_node.

(** The common body of [onCreateDir] and [onCreateFile], which differ in
    the kind of the new node and in the text of one warning. *)
Definition onCreate (fuel : nat) (isdir : bool) (path : string)
    : M world (option warning) :=
  let names := split "/" path in
  let! w := reads (fun w => Ok w) in
  let! target :=
    (if Nat.ltb 1 (length names)
     then
       let! parent_node :=
         reads (fun w => findNode fuel w (join "/" (removelast names))) in
       ret (List.last names "", parent_node)
     else ret (path, Some (current_node w))) in
  let '(new_name, parent_node) := target in
  match parent_node with
  | None => ret (Some parent_not_directory)
  | Some p =>
      let! pd := getM p in
      if negb (Simple.isdir pd) then ret (Some parent_not_directory)
      else
        let! existing := reads (fun w => findNode fuel w path) in
        match existing with
        | None =>
            exec create_under new_name isdir p in
            ret None
        | Some _ =>
            ret (Some (if isdir then directory_already_exists
                       else file_already_exists))
        end
  end.

Definition onCreateDir (fuel : nat) (path : string)
    : M world (option warning) := onCreate fuel true path.

Definition onCreateFile (fuel : nat) (path : string)
    : M world (option warning) := onCreate fuel false path.

(** [deleteNode]: the [while sibling and sibling.sibling_next != node]
    loop; the result is the final [sibling]. *)
Fixpoint deleteNode_while (fuel : nat) (w : world) (node : ref)
    (sibling : option ref) : res (option ref) :=
  match sibling with
  | None => Ok None
  | Some s =>
      let? sd := get w s in
      if is_ref (sibling_next sd) node then Ok (Some s)
      else match fuel with
           | 0 => Stuck
           | S fuel => deleteNode_while fuel w node (sibling_next sd)
           end
  end.

(** The first half of [deleteNode]: [if node.parent: ...]. *)
Definition deleteNode_unlink (fuel : nat) (node : ref) : M world unit :=
  let! nd := getM node in
  match parent nd with
  | None => ret tt
  | Some p =>
      let! pd := getM p in
      if is_ref (child pd) node then
        exec setattr p (set_child (sibling_next nd)) in
        let! nd := getM node in
        match sibling_next nd with
        | Some nx => setattr nx (set_sibling_prev None)
        | None => ret tt
        end
      else
        let! sibling :=
          reads (fun w => deleteNode_while fuel w node (child pd)) in
        match sibling with
        | None => ret tt
        | Some s =>
            exec setattr s (set_sibling_next (sibling_next nd)) in
            let! nd := getM node in
            match sibling_next nd with
            | Some nx => setattr nx (set_sibling_prev (Some s))
            | None => ret tt
            end
        end
  end.

(** [deleteNode] and its [while sibling] loop over the children; [n]
    bounds the depth of the calls and the length of the loop, [fuel] the
    search for the predecessor.  [del node] unbinds a local name only. *)
Fixpoint deleteNode_rec (fuel n : nat) (node : ref) {struct n}
    : M world unit :=
  match n with
  | 0 => stuck
  | S n =>
      exec deleteNode_unlink fuel node in
      let! nd := getM node in
      deleteNode_loop fuel n (child nd)
  end
with deleteNode_loop (fuel n : nat) (sibling : option ref) {struct n}
    : M world unit :=
  match sibling with
  | None => ret tt
  | Some s =>
      match n with
      | 0 => stuck
      | S n =>
          let! sd := getM s in
          let next_sibling := sibling_next sd in
          exec deleteNode_rec fuel n s in
          deleteNode_loop fuel n next_sibling
      end
  end.

Definition deleteNode (fuel : nat) (node : ref) : M world unit :=
  deleteNode_rec fuel fuel node.

(** [onDelete] with the selected item and the answer to the confirmation
    box, asked only for a directory. *)
Definition onDelete (fuel : nat) (selected : option (list string))
    (reply_yes : bool) : M world unit :=
  match selected with
  | None => ret tt
  | Some item =>
      let! node := reads (fun w => getNodeFromItem fuel w item) in
      let! nd := getM node in
      if isdir nd then
        if reply_yes then deleteNode fuel node else ret tt
      else deleteNode fuel node
  end.

(** [saveFile] with the text of the editor. *)
Definition saveFile (node : ref) (text : string) : M world unit :=
  setattr node (set_content text).

(** [onEdit] with the selected item; [edit] is the text saved in the
    dialog of [editFile], if the user saves. *)
Definition onEdit (fuel : nat) (selected : option (list string))
    (edit : option string) : M world unit :=
  match selected with
  | None => ret tt
  | Some item =>
      let! node := reads (fun w => getNodeFromItem fuel w item) in
      let! nd := getM node in
      if isdir nd then ret tt
      else match edit with
           | Some text => saveFile node text
           | None => ret tt
           end
  end.

Definition after {A : Type} (m : M world A) (w : world) : world := snd (m w).

(** *** Running examples

    / with the directory a (object 1) holding the file x (object 2), and
    a selected in the tree widget. *)
Definition with_a_x : world :=
  after (onSelectionChanged 8 (Some ["/"; "a"]))
    (after (onCreateFile 8 "/a/x")
       (after (onCreateDir 8 "a") init)).

(** / with the directories a and then b made under it (objects 1 and 2). *)
Definition with_a_b : world :=
  after (onCreateDir 8 "b") (after (onCreateDir 8 "a") init).

(** [with_a_x] with the directory b (object 3) made under / after a. *)
Definition with_a_x_b : world := after (onCreateDir 8 "/b") with_a_x.

(** *** Reading the tree *)
Definition next_of (w : world) (c : ref) : option (option ref) :=
  sibling_next <$> heap w !! c.

Definition listChildren (fuel : nat) (w : world) (node : ref)
    : res (list ref) :=
  let? nd := get w node in
  Chain.walk (next_of w) fuel (child nd).

Definition filename_at (w : world) (c : ref) : string :=
  match heap w !! c with
  | Some cd => filename cd
  | None => ""
  end.

(** *** The operations of the tree engine as calls of the handlers *)
Inductive operation : Type :=
| op_create (isdir : bool) (path : string)
| op_delete (selected : option (list string)) (reply_yes : bool)
| op_edit (selected : option (list string)) (edit : option string)
| op_path (path : string).

Definition perform (fuel : nat) (o : operation) : M world (option warning) :=
  match o with
  | op_create isdir path =>
      if isdir then onCreateDir fuel path else onCreateFile fuel path
  | op_delete selected reply_yes =>
      exec onDelete fuel selected reply_yes in ret None
  | op_edit selected edit =>
      exec onEdit fuel selected edit in ret None
  | op_path path => onPathEntered fuel path
  end.

(** *** The tree below a node

    [below w par first t]: in the store of [w] the chain that starts at
    [first] holds children of [par] and they, with all below them, are
    linked as [t] says. *)
Fixpoint below (w : world) (par : ref) (first : option ref) (t : links)
    : Prop :=
  match t with
  | Leaf => first = None
  | Br r kids sibs =>
      first = Some r
      /\ exists nd, heap w !! r = Some nd /\ parent nd = Some par
                    /\ below w r (child nd) kids
                    /\ below w par (sibling_next nd) sibs
  end.

(** The links of the node [c]: parent, child and next sibling. *)
Definition links_at (w : world) (c : ref)
    : option (option ref * option ref * option ref) :=
  (fun nd => (parent nd, child nd, sibling_next nd)) <$> heap w !! c.

(** *** The tree widget

    An item of the tree widget: the texts of its two columns and the items
    below it. *)
#[warnings="-register-all"]
Inductive item : Type :=
| Item (text0 text1 : string) (children : list item).

Definition text0_of (i : item) : string := let 'Item t _ _ := i in t.

(** [addTreeItems(node, parent_item)]: the items that the call appends to
    [parent_item], in order; [n] bounds the depth of the calls and the
    turns of the loops. *)
Fixpoint addTreeItems (n : nat) (w : world) (node : ref) {struct n}
    : res (list item) :=
  match n with
  | 0 => Stuck
  | S n =>
      let? nd := get w node in
      let? below_item :=
        match child nd with
        | Some c => addTreeItems n w c
        | None => Ok []
        end in
      let? later := addTreeItems_while n w (sibling_next nd) in
      Ok (Item (filename nd) (if isdir nd then "Directory" else "File")
               below_item :: later)
  end
with addTreeItems_while (n : nat) (w : world) (sibling : option ref)
    {struct n} : res (list item) :=
  match sibling with
  | None => Ok []
  | Some s =>
      match n with
      | 0 => Stuck
      | S n =>
          let? here := addTreeItems n w s in
          let? sd := get w s in
          let? later := addTreeItems_while n w (sibling_next sd) in
          Ok (here ++ later)%list
      end
  end.

(** [updateTree(node)]: the top-level items of the cleared widget. *)
Definition updateTree (fuel : nat) (w : world) (node : option ref)
    : res (list item) :=
  addTreeItems fuel w (match node with Some n => n | None => root w end).

(** Every element followed by what follows it, twice. *)
Fixpoint echo {A : Type} (l : list A) : list A :=
  match l with
  | [] => []
  | x :: l => x :: (echo l ++ echo l)%list
  end.

(** The first element once, the others echoed. *)
Definition heard {A : Type} (l : list A) : list A :=
  match l with
  | [] => []
  | x :: l => x :: echo l
  end.

(** One item for each node of the chain of [t], in the order of the
    chain, with the items that the widget gets below it. *)
Fixpoint items (w : world) (t : links) : list item :=
  match t with
  | Leaf => []
  | Br r kids sibs =>
      match heap w !! r with
      | Some nd =>
          Item (filename nd) (if isdir nd then "Directory" else "File")
               (heard (items w kids)) :: items w sibs
      | None => []
      end
  end.

(** / with the directories a, b and c made under it (objects 1, 2, 3). *)
Definition with_a_b_c : world := after (onCreateDir 8 "c") with_a_b.

(** *** Names of children *)

(** The first of the nodes [l] whose filename is [name]. *)
Definition child_named (w : world) (l : list ref) (name : string)
    : option ref :=
  List.find (fun c => String.eqb (filename_at w c) name) l.


(** *** Links in order *)

(** The parent link of the node [x]. *)
Definition parent_at (w : world) (x : ref) : option (option ref) :=
  parent <$> heap w !! x.

(** The links of the store are in order: the root has no parent, the
    selected node is a node, every node was made after its parent, the
    child of a node has the node as parent, and the next sibling of a node
    was made before the node and has the same parent. *)
Definition sound (w : world) : Prop :=
  parent_at w (root w) = Some None
  /\ current_node w < length (heap w)
  /\ forall x nd, heap w !! x = Some nd ->
       (forall p, parent nd = Some p -> p < x)
       /\ (forall c, child nd = Some c -> parent_at w c = Some (Some x))
       /\ (forall n, sibling_next nd = Some n ->
             n < x /\ parent_at w n = Some (parent nd)).

(** What the user does: a click on an item of the tree widget, or one of
    the operations. *)
Inductive event : Type :=
| select (selected : option (list string))
| act (o : operation).

Definition handle (fuel : nat) (e : event) : M world (option warning) :=
  match e with
  | select selected => exec onSelectionChanged fuel selected in ret None
  | act o => perform fuel o
  end.

Fixpoint run (fuel : nat) (es : list event) (w : world) : world :=
  match es with
  | [] => w
  | e :: es => run fuel es (snd (handle fuel e w))
  end.

(** Fuel that is enough for every loop and every depth of calls in a
    store of [h] nodes, and in a store of one more. *)
Definition enough (h : nat) : nat := 2 * (h + 1) * (h + 3).

(** The store of [w] has the nodes of [w0] with the parents they have in
    [w0]. *)
Definition same_parents (w0 w : world) : Prop :=
  length (heap w) = length (heap w0)
  /\ forall x, parent_at w x = parent_at w0 x.

(** The rank of a parent link: nodes without parent come first. *)
Definition rank (q : option ref) : nat :=
  match q with
  | Some p => S p
  | None => 0
  end.

End Simple.

(** * Properties *)
Local Close Scope string_scope.

(** ** Runs of the handlers on the examples *)
Module Runs.
Import Win Win.FileManager.

(** C1 (code bug).  [delete_item] is meant to destroy the subtree of the
    node in post-order and then splice the node out, but the model index it
    works with is wrong in two ways.  For a child of the root (docs, with
    a.txt below it) computing the index of the parent raises
    AttributeError: an error box is shown, nothing is deleted, and
    /docs/a.txt still resolves.  For a node that is not the first child of
    its parent (c, second child of ROOT, with d below it) the node is
    spliced out, but its child d was never removed from it: c still has d
    as its child and d still has c as its parent. *)
Theorem delete_item_leaves_subtree :
  delete_item 8 2 true with_docs
    = (Ok (Some (critical_exn AttributeError)), with_docs)
  /\ resolve_path 8 with_docs "/docs/a.txt" = Ok 3
  /\ fst (delete_item 8 4 true with_abcd) = Ok None
  /\ resolve_path 8 (after (delete_item 8 4 true) with_abcd) "/ROOT/c"
       = Raise (FileNotFoundError "/ROOT/c")
  /\ child <$> heap (after (delete_item 8 4 true) with_abcd) !! 4
       = Some (Some 5)
  /\ parent <$> heap (after (delete_item 8 4 true) with_abcd) !! 5
       = Some (Some 4).
Proof. repeat split; vm_compute; reflexivity. Qed.

(** C2 (code bug).  [delete_item] scrubs only the deleted node from the
    two stacks and resets [current] only when it is that very node.  After
    deleting a (whose child b is destroyed with it), [future] still holds
    b; and when [current] was b it stays b. *)
Theorem delete_item_keeps_descendants_in_stacks :
  fst (delete_item 8 2 true walked_back) = Ok None
  /\ parent <$> heap (after (delete_item 8 2 true) walked_back) !! 3
       = Some None
  /\ future (after (delete_item 8 2 true) walked_back) = [3]
  /\ fst (delete_item 8 2 true walked_in) = Ok None
  /\ current walked_in = 3
  /\ current (after (delete_item 8 2 true) walked_in) = 3.
Proof. repeat split; vm_compute; reflexivity. Qed.

(** C9 (code bug).  [navigateUp] pushes [current] and moves to the parent
    but, unlike [navigateTree] and [navigateAddress], does not clear
    [future]: from a with [future = [b]] it leaves [future = [b]], where
    [navigateTo(current.parent)] leaves it empty. *)
Theorem navigateUp_keeps_future :
  future walked_back = [3]
  /\ fst (navigateUp walked_back) = Ok tt
  /\ current (after navigateUp walked_back) = 1
  /\ history (after navigateUp walked_back) = [0; 1; 2]
  /\ future (after navigateUp walked_back) = [3]
  /\ (future <$> up_spec walked_back) = Some []
  /\ up_spec walked_back <> Some (after navigateUp walked_back).
Proof. repeat split; try (vm_compute; reflexivity). vm_compute. discriminate. Qed.

(** C4 (code bug).  In the button variant [onCreateFile] looks a bare name
    up from the root but creates it under [current_node]: with a selected
    and a file x already in it, creating "x" again shows no warning and
    gives a two children named x. *)
Theorem onCreateFile_duplicates_name :
  Simple.current_node Simple.with_a_x = 1
  /\ Simple.filename <$> Simple.heap Simple.with_a_x !! 2 = Some "x"
  /\ Simple.parent <$> Simple.heap Simple.with_a_x !! 2 = Some (Some 1)
  /\ fst (Simple.onCreateFile 8 "x" Simple.with_a_x) = Ok None
  /\ Simple.heap (Simple.after (Simple.onCreateFile 8 "x") Simple.with_a_x)
       !! 1
     = Some (Simple.mkFileNode "a" true 1 0 (Some 0) (Some 3) None None "")
  /\ Simple.heap (Simple.after (Simple.onCreateFile 8 "x") Simple.with_a_x)
       !! 3
     = Some (Simple.mkFileNode "x" false 1 0 (Some 1) None None (Some 2) "")
  /\ Simple.heap (Simple.after (Simple.onCreateFile 8 "x") Simple.with_a_x)
       !! 2
     = Some (Simple.mkFileNode "x" false 1 0 (Some 1) None (Some 3) None "").
Proof. repeat split; vm_compute; reflexivity. Qed.

End Runs.

(** ** The monad of the handlers *)
Module PyFacts.

Lemma bind_Ok {S A B} (m : M S A) (k : A -> M S B) w a w' :
  m w = (Ok a, w') -> bind m k w = k a w'.
Proof. unfold bind. by intros ->. Qed.

Lemma bind_Raise {S A B} (m : M S A) (k : A -> M S B) w e w' :
  m w = (Raise e, w') -> bind m k w = (Raise e, w').
Proof. unfold bind. by intros ->. Qed.

Lemma bind_ret {S A B} (a : A) (k : A -> M S B) w : bind (ret a) k w = k a w.
Proof. done. Qed.

Lemma bind_assoc {S A B C} (m : M S A) (k1 : A -> M S B) (k2 : B -> M S C) w :
  bind (bind m k1) k2 w = bind m (fun a => bind (k1 a) k2) w.
Proof. unfold bind. destruct (m w) as [[a|e|] w']; done. Qed.

Lemma bind_reads_Ok {S A B} (f : S -> res A) (k : A -> M S B) w a :
  f w = Ok a -> bind (reads f) k w = k a w.
Proof. unfold bind, reads. by intros ->. Qed.



Lemma quiet_rbind {A B} (m : res A) (k : A -> res B) :
  quiet m -> (forall a, m = Ok a -> quiet (k a)) -> quiet (rbind m k).
Proof. destruct m; simpl; auto. Qed.








(** A handler that reads and then goes on fails cleanly if what follows
    does. *)
Lemma fails_clean_bind_reads {S A D} (f : S -> res A)
    (k : A -> M S (option D)) w :
  (forall a, f w = Ok a -> fails_clean (k a) w) ->
  fails_clean (bind (reads f) k) w.
Proof.
  unfold fails_clean, bind, reads. intros Hk r w'.
  destruct (f w) as [a|e|]; [by apply Hk|by intros [= _ <-]|by intros [= _ <-]].
Qed.







End PyFacts.

(** ** Sibling chains *)
Module ChainFacts.
Import Chain.

Section facts.
Variable next : ref -> option (option ref).

Lemma walk_chain fuel f l : walk next fuel f = Ok l -> chain next f l.
Proof.
  revert f l. induction fuel as [|fuel IH]; intros [c|] l H; simpl in H;
    try discriminate; try (injection H as <-; constructor).
  destruct (next c) as [n|] eqn:Hn; [|discriminate].
  destruct (walk next fuel n) as [l'| |] eqn:Hw; simpl in H; try discriminate.
  injection H as <-. econstructor; eauto.
Qed.

Lemma walk_length fuel f l : walk next fuel f = Ok l -> length l <= fuel.
Proof.
  revert f l. induction fuel as [|fuel IH]; intros [c|] l H; simpl in H;
    try discriminate; try (injection H as <-; simpl; lia).
  destruct (next c) as [n|]; [|discriminate].
  destruct (walk next fuel n) as [l'| |] eqn:Hw; simpl in H; try discriminate.
  injection H as <-. simpl. apply IH in Hw. lia.
Qed.

Lemma chain_walk f l fuel :
  chain next f l -> length l <= fuel -> walk next fuel f = Ok l.
Proof.
  intros H. revert fuel. induction H as [|c n l Hn _ IH]; intros fuel Hf.
  - destruct fuel; reflexivity.
  - destruct fuel as [|fuel]; simpl in *; [lia|].
    rewrite Hn, IH by lia. reflexivity.
Qed.

Lemma walk_iff fuel f l :
  walk next fuel f = Ok l <-> chain next f l /\ length l <= fuel.
Proof.
  split.
  - eauto using walk_chain, walk_length.
  - intros [? ?]. eauto using chain_walk.
Qed.

Lemma walk_more fuel fuel' f l :
  walk next fuel f = Ok l -> fuel <= fuel' -> walk next fuel' f = Ok l.
Proof.
  intros H Hle. apply walk_iff in H as [? ?]. apply chain_walk; [done|lia].
Qed.

Lemma chain_fun f l1 l2 : chain next f l1 -> chain next f l2 -> l1 = l2.
Proof.
  intros H. revert l2. induction H as [|c n l Hn _ IH]; intros l2 H2;
    inversion H2; subst; [done|].
  f_equal. apply IH. congruence.
Qed.

Lemma chain_elem f l c : chain next f l -> c ∈ l -> is_Some (next c).
Proof.
  induction 1 as [|c' n l Hn _ IH]; intros Hin.
  - by apply elem_of_nil in Hin.
  - apply elem_of_cons in Hin as [->|Hin]; eauto.
Qed.

Lemma chain_last f l z : chain next f l -> last l = Some z -> next z = Some None.
Proof.
  induction 1 as [|c n l Hn Hc IH]; intros Hl; [discriminate|].
  destruct Hc as [|c2 n2 l2 Hn2 Hc2].
  - simpl in Hl. congruence.
  - rewrite last_cons_cons in Hl. by apply IH.
Qed.

(** From an element of the chain the rest of the chain is the chain of its
    successor. *)
Lemma chain_split f l1 c l2 :
  chain next f (l1 ++ c :: l2) ->
  exists n, next c = Some n /\ chain next n l2.
Proof.
  revert f. induction l1 as [|x l1 IH]; intros f H; simpl in H;
    inversion H; subst; eauto.
Qed.

End facts.

Lemma chain_ext next next' f l :
  chain next f l -> (forall c, c ∈ l -> next' c = next c) -> chain next' f l.
Proof.
  induction 1 as [|c n l Hn _ IH]; intros Hext; [constructor|].
  econstructor.
  - rewrite Hext; [done|]. apply elem_of_cons; auto.
  - apply IH. intros c' Hc'. apply Hext, elem_of_cons; auto.
Qed.

(** Linking a new object after the last one of a chain. *)
Lemma chain_snoc next next' f l z new :
  chain next f l -> last l = Some z ->
  next' z = Some (Some new) -> next' new = Some None ->
  (forall c, c ∈ l -> c <> z -> next' c = next c) ->
  chain next' f (l ++ [new]).
Proof.
  intros H Hl Hz Hnew. induction H as [|c n l Hn Hc IH]; intros Hext;
    [discriminate|].
  destruct Hc as [|c2 n2 l2 Hn2 Hc2].
  - simpl in Hl. injection Hl as ->. simpl.
    econstructor; [done|]. econstructor; [done|]. constructor.
  - rewrite last_cons_cons in Hl.
    assert (Hzn : next z = Some None).
    { eapply chain_last; [|done]. econstructor; eauto. }
    assert (c <> z) by congruence.
    simpl. econstructor.
    + rewrite Hext; [done| |done]. apply elem_of_cons; auto.
    + apply IH; [done|]. intros c' Hc' ?. apply Hext; [|done].
      apply elem_of_cons; auto.
Qed.

(** Taking an element that has a predecessor out of a chain. *)
Lemma chain_remove next next' f l1 z c l2 :
  chain next f (l1 ++ z :: c :: l2) -> NoDup (l1 ++ z :: c :: l2) ->
  next' z = next c ->
  (forall x, x ∈ l1 ++ l2 -> next' x = next x) ->
  chain next' f (l1 ++ z :: l2).
Proof.
  revert f. induction l1 as [|x l1 IH]; intros f Hc Hnd Hz Hext; simpl in *.
  - inversion Hc as [|? n ? Hn Hc']; subst.
    inversion Hc' as [|? n' ? Hn' Hc'']; subst.
    apply NoDup_cons in Hnd as [Hz1 Hnd].
    apply NoDup_cons in Hnd as [Hc1 Hnd].
    econstructor; [by rewrite Hz|].
    eapply chain_ext; [done|]. intros y Hy. by apply Hext.
  - inversion Hc as [|? n ? Hn Hc']; subst.
    apply NoDup_cons in Hnd as [Hx Hnd].
    econstructor.
    + rewrite Hext; [done|]. by left.
    + apply IH; [done..|]. intros y Hy. apply Hext. by right.
Qed.

End ChainFacts.

(** ** winfilesystem.py: the store and the loops over sibling chains *)
Module WinFacts.
Import Chain ChainFacts PyFacts Win Win.FileManager.

Lemma get_Ok w r nd : heap w !! r = Some nd -> get w r = Ok nd.
Proof. unfold get. by intros ->. Qed.

Lemma get_inv w r nd : get w r = Ok nd -> heap w !! r = Some nd.
Proof. unfold get. destruct (heap w !! r); intros; simplify_eq; done. Qed.

Lemma get_not_Raise w r e : get w r <> Raise e.
Proof. unfold get. by destruct (heap w !! r). Qed.

Lemma setattr_Ok w r f nd :
  heap w !! r = Some nd ->
  setattr r f w = (Ok tt, with_heap (<[r := f nd]> (heap w)) w).
Proof. unfold setattr. by intros ->. Qed.

Lemma bind_getM {B} r (k : FileNode -> M world B) w nd :
  heap w !! r = Some nd -> bind (getM r) k w = k nd w.
Proof. intros H. apply bind_reads_Ok. by apply get_Ok. Qed.

Lemma bind_setattr {B} r f (k : unit -> M world B) w nd :
  heap w !! r = Some nd ->
  bind (setattr r f) k w = k tt (with_heap (<[r := f nd]> (heap w)) w).
Proof. intros H. by apply bind_Ok, setattr_Ok. Qed.

Lemma bind_alloc {B} nd (k : ref -> M world B) w :
  bind (alloc nd) k w = k (length (heap w)) (with_heap (heap w ++ [nd]) w).
Proof. done. Qed.

Lemma next_of_Some w c n :
  next_of w c = Some n <->
  exists cd, heap w !! c = Some cd /\ sibling_next cd = n.
Proof.
  unfold next_of. destruct (heap w !! c) as [cd|]; simpl; split.
  - intros [= <-]. eauto.
  - intros (? & [= <-] & <-). done.
  - done.
  - intros (? & ? & _). done.
Qed.

Lemma chain_head w c l :
  chain (next_of w) (Some c) l ->
  exists cd l', l = c :: l' /\ heap w !! c = Some cd
                /\ chain (next_of w) (sibling_next cd) l'.
Proof.
  inversion 1 as [|? n l' Hn Hc]; subst.
  apply next_of_Some in Hn as (cd & ? & <-). eauto.
Qed.

Lemma chain_None w l : chain (next_of w) None l -> l = [].
Proof. by inversion 1. Qed.

Lemma listChildren_inv fuel w p l :
  listChildren fuel w p = Ok l ->
  exists pd, heap w !! p = Some pd /\ chain (next_of w) (child pd) l
             /\ length l <= fuel.
Proof.
  unfold listChildren, get. destruct (heap w !! p) as [pd|]; [|done].
  simpl. intros [? ?]%walk_iff. eauto.
Qed.

Lemma listChildren_intro fuel w p pd l :
  heap w !! p = Some pd -> chain (next_of w) (child pd) l ->
  length l <= fuel -> listChildren fuel w p = Ok l.
Proof.
  intros Hp Hc Hl. unfold listChildren. rewrite (get_Ok _ _ _ Hp). simpl.
  by apply chain_walk.
Qed.

(** *** The loops, on a chain *)

Lemma _create_node_loop_eq fuel w last :
  _create_node_loop fuel w last =
  let? ld := get w last in
  match sibling_next ld with
  | None => Ok last
  | Some n => match fuel with
              | 0 => Stuck
              | S fuel => _create_node_loop fuel w n
              end
  end.
Proof. by destruct fuel. Qed.

Lemma _create_node_loop_last fuel w c l z :
  chain (next_of w) (Some c) l -> last l = Some z -> length l <= S fuel ->
  _create_node_loop fuel w c = Ok z.
Proof.
  revert c l. induction fuel as [|fuel IH]; intros c l Hc Hl Hlen;
    apply chain_head in Hc as (cd & l' & -> & Hcd & Hc);
    rewrite _create_node_loop_eq, (get_Ok _ _ _ Hcd); simpl;
    destruct (sibling_next cd) as [c2|].
  - apply chain_head in Hc as (? & ? & -> & _). simpl in Hlen. lia.
  - apply chain_None in Hc as ->. simpl in Hl. congruence.
  - pose proof Hc as (? & l2 & -> & _)%chain_head.
    rewrite last_cons_cons in Hl. eapply IH; eauto. simpl in *. lia.
  - apply chain_None in Hc as ->. simpl in Hl. congruence.
Qed.

Lemma rowCount_loop_chain fuel w f l k :
  chain (next_of w) f l -> length l <= fuel ->
  FileSystemModel.rowCount_loop fuel w f k = Ok (k + length l).
Proof.
  intros H. revert fuel k. induction H as [|c n l Hn _ IH]; intros fuel k Hl.
  - destruct fuel; simpl; f_equal; lia.
  - destruct fuel as [|fuel]; simpl in *; [lia|].
    apply next_of_Some in Hn as (cd & Hcd & <-).
    rewrite (get_Ok _ _ _ Hcd). simpl. rewrite IH by lia. f_equal. lia.
Qed.

Lemma index_loop_None w row : FileSystemModel.index_loop w row None = Ok None.
Proof. induction row; simpl; auto. Qed.

Lemma index_loop_chain w f l row :
  chain (next_of w) f l -> FileSystemModel.index_loop w row f = Ok (l !! row).
Proof.
  intros H. revert row. induction H as [|c n l Hn _ IH]; intros row.
  - rewrite index_loop_None. by destruct row.
  - destruct row as [|row]; simpl; [done|].
    apply next_of_Some in Hn as (cd & Hcd & <-).
    rewrite (get_Ok _ _ _ Hcd). simpl. apply IH.
Qed.

(** [rowCount] and [index] read the children of a node from the head of
    its chain. *)
Lemma rowCount_listChildren fuel w p l r c :
  listChildren fuel w p = Ok l ->
  FileSystemModel.rowCount fuel w (createIndex r c (Some p))
    = Ok (if Nat.ltb 0 c then 0 else length l).
Proof.
  intros (pd & Hp & Hc & Hl)%listChildren_inv.
  unfold FileSystemModel.rowCount. simpl.
  destruct c as [|c]; simpl; [|done].
  rewrite (get_Ok _ _ _ Hp). simpl.
  by rewrite (rowCount_loop_chain _ _ _ _ _ Hc).
Qed.

Lemma index_listChildren fuel w p l r row :
  listChildren fuel w p = Ok l ->
  FileSystemModel.index fuel w row 0 (createIndex r 0 (Some p))
    = Ok (match l !! row with
          | Some x => createIndex row 0 (Some x)
          | None => InvalidIndex
          end).
Proof.
  intros Hl. unfold FileSystemModel.index, FileSystemModel.hasIndex.
  rewrite (rowCount_listChildren _ _ _ _ _ _ Hl). simpl.
  apply listChildren_inv in Hl as (pd & Hp & Hc & Hl).
  destruct (Nat.ltb row (length l)) eqn:Hrow; simpl.
  - rewrite (get_Ok _ _ _ Hp). simpl.
    rewrite (index_loop_chain _ _ _ _ Hc). simpl. done.
  - apply Nat.ltb_ge in Hrow. by rewrite (lookup_ge_None_2 _ _ Hrow).
Qed.

Lemma chain_grow w w' f l :
  chain (next_of w) f l ->
  (forall c, c < length (heap w) -> next_of w' c = next_of w c) ->
  chain (next_of w') f l.
Proof.
  intros H Hext. eapply chain_ext; [done|]. intros c Hc. apply Hext.
  destruct (chain_elem _ _ _ _ H Hc) as [n Hn].
  apply next_of_Some in Hn as (cd & Hcd & _). by eapply lookup_lt_Some.
Qed.

Lemma _create_node_first fuel w p pd name isdir t1 t2 :
  heap w !! p = Some pd -> child pd = None ->
  _create_node fuel name isdir p t1 t2 w =
    (Ok (length (heap w)),
     with_heap (<[p := set_child (Some (length (heap w))) pd]>
                  (heap w ++ [new_FileNode name isdir (Some p) t1 t2])) w).
Proof.
  intros Hp Hc. unfold _create_node, bind, alloc, getM, reads. simpl.
  rewrite (get_Ok _ p pd) by (simpl; by apply lookup_app_l_Some).
  rewrite Hc. unfold bind.
  erewrite setattr_Ok by (simpl; by apply lookup_app_l_Some). done.
Qed.

Lemma _create_node_next fuel w p pd c l z zd name isdir t1 t2 :
  heap w !! p = Some pd -> child pd = Some c ->
  chain (next_of w) (Some c) l -> last l = Some z -> length l <= S fuel ->
  heap w !! z = Some zd ->
  _create_node fuel name isdir p t1 t2 w =
    (Ok (length (heap w)),
     with_heap
       (<[length (heap w) :=
            set_sibling_prev (Some z)
              (new_FileNode name isdir (Some p) t1 t2)]>
          (<[z := set_sibling_next (Some (length (heap w))) zd]>
             (heap w ++ [new_FileNode name isdir (Some p) t1 t2]))) w).
Proof.
  intros Hp Hc Hch Hl Hlen Hz.
  unfold _create_node, bind, alloc, getM, reads. simpl.
  rewrite (get_Ok _ p pd) by (simpl; by apply lookup_app_l_Some).
  rewrite Hc. unfold bind, reads.
  erewrite _create_node_loop_last; eauto.
  2:{ eapply chain_grow; [done|]. intros x Hx. unfold next_of. simpl.
      by rewrite lookup_app_l. }
  erewrite setattr_Ok by (simpl; by apply lookup_app_l_Some). simpl.
  erewrite setattr_Ok.
  2:{ simpl. rewrite list_lookup_insert_ne.
      - by apply list_lookup_middle.
      - apply lookup_lt_Some in Hz. lia. }
  done.
Qed.

Lemma listChildren_intro' fuel w p f l :
  child <$> heap w !! p = Some f -> chain (next_of w) f l ->
  length l <= fuel -> listChildren fuel w p = Ok l.
Proof.
  destruct (heap w !! p) as [pd|] eqn:Hp; [|done]. intros [= <-].
  by apply listChildren_intro.
Qed.

Lemma _create_node_appends fuel w p l name isdir t1 t2 :
  listChildren fuel w p = Ok l ->
  exists w',
    _create_node fuel name isdir p t1 t2 w = (Ok (length (heap w)), w')
    /\ listChildren (S fuel) w' p = Ok (l ++ [length (heap w)]).
Proof.
  intros (pd & Hp & Hc & Hlen)%listChildren_inv.
  pose proof (lookup_lt_Some _ _ _ Hp) as Hplt.
  set (nd0 := new_FileNode name isdir (Some p) t1 t2).
  destruct (child pd) as [c|] eqn:Hchild.
  - assert (exists z, last l = Some z) as [z Hz].
    { apply chain_head in Hc as (? & l' & -> & _). 
      destruct (last (c :: l')) eqn:E; eauto. by apply last_None in E. }
    assert (Hzin : z ∈ l).
    { apply last_Some in Hz as [l' ->]. apply elem_of_app. right. by left. } 
    destruct (chain_elem _ _ _ _ Hc Hzin) as [n Hn].
    apply next_of_Some in Hn as (zd & Hzd & _).
    pose proof (lookup_lt_Some _ _ _ Hzd) as Hzlt.
    eexists. split.
    { eapply _create_node_next; eauto; lia. }
    assert (Hnew : forall h : list FileNode, length h = S (length (heap w)) ->
              is_Some (h !! length (heap w))).
    { intros h Hh. apply lookup_lt_is_Some. lia. }
    eapply listChildren_intro' with (f := Some c).
    + cbn [heap with_heap]. rewrite list_lookup_insert_ne by lia.
      rewrite list_lookup_insert. case_decide as Hd.
      * destruct Hd as [<- _]. simplify_eq. simpl. by rewrite Hchild.
      * rewrite lookup_app_l by done. by rewrite Hp, <- Hchild.
    + 
      eapply chain_snoc; eauto.
      * unfold next_of. simpl. rewrite list_lookup_insert_ne by lia.
        rewrite list_lookup_insert_eq by (rewrite length_app; simpl; lia).
        done.
      * unfold next_of. simpl.
        rewrite list_lookup_insert_eq
          by (rewrite length_insert, length_app; simpl; lia).
        done.
      * intros x Hx Hxz. unfold next_of. simpl.
        destruct (chain_elem _ _ _ _ Hc Hx) as [n' Hn].
        apply next_of_Some in Hn as (xd & Hxd & _).
        pose proof (lookup_lt_Some _ _ _ Hxd).
        rewrite !list_lookup_insert_ne by lia. by rewrite lookup_app_l.
    + rewrite length_app. simpl. lia.
  - apply chain_None in Hc as ->.
    eexists. split; [by eapply _create_node_first|].
    eapply listChildren_intro.
    + simpl. apply list_lookup_insert_eq. rewrite length_app. simpl. lia.
    + simpl. econstructor; [|constructor].
      unfold next_of. simpl. rewrite list_lookup_insert_ne by lia.
      by rewrite list_lookup_middle.
    + simpl. lia.
Qed.

End WinFacts.

(** ** simplefilesystem.py: the store and sibling chains *)
Module SimpleFacts.
Import Chain ChainFacts PyFacts Simple.

Lemma simple_get_Ok w r nd : heap w !! r = Some nd -> get w r = Ok nd.
Proof. unfold get. by intros ->. Qed.

Lemma simple_setattr_Ok w r f nd :
  heap w !! r = Some nd ->
  setattr r f w = (Ok tt, with_heap (<[r := f nd]> (heap w)) w).
Proof. unfold setattr. by intros ->. Qed.

Lemma simple_bind_getM {B} r (k : FileNode -> M world B) w nd :
  heap w !! r = Some nd -> bind (getM r) k w = k nd w.
Proof. intros H. apply bind_reads_Ok. by apply simple_get_Ok. Qed.

Lemma simple_bind_setattr {B} r f (k : unit -> M world B) w nd :
  heap w !! r = Some nd ->
  bind (setattr r f) k w = k tt (with_heap (<[r := f nd]> (heap w)) w).
Proof. intros H. by apply bind_Ok, simple_setattr_Ok. Qed.

Lemma simple_bind_alloc {B} nd (k : ref -> M world B) w :
  bind (alloc nd) k w = k (length (heap w)) (with_heap (heap w ++ [nd]) w).
Proof. done. Qed.

Lemma simple_next_of_Some w c n :
  next_of w c = Some n <->
  exists cd, heap w !! c = Some cd /\ sibling_next cd = n.
Proof.
  unfold next_of. destruct (heap w !! c) as [cd|]; simpl; split.
  - intros [= <-]. eauto.
  - intros (? & [= <-] & <-). done.
  - done.
  - intros (? & ? & _). done.
Qed.

Lemma simple_listChildren_inv fuel w p l :
  listChildren fuel w p = Ok l ->
  exists pd, heap w !! p = Some pd /\ chain (next_of w) (child pd) l
             /\ length l <= fuel.
Proof.
  unfold listChildren, get. destruct (heap w !! p) as [pd|]; [|done].
  simpl. intros [? ?]%walk_iff. eauto.
Qed.

Lemma simple_listChildren_intro fuel w p f l :
  child <$> heap w !! p = Some f -> chain (next_of w) f l ->
  length l <= fuel -> listChildren fuel w p = Ok l.
Proof.
  unfold listChildren, get.
  destruct (heap w !! p) as [pd|] eqn:Hp; [|done]. intros [= <-] ? ?.
  simpl. by apply chain_walk.
Qed.

(** [create_under] links the new node in front of the children. *)
Lemma create_under_prepends fuel w p l name isdir :
  listChildren fuel w p = Ok l ->
  exists w',
    create_under name isdir p w = (Ok (length (heap w)), w')
    /\ listChildren (S fuel) w' p = Ok (length (heap w) :: l).
Proof.
  intros (pd & Hp & Hc & Hlen)%simple_listChildren_inv.
  pose proof (lookup_lt_Some _ _ _ Hp) as Hplt.
  set (nd0 := new_FileNode name isdir (Some p)).
  set (new := length (heap w)).
  assert (Hnew : (heap w ++ [nd0]) !! new = Some nd0)
    by by apply list_lookup_middle.
  assert (Hlen1 : length (heap w ++ [nd0]) = S new)
    by (rewrite length_app; simpl; lia).
  unfold create_under. rewrite simple_bind_alloc. fold nd0 new.
  unfold addChildNode. rewrite !bind_assoc.
  rewrite (simple_bind_getM _ _ _ pd) by (by apply lookup_app_l_Some).
  destruct (child pd) as [c|] eqn:Hchild.
  - destruct (chain_elem _ _ _ c Hc) as [n Hn].
    { inversion Hc; subst. by left. }
    apply simple_next_of_Some in Hn as (cd & Hcd & _).
    pose proof (lookup_lt_Some _ _ _ Hcd) as Hclt.
    rewrite !bind_assoc.
    rewrite (simple_bind_setattr _ _ _ _ nd0) by done.
    rewrite !bind_assoc.
    rewrite (simple_bind_getM _ _ _ pd)
      by (cbn [heap with_heap]; rewrite list_lookup_insert_ne by lia;
          by apply lookup_app_l_Some).
    rewrite Hchild.
    rewrite (simple_bind_setattr _ _ _ _ cd)
      by (cbn [heap with_heap]; rewrite list_lookup_insert_ne by lia;
          by apply lookup_app_l_Some).
    cbn [heap with_heap].
    set (h3 := <[c:=set_sibling_prev (Some new) cd]>
                 (<[new:=set_sibling_next (Some c) nd0]> (heap w ++ [nd0]))).
    assert (Hlen3 : length h3 = S new).
    { unfold h3. by rewrite !length_insert. }
    destruct (lookup_lt_is_Some_2 h3 p) as [pd' Hpd']; [lia|].
    assert (Hpd'n : sibling_next pd' = sibling_next pd).
    { unfold h3 in Hpd'. rewrite list_lookup_insert in Hpd'.
      case_decide as Hd.
      - destruct Hd as [<- _]. simplify_eq. done.
      - rewrite list_lookup_insert_ne in Hpd' by lia.
        rewrite lookup_app_l in Hpd' by lia. by simplify_eq. }
    rewrite (simple_bind_setattr _ _ _ _ pd') by done.
    cbn [heap with_heap]. unfold ret.
    eexists. split; [done|].
    eapply simple_listChildren_intro with (f := Some new).
    + cbn [heap with_heap]. rewrite list_lookup_insert_eq; [done|lia].
    + econstructor.
      * unfold next_of. cbn [heap with_heap].
        rewrite list_lookup_insert_ne by lia. unfold h3.
        rewrite list_lookup_insert_ne by lia.
        rewrite list_lookup_insert_eq by lia. done.
      * eapply chain_ext; [done|]. intros x Hx.
        destruct (chain_elem _ _ _ _ Hc Hx) as [n' Hn].
        apply simple_next_of_Some in Hn as (xd & Hxd & _).
        pose proof (lookup_lt_Some _ _ _ Hxd).
        unfold next_of. cbn [heap with_heap].
        rewrite list_lookup_insert. case_decide as Hd1.
        { destruct Hd1 as [<- _]. simpl. rewrite Hp. simpl.
          by rewrite Hpd'n. }
        unfold h3. rewrite list_lookup_insert. case_decide as Hd2.
        { destruct Hd2 as [<- _]. simpl. by rewrite Hcd. }
        rewrite list_lookup_insert_ne by lia.
        by rewrite lookup_app_l by lia.
    + simpl. lia.
  - inversion Hc; subst. rewrite bind_assoc, bind_ret.
    rewrite (simple_bind_setattr _ _ _ _ pd) by (by apply lookup_app_l_Some).
    unfold ret. eexists. split; [done|].
    eapply simple_listChildren_intro with (f := Some new).
    + cbn [heap with_heap]. rewrite list_lookup_insert_eq; [done|lia].
    + econstructor; [|constructor]. unfold next_of. cbn [heap with_heap].
      rewrite list_lookup_insert_ne by lia. by rewrite Hnew.
    + simpl. lia.
Qed.

End SimpleFacts.

(** ** simplefilesystem.py: deleting all below a node *)
Module SimpleDelete.
Import PyFacts Simple SimpleFacts.


Lemma set_child_set_child a b nd : set_child a (set_child b nd) = set_child a nd.
Proof. done. Qed.





End SimpleDelete.

(** ** simplefilesystem.py: deleting a node among its siblings *)
Module SimpleSplice.
Import Chain ChainFacts PyFacts Simple SimpleFacts SimpleDelete.


(** Writing an object without changing its [sibling_next] changes no
    chain. *)
Lemma next_of_insert_same w x nd nd' c :
  heap w !! x = Some nd -> sibling_next nd' = sibling_next nd ->
  next_of (with_heap (<[x := nd']> (heap w)) w) c = next_of w c.
Proof.
  intros Hx Hn. unfold next_of. cbn [heap with_heap].
  rewrite list_lookup_insert. case_decide as Hd.
  - destruct Hd as [<- _]. rewrite Hx. simpl. by rewrite Hn.
  - done.
Qed.





End SimpleSplice.

(** ** winfilesystem.py: taking a node out of its sibling chain *)
Module WinSplice.
Import Chain ChainFacts PyFacts Win Win.FileManager WinFacts.

Lemma remove_node_loop_found fuel w node f l1 l2 :
  chain (next_of w) f (l1 ++ node :: l2) -> length l1 <= fuel ->
  FileSystemModel.remove_node_loop fuel w node f = Ok (Some node).
Proof.
  revert fuel f. induction l1 as [|x l1 IH]; intros fuel f Hc Hlen;
    simpl in Hc; inversion Hc as [|? n ? Hn Hc']; subst.
  - destruct fuel; simpl; by rewrite Nat.eqb_refl.
  - apply next_of_Some in Hn as (cd & Hcd & <-).
    destruct fuel as [|fuel]; simpl in *; [lia|].
    destruct (Nat.eqb x node) eqn:E; [by apply Nat.eqb_eq in E as ->|].
    rewrite (get_Ok _ _ _ Hcd). simpl. apply IH; [done|lia].
Qed.

Lemma remove_node_loop_missed fuel w node f l :
  chain (next_of w) f l -> node ∉ l -> length l <= fuel ->
  FileSystemModel.remove_node_loop fuel w node f = Ok None.
Proof.
  intros H. revert fuel. induction H as [|c n l Hn _ IH]; intros fuel Hin Hlen.
  - by destruct fuel.
  - destruct fuel as [|fuel]; simpl in *; [lia|].
    apply next_of_Some in Hn as (cd & Hcd & <-).
    destruct (Nat.eqb c node) eqn:E.
    { apply Nat.eqb_eq in E as ->. exfalso. apply Hin. by left. }
    rewrite (get_Ok _ _ _ Hcd). simpl. apply IH; [|lia].
    intros ?. apply Hin. by right.
Qed.

Ltac lookups :=
  cbn [heap with_heap];
  repeat first
    [ rewrite list_lookup_insert_ne by done
    | rewrite list_lookup_insert_eq by (rewrite ?length_insert; done) ].

(** [remove_node] on a node that its loop finds among the children: the
    splice. *)
Lemma remove_node_splice fuel w i par pd node nd l1 l2 :
  FileSystemModel.pointer_or_current w i = Some par ->
  heap w !! par = Some pd -> heap w !! node = Some nd ->
  chain (next_of w) (child pd) (l1 ++ node :: l2) ->
  NoDup (par :: l1 ++ node :: l2) -> node <> par ->
  FileSystemModel.remove_node_loop fuel w node (child pd) = Ok (Some node) ->
  sibling_prev nd = last l1 ->
  exists w',
    FileSystemModel.remove_node fuel i node w = (Ok true, w')
    /\ listChildren (length (l1 ++ l2)) w' par = Ok (l1 ++ l2)
    /\ heap w' !! node
       = Some (set_sibling_next None
                 (set_sibling_prev None (set_parent None nd)))
    /\ heap w' !! par
       = Some (match l1 with
               | [] => set_child (head l2) pd
               | _ => pd
               end)
    /\ (forall z zd, last l1 = Some z -> heap w !! z = Some zd ->
        heap w' !! z = Some (set_sibling_next (head l2) zd))
    /\ (forall nx nxd, head l2 = Some nx -> heap w !! nx = Some nxd ->
        heap w' !! nx = Some (set_sibling_prev (last l1) nxd))
    /\ (forall x, x <> node -> x <> par -> Some x <> last l1 ->
        Some x <> head l2 -> heap w' !! x = heap w !! x)
    /\ with_heap (heap w) w' = w.
Proof.
  intros Hi Hpd Hnode Hc Hnd Hnp Hlen Hprev.
  pose proof (lookup_lt_Some _ _ _ Hpd) as Hplt.
  pose proof (lookup_lt_Some _ _ _ Hnode) as Hnlt.
  unfold FileSystemModel.remove_node.
  rewrite (bind_reads_Ok
             (fun w => Ok (FileSystemModel.pointer_or_current w i)) _ w
             (Some par)) by (by rewrite Hi).
  rewrite (bind_reads_Ok
             (fun w => FileSystemModel.deref w (Some par)) _ w pd)
    by (by apply get_Ok).
  rewrite (bind_reads_Ok
             (fun w => FileSystemModel.remove_node_loop fuel w node (child pd))
             _ w (Some node) Hlen).
  cbv beta iota.
  apply NoDup_cons in Hnd as [Hpar_fresh Hnd].
  destruct (chain_split _ _ _ _ _ Hc) as (n & Hn & Hc2).
  apply next_of_Some in Hn as (nd' & Hnd' & <-).
  assert (nd' = nd) as -> by congruence. clear Hnd'.
  rewrite (bind_getM _ _ _ _ Hnode).
  destruct l1 as [|z l1 _] using rev_ind.
  - (* [node] is the head *)
    simpl in *. rewrite Hprev, bind_ret.
    rewrite (bind_getM _ _ _ _ Hnode).
    assert (Hhead : child pd = Some node) by (by inversion Hc).
    apply NoDup_cons in Hnd as [Hnode_fresh Hnd2].
    destruct (sibling_next nd) as [nx|] eqn:Hsn.
    + apply chain_head in Hc2 as (nxd & l2' & -> & Hnxd & Hc2).
      assert (nx <> par).
      { intros ->. apply Hpar_fresh. right. by left. }
      assert (nx <> node).
      { intros ->. apply Hnode_fresh. by left. }
      pose proof (lookup_lt_Some _ _ _ Hnxd) as Hnxlt.
      rewrite (bind_setattr _ _ _ _ _ Hnxd).
      erewrite bind_getM by (lookups; done).
      erewrite bind_getM by (lookups; done).
      rewrite Hhead. unfold is_ref at 1. rewrite Nat.eqb_refl.
      erewrite bind_setattr by (lookups; done).
      erewrite bind_setattr by (lookups; done).
      erewrite bind_setattr by (lookups; done).
      erewrite bind_setattr by (lookups; done).
      eexists. split; [done|].
      repeat apply conj.
      * eapply listChildren_intro' with (f := Some nx);
          [lookups; simpl; by rewrite Hsn| |done].
        eapply chain_ext; [econstructor; [|exact Hc2]|].
        { apply next_of_Some. eauto. }
        intros c Hcin. unfold next_of.
        assert (c <> par) by (intros ->; apply Hpar_fresh; by right).
        assert (c <> node) by (by intros ->).
        lookups. rewrite list_lookup_insert. case_decide as Hd; [|done].
        destruct Hd as [<- _]. by rewrite Hnxd.
      * by lookups.
      * lookups. simpl. by rewrite Hsn.
      * intros ? ? [=].
      * intros ? ? [= <-] ?. lookups. simpl. rewrite Hprev. congruence.
      * intros x Hx1 Hx2 _ Hx3.
        assert (x <> nx) by (intros ->; by apply Hx3).
        by lookups.
      * destruct w. cbn. done.
    + apply chain_None in Hc2 as ->.
      rewrite bind_ret.
      erewrite bind_getM by (lookups; done).
      erewrite bind_getM by (lookups; done).
      rewrite Hhead. unfold is_ref at 1. rewrite Nat.eqb_refl.
      erewrite bind_setattr by (lookups; done).
      erewrite bind_setattr by (lookups; done).
      erewrite bind_setattr by (lookups; done).
      erewrite bind_setattr by (lookups; done).
      eexists. split; [done|].
      repeat apply conj.
      * eapply listChildren_intro' with (f := None);
          [lookups; simpl; by rewrite Hsn| |done].
        constructor.
      * by lookups.
      * lookups. simpl. by rewrite Hsn.
      * intros ? ? [=].
      * intros ? ? [=].
      * intros x Hx1 Hx2 _ _. by lookups.
      * destruct w. cbn. done.
  - (* [node] has the predecessor [z] *)
    rewrite last_snoc in Hprev. rewrite Hprev.
    rewrite <- app_assoc in Hc, Hnd, Hpar_fresh.
    simpl in Hc, Hnd, Hpar_fresh.
    assert (Hzn : next_of w z = Some (Some node)).
    { destruct (chain_split _ _ _ _ _ Hc) as (n & Hn & Hcn).
      inversion Hcn; subst. done. }
    apply next_of_Some in Hzn as (zd & Hzd & Hzn).
    pose proof (lookup_lt_Some _ _ _ Hzd) as Hzlt.
    assert (Hzp : z <> par).
    { intros ->. apply Hpar_fresh. apply elem_of_app. right. by left. }
    assert (Hznode : z <> node).
    { intros ->. apply NoDup_app in Hnd as (_ & _ & Hnd).
      apply NoDup_cons in Hnd as [Hz _]. apply Hz. by left. }
    assert (Hhead : is_ref (child pd) node = false).
    { destruct l1 as [|y l1]; simpl in *; inversion Hc; subst; simpl;
        apply Nat.eqb_neq; [done|]. intros ->.
      apply NoDup_cons in Hnd as [Hy _]. apply Hy.
      apply elem_of_app. right. right. by left. }
    assert (Hrest : forall x, x ∈ l1 ++ l2 -> x <> z /\ x <> node /\ x <> par).
    { intros x Hx.
      pose proof Hnd as (_ & Hd & Hnd')%NoDup_app.
      apply NoDup_cons in Hnd' as [Hz Hnd'].
      apply NoDup_cons in Hnd' as [Hn _].
      repeat apply conj; intros ->.
      - apply elem_of_app in Hx as [Hx|Hx].
        + eapply Hd; [done|]. by left.
        + apply Hz. by right.
      - apply elem_of_app in Hx as [Hx|Hx]; [|done].
        eapply Hd; [done|]. right. by left.
      - apply Hpar_fresh. rewrite elem_of_app, !elem_of_cons.
        apply elem_of_app in Hx. tauto. }
    assert (Hl1 : match l1 ++ [z] with [] => set_child (head l2) pd
                  | _ => pd end = pd) by (by destruct l1).
    rewrite Hl1.
    rewrite (bind_setattr _ _ _ _ _ Hzd).
    erewrite bind_getM by (lookups; done).
    destruct (sibling_next nd) as [nx|] eqn:Hsn.
    + apply chain_head in Hc2 as (nxd & l2' & -> & Hnxd & Hc2).
      destruct (Hrest nx) as (? & ? & ?).
      { apply elem_of_app. right. by left. }
      pose proof (lookup_lt_Some _ _ _ Hnxd) as Hnxlt.
      erewrite bind_setattr by (lookups; done).
      erewrite bind_getM by (lookups; done).
      erewrite bind_getM by (lookups; done).
      rewrite Hhead, bind_ret.
      erewrite bind_setattr by (lookups; done).
      erewrite bind_setattr by (lookups; done).
      erewrite bind_setattr by (lookups; done).
      eexists. split; [done|].
      repeat apply conj.
      * eapply listChildren_intro' with (f := child pd);
          [lookups; by rewrite Hpd| |done].
        rewrite <- app_assoc. simpl.
        eapply chain_remove; [done|done| |].
        { unfold next_of at 1. lookups. simpl.
          apply eq_sym, next_of_Some. eauto. }
        intros x Hx. destruct (Hrest x Hx) as (? & ? & ?).
        unfold next_of. lookups.
        rewrite list_lookup_insert. case_decide as Hd.
        { destruct Hd as [<- _]. by rewrite Hnxd. }
        by lookups.
      * by lookups.
      * by lookups.
      * intros z0 zd0 Hz0 Hzd0. rewrite last_snoc in Hz0.
        injection Hz0 as <-. lookups. simpl. rewrite ?Hsn. congruence.
      * intros ? ? [= <-] ?. lookups. simpl.
        rewrite ?Hprev, ?last_snoc. congruence.
      * intros x Hx1 Hx2 Hx3 Hx4. rewrite last_snoc in Hx3. simpl in Hx4.
        assert (x <> nx /\ x <> z) as [? ?] by (split; congruence).
        by lookups.
      * destruct w. cbn. done.
    + apply chain_None in Hc2 as ->.
      rewrite bind_ret.
      erewrite bind_getM by (lookups; done).
      erewrite bind_getM by (lookups; done).
      rewrite Hhead, bind_ret.
      erewrite bind_setattr by (lookups; done).
      erewrite bind_setattr by (lookups; done).
      erewrite bind_setattr by (lookups; done).
      eexists. split; [done|].
      repeat apply conj.
      * eapply listChildren_intro' with (f := child pd);
          [lookups; by rewrite Hpd| |done].
        rewrite <- app_assoc. simpl.
        eapply chain_remove; [done|done| |].
        { unfold next_of at 1. lookups. simpl.
          apply eq_sym, next_of_Some. eauto. }
        intros x Hx. destruct (Hrest x Hx) as (? & ? & ?).
        unfold next_of. by lookups.
      * by lookups.
      * by lookups.
      * intros z0 zd0 Hz0 Hzd0. rewrite last_snoc in Hz0.
        injection Hz0 as <-. lookups. simpl. rewrite ?Hsn. congruence.
      * intros ? ? [=].
      * intros x Hx1 Hx2 Hx3 _. rewrite last_snoc in Hx3.
        assert (x <> z) by congruence.
        by lookups.
      * destruct w. cbn. done.
Qed.

(** The same, with fuel for the loop. *)
Lemma remove_node_found fuel w i par pd node nd l1 l2 :
  FileSystemModel.pointer_or_current w i = Some par ->
  heap w !! par = Some pd -> heap w !! node = Some nd ->
  chain (next_of w) (child pd) (l1 ++ node :: l2) ->
  NoDup (par :: l1 ++ node :: l2) -> node <> par ->
  length (l1 ++ node :: l2) <= fuel -> sibling_prev nd = last l1 ->
  exists w',
    FileSystemModel.remove_node fuel i node w = (Ok true, w')
    /\ listChildren fuel w' par = Ok (l1 ++ l2)
    /\ heap w' !! node
       = Some (set_sibling_next None
                 (set_sibling_prev None (set_parent None nd)))
    /\ heap w' !! par
       = Some (match l1 with
               | [] => set_child (head l2) pd
               | _ => pd
               end)
    /\ (forall z zd, last l1 = Some z -> heap w !! z = Some zd ->
        heap w' !! z = Some (set_sibling_next (head l2) zd))
    /\ (forall nx nxd, head l2 = Some nx -> heap w !! nx = Some nxd ->
        heap w' !! nx = Some (set_sibling_prev (last l1) nxd))
    /\ (forall x, x <> node -> x <> par -> Some x <> last l1 ->
        Some x <> head l2 -> heap w' !! x = heap w !! x)
    /\ with_heap (heap w) w' = w.
Proof.
  intros Hi Hpd Hnode Hc Hnd Hnp Hlen Hprev.
  destruct (remove_node_splice fuel w i par pd node nd l1 l2)
    as (w' & Hrun & Hlist & Hrest); [done..| |done|].
  { eapply remove_node_loop_found; [done|]. rewrite length_app in Hlen. lia. }
  exists w'. split; [done|]. split; [|done].
  apply listChildren_inv in Hlist as (pd' & Hpd' & Hc' & _).
  eapply listChildren_intro; [done|done|].
  rewrite !length_app in *. simpl in Hlen. lia.
Qed.

(** [remove_node] with the index of the parent of [node]: the node is
    taken out of the children, its [parent] and sibling links are
    cleared, its [child] is kept, the nodes before and after it are
    linked to each other, and the parent gets a new first child when
    [node] was the first.  With an index of another node nothing
    happens. *)
Theorem remove_node_splices fuel w i par pd node nd l :
  FileSystemModel.pointer_or_current w i = Some par ->
  heap w !! par = Some pd -> heap w !! node = Some nd ->
  chain (next_of w) (child pd) l -> NoDup (par :: l) -> node <> par ->
  length l <= fuel ->
  (node ∉ l -> FileSystemModel.remove_node fuel i node w = (Ok false, w))
  /\ (forall l1 l2,
        l = l1 ++ node :: l2 -> sibling_prev nd = last l1 ->
        exists w',
          FileSystemModel.remove_node fuel i node w = (Ok true, w')
          /\ listChildren fuel w' par = Ok (l1 ++ l2)
          /\ heap w' !! node
             = Some (set_sibling_next None
                       (set_sibling_prev None (set_parent None nd)))
          /\ heap w' !! par
             = Some (match l1 with
                     | [] => set_child (head l2) pd
                     | _ => pd
                     end)
          /\ (forall z zd, last l1 = Some z -> heap w !! z = Some zd ->
              heap w' !! z = Some (set_sibling_next (head l2) zd))
          /\ (forall nx nxd, head l2 = Some nx -> heap w !! nx = Some nxd ->
              heap w' !! nx = Some (set_sibling_prev (last l1) nxd))
          /\ (forall x, x <> node -> x <> par -> Some x <> last l1 ->
              Some x <> head l2 -> heap w' !! x = heap w !! x)
          /\ with_heap (heap w) w' = w).
Proof.
  intros Hi Hpd Hnode Hc Hnd Hnp Hlen. split.
  - intros Hin. unfold FileSystemModel.remove_node.
    rewrite (bind_reads_Ok
               (fun w => Ok (FileSystemModel.pointer_or_current w i)) _ w
               (Some par)) by (by rewrite Hi).
    rewrite (bind_reads_Ok
               (fun w => FileSystemModel.deref w (Some par)) _ w pd)
      by (by apply get_Ok).
    rewrite (bind_reads_Ok
               (fun w => FileSystemModel.remove_node_loop fuel w node (child pd))
               _ w None) by (by eapply remove_node_loop_missed).
    done.
  - intros l1 l2 -> Hprev. by eapply remove_node_found.
Qed.

Lemma remove_node_splices_witness :
  listChildren 8 with_abcd 1 = Ok [2; 4]
  /\ FileSystemModel.remove_node 8 (createIndex 0 0 (Some 2)) 4 with_abcd
     = (Ok false, with_abcd)
  /\ exists w',
       FileSystemModel.remove_node 8 (createIndex 0 0 (Some 1)) 4 with_abcd
       = (Ok true, w')
       /\ listChildren 8 w' 1 = Ok [2]
       /\ links_at w' 4 = Some (None, Some 5, None, None).
Proof.
  split; [reflexivity|].
  assert (Hn1 : NoDup [2; 3]).
  { apply (bool_decide_unpack (NoDup [2; 3])). by vm_compute. }
  assert (Hn2 : NoDup [1; 2; 4]).
  { apply (bool_decide_unpack (NoDup [1; 2; 4])). by vm_compute. }
  split.
  - refine (proj1 (remove_node_splices 8 with_abcd (createIndex 0 0 (Some 2))
                     2 _ 4 _ [3] eq_refl eq_refl eq_refl _ Hn1 _ _) _).
    + apply (walk_chain _ 8). reflexivity.
    + lia.
    + simpl. lia.
    + intros Hin. apply elem_of_cons in Hin as [Hin|Hin]; [done|].
      by apply elem_of_nil in Hin.
  - assert (Hc : chain (next_of with_abcd) (Some 2) [2; 4]).
    { apply (walk_chain _ 8). reflexivity. }
    destruct (proj2 (remove_node_splices 8 with_abcd
                       (createIndex 0 0 (Some 1)) 1 _ 4 _ [2; 4]
                       eq_refl eq_refl eq_refl Hc Hn2 ltac:(lia)
                       ltac:(simpl; lia))
                    [2] [] eq_refl eq_refl)
      as (w' & Hrun & Hlist & Hnode & _).
    exists w'. split; [exact Hrun|]. split; [exact Hlist|].
    unfold links_at. by rewrite Hnode.
Defined.

End WinSplice.

(** ** winfilesystem.py: deleting a first child with all below it *)
Module WinDelete.
Import Chain ChainFacts PyFacts Win Win.FileManager WinFacts WinSplice.

Lemma spine_refs t x : x ∈ spine t -> x ∈ refs t.
Proof.
  induction t as [|r kids _ sibs IH]; simpl; [done|].
  intros [->|Hx]%elem_of_cons; [by left|].
  right. apply elem_of_app. right. by apply IH.
Qed.

Lemma spine_sublist t : spine t `sublist_of` refs t.
Proof.
  induction t as [|r kids _ sibs IH]; simpl; [done|].
  apply sublist_skip. by apply sublist_inserts_l.
Qed.

Lemma spine_length t : length (spine t) <= length (refs t).
Proof. apply sublist_length, spine_sublist. Qed.

Lemma below_head w par p first t : below w par p first t -> first = head (spine t).
Proof. destruct t; simpl; [done|]. by intros [-> _]. Qed.

Lemma below_spine w par p first t :
  below w par p first t -> chain (next_of w) first (spine t).
Proof.
  revert p first. induction t as [|r kids _ sibs IH]; intros p first; simpl.
  - intros ->. constructor.
  - intros (-> & nd & Hr & _ & _ & _ & Hs). econstructor.
    + apply next_of_Some. eauto.
    + by eapply IH.
Qed.

Lemma below_frame w w' par p first t :
  below w par p first t ->
  (forall x, x ∈ refs t -> heap w' !! x = heap w !! x) ->
  below w' par p first t.
Proof.
  revert par p first. induction t as [|r kids IHk sibs IHs];
    intros par p first; simpl; [done|].
  intros (-> & nd & Hnd & Hpar & Hprev & Hk & Hs) Hext. split; [done|].
  exists nd. rewrite Hext by (by left). repeat apply conj; try done.
  - apply IHk; [done|]. intros x Hx. apply Hext.
    right. apply elem_of_app. by left.
  - apply IHs; [done|]. intros x Hx. apply Hext.
    right. apply elem_of_app. by right.
Qed.

(** The head of a chain gets another predecessor. *)
Lemma below_reprev w w' par p p' first t :
  below w par p first t -> NoDup (refs t) ->
  (forall x, x ∈ refs t -> Some x <> first -> heap w' !! x = heap w !! x) ->
  (forall r rd, first = Some r -> heap w !! r = Some rd ->
   heap w' !! r = Some (set_sibling_prev p' rd)) ->
  below w' par p' first t.
Proof.
  destruct t as [|r kids sibs]; simpl; [done|].
  intros (-> & nd & Hnd & Hpar & Hprev & Hk & Hs) Hdup Hext Hhead.
  apply NoDup_cons in Hdup as [Hr Hdup].
  split; [done|]. exists (set_sibling_prev p' nd).
  repeat apply conj; try done.
  - by apply Hhead.
  - eapply below_frame; [done|]. intros x Hx. apply Hext.
    + right. apply elem_of_app. by left.
    + intros [= ->]. apply Hr. apply elem_of_app. by left.
  - eapply below_frame; [done|]. intros x Hx. apply Hext.
    + right. apply elem_of_app. by right.
    + intros [= ->]. apply Hr. apply elem_of_app. by right.
Qed.

Lemma cleared_set_sibling_prev p nd : cleared (set_sibling_prev p nd) = cleared nd.
Proof. done. Qed.

Lemma with_heap_with_heap h h' w : with_heap h (with_heap h' w) = with_heap h w.
Proof. done. Qed.

Lemma with_heap_inv w w' : with_heap (heap w) w' = w -> w' = with_heap (heap w') w.
Proof. intros <-. by destruct w'. Qed.

(** The loop of [_delete_node] over the children of [x], the first
    child of [P], with the index of [P]: it ends, every node below [x] has
    lost all its links, [x] has no child left, and no other node is
    written. *)
Lemma _delete_node_loop_below fuel t :
  forall w n P Pd r0 x xd rest,
    heap w !! P = Some Pd -> chain (next_of w) (child Pd) (x :: rest) ->
    S (length rest) <= fuel ->
    heap w !! x = Some xd -> below w x None (child xd) t ->
    NoDup (P :: x :: refs t) -> (forall y, y ∈ rest -> y ∉ refs t) ->
    length (refs t) <= fuel -> turns t <= n ->
    exists w',
      _delete_node_loop fuel n (child xd) (createIndex r0 0 (Some P)) w
      = (Ok tt, w')
      /\ heap w' !! x = Some (set_child None xd)
      /\ (forall y, y ∈ refs t ->
          exists yd, heap w !! y = Some yd /\ heap w' !! y = Some (cleared yd))
      /\ (forall y, y ∉ refs t -> y <> x -> heap w' !! y = heap w !! y)
      /\ with_heap (heap w) w' = w.
Proof.
  induction t as [|r kids IHk sibs IHs];
    intros w n P Pd r0 x xd rest HP HcP Hrest Hx Hb Hdup Hdisj Hsize Hn.
  - simpl in Hb. rewrite Hb. exists w. split; [by destruct n|].
    split; [by rewrite <- Hb; destruct xd|]. split.
    { intros y Hy. by apply elem_of_nil in Hy. }
    split; [done|]. by destruct w.
  - pose proof (below_spine _ _ _ _ _ Hb) as Hcx.
    simpl in Hb. destruct Hb as (Hfirst & rd & Hr & Hpar & Hprev & Hk & Hs).
    simpl in Hdup, Hsize, Hn, Hcx.
    pose proof Hdup as HdupP.
    apply NoDup_cons in Hdup as [HP_fresh Hdup].
    pose proof Hdup as Hdupx.
    apply NoDup_cons in Hdup as [Hx_fresh Hdup].
    pose proof Hdup as Hdupt.
    apply NoDup_cons in Hdup as [Hr_fresh Hdup].
    apply NoDup_app in Hdup as (Hdupk & Hks & Hdups).
    rewrite length_app in Hsize.
    assert (Hrx : r <> x) by (intros ->; apply Hx_fresh; by left).
    assert (HrP : r <> P).
    { intros ->. apply HP_fresh. right. by left. }
    assert (HxP : x <> P) by (intros ->; apply HP_fresh; by left).
    assert (Hin_k : forall y, y ∈ refs kids ->
              y <> r /\ y <> x /\ y <> P /\ y ∉ refs sibs).
    { intros y Hy. repeat apply conj.
      - intros ->. apply Hr_fresh, elem_of_app. by left.
      - intros ->. apply Hx_fresh. right. apply elem_of_app. by left.
      - intros ->. apply HP_fresh. right. right. apply elem_of_app. by left.
      - by apply Hks. }
    assert (Hin_s : forall y, y ∈ refs sibs ->
              y <> r /\ y <> x /\ y <> P /\ y ∉ refs kids).
    { intros y Hy. repeat apply conj.
      - intros ->. apply Hr_fresh, elem_of_app. by right.
      - intros ->. apply Hx_fresh. right. apply elem_of_app. by right.
      - intros ->. apply HP_fresh. right. right. apply elem_of_app. by right.
      - intros ?. by eapply Hks. }
    pose proof (spine_length sibs) as Hspine.
    assert (Hhead_in : forall y, Some y = head (spine sibs) -> y ∈ refs sibs).
    { intros y E. apply spine_refs.
      destruct (spine sibs); simpl in E; simplify_eq. by left. }
    destruct n as [|[|n]]; [lia|lia|].
    (* the index handed to the call for [r] *)
    assert (Hidx : FileSystemModel.index fuel w 0 0 (createIndex r0 0 (Some P))
                   = Ok (createIndex 0 0 (Some x))).
    { rewrite (index_listChildren fuel w P (x :: rest)); [done|].
      eapply listChildren_intro; [done|done|simpl; lia]. }
    (* the children of [r] *)
    destruct (IHk w n x xd 0 r rd (spine sibs))
      as (w1 & Hloopk & Hr1 & Hkids1 & Hframe1 & Hw1);
      [done|done|lia|done|done| | |lia|lia|].
    { apply NoDup_cons. split.
      - intros [->|Hin]%elem_of_cons; [done|].
        apply Hx_fresh. right. apply elem_of_app. by left.
      - apply NoDup_cons. split; [|done].
        intros ?. apply Hr_fresh, elem_of_app. by left. }
    { intros y Hy%spine_refs Hy'. by eapply Hks. }
    assert (Hx1 : heap w1 !! x = Some xd).
    { rewrite Hframe1; [done| |done].
      intros ?. apply Hx_fresh. right. apply elem_of_app. by left. }
    (* [r] itself *)
    destruct (remove_node_found fuel w1 (createIndex 0 0 (Some x)) x xd r
                (set_child None rd) [] (spine sibs))
      as (w2 & Hremove & _ & Hr2 & Hx2 & _ & Hnx2 & Hframe2 & Hw2);
      [done|done|done| | |done|simpl; lia|exact Hprev|].
    { rewrite Hfirst. eapply chain_ext; [by rewrite <- Hfirst|].
      intros c [->|Hc%spine_refs]%elem_of_cons; unfold next_of.
      - by rewrite Hr1, Hr.
      - destruct (Hin_s c Hc) as (? & ? & ? & ?). by rewrite Hframe1. }
    { apply NoDup_cons. split.
      - intros [->|Hin%spine_refs]%elem_of_cons; [done|].
        apply Hx_fresh. right. apply elem_of_app. by right.
      - apply NoDup_cons. split.
        + intros Hin%spine_refs. apply Hr_fresh, elem_of_app. by right.
        + eapply sublist_NoDup; [exact Hdups|apply spine_sublist]. }
    simpl in Hx2.
    pose proof (below_head _ _ _ _ _ Hs) as Hnext.
    (* the siblings after [r] *)
    destruct (IHs w2 (S n) P Pd r0 x (set_child (head (spine sibs)) xd) rest)
      as (w3 & Hloops & Hx3 & Hsibs3 & Hframe3 & Hw3);
      [| |done|done| | | |lia|lia|].
    { rewrite Hframe2, Hframe1; try done.
      - intros ?. apply HP_fresh. right. right. apply elem_of_app. by left.
      - intros E%Hhead_in. apply HP_fresh. right. right.
        apply elem_of_app. by right. }
    { eapply chain_ext; [done|]. intros c Hc. unfold next_of.
      destruct (decide (c = x)) as [->|Hcx']; [by rewrite Hx2, Hx|].
      apply elem_of_cons in Hc as [->|Hc]; [done|].
      pose proof (Hdisj c Hc) as Hc'.
      rewrite Hframe2, Hframe1; try done.
      - intros ?. apply Hc'. right. apply elem_of_app. by left.
      - intros ->. apply Hc'. by left.
      - intros ->. apply Hc'. by left.
      - intros E%Hhead_in. apply Hc'. right. apply elem_of_app. by right. }
    { cbn [child set_child]. rewrite <- Hnext.
      eapply below_reprev; [done|done| |].
      - intros y Hy Hyh. destruct (Hin_s y Hy) as (? & ? & ? & ?).
        rewrite Hframe2, Hframe1; try done. by rewrite <- Hnext.
      - intros nx nxd Hnx Hnxd. apply Hnx2; [by rewrite <- Hnext|].
        rewrite Hframe1; [done| |].
        + assert (nx ∈ refs sibs) as Hin.
          { apply Hhead_in. by rewrite <- Hnext, Hnx. }
          by destruct (Hin_s nx Hin) as (? & ? & ? & ?).
        + intros ->. apply Hr_fresh, elem_of_app. right.
          apply Hhead_in. by rewrite <- Hnext, Hnx. }
    { apply NoDup_cons. split.
      - intros [->|Hin]%elem_of_cons; [done|].
        apply HP_fresh. right. right. apply elem_of_app. by right.
      - apply NoDup_cons. split; [|done].
        intros ?. apply Hx_fresh. right. apply elem_of_app. by right. }
    { intros y Hy Hy'. apply (Hdisj y Hy). right. apply elem_of_app.
      by right. }
    exists w3. repeat apply conj.
    + rewrite Hfirst.
      change (_delete_node_loop fuel (S (S n)) (Some r)
                (createIndex r0 0 (Some P)) w)
        with ((let! cd := getM r in
               let! i := reads (fun w => FileSystemModel.index fuel w 0 0
                                           (createIndex r0 0 (Some P))) in
               exec _delete_node_rec fuel (S n) r i in
               _delete_node_loop fuel (S n) (sibling_next cd)
                 (createIndex r0 0 (Some P))) w).
      rewrite (bind_getM _ _ _ _ Hr).
      rewrite (bind_reads_Ok
                 (fun w => FileSystemModel.index fuel w 0 0
                             (createIndex r0 0 (Some P))) _ w _ Hidx).
      change (_delete_node_rec fuel (S n) r (createIndex 0 0 (Some x)))
        with (let! nd := getM r in
              exec _delete_node_loop fuel n (child nd)
                     (createIndex 0 0 (Some x)) in
              exec FileSystemModel.remove_node fuel
                     (createIndex 0 0 (Some x)) r in
              ret tt).
      rewrite !bind_assoc. rewrite (bind_getM _ _ _ _ Hr).
      rewrite !bind_assoc. rewrite (bind_Ok _ _ _ _ _ Hloopk).
      rewrite !bind_assoc. rewrite (bind_Ok _ _ _ _ _ Hremove).
      rewrite bind_ret. rewrite Hnext. exact Hloops.
    + by rewrite Hx3.
    + intros y [->|[Hy|Hy]%elem_of_app]%elem_of_cons.
      * exists rd. split; [done|]. rewrite Hframe3; [done| |done].
        intros ?. apply Hr_fresh, elem_of_app. by right.
      * destruct (Hkids1 y Hy) as (yd & Hyd & Hyd1).
        destruct (Hin_k y Hy) as (? & ? & ? & ?).
        exists yd. split; [done|].
        rewrite Hframe3, Hframe2 by (try done; intros E; by apply Hhead_in in E).
        done.
      * destruct (Hsibs3 y Hy) as (yd2 & Hyd2 & Hyd3).
        destruct (Hin_s y Hy) as (? & ? & ? & ?).
        destruct (decide (Some y = head (spine sibs))) as [E|E].
        -- assert (is_Some (heap w !! y)) as [yd Hyd].
           { rewrite <- Hnext in E.
             destruct sibs as [|? ? ?]; simpl in Hs; [by rewrite Hs in E|].
             destruct Hs as (Hs1 & ? & ? & _). rewrite Hs1 in E.
             simplify_eq. eauto. }
           exists yd. split; [done|].
           rewrite (Hnx2 y yd) in Hyd2; [|done|by rewrite Hframe1].
           simplify_eq. done.
        -- exists yd2. split; [|done].
           rewrite <- Hframe1, <- Hframe2; done.
    + intros y Hy Hyx.
      assert (y <> r) by (intros ->; apply Hy; by left).
      assert (y ∉ refs kids).
      { intros ?. apply Hy. right. apply elem_of_app. by left. }
      assert (y ∉ refs sibs).
      { intros ?. apply Hy. right. apply elem_of_app. by right. }
      rewrite Hframe3, Hframe2, Hframe1; try done.
      intros E. by apply Hhead_in in E.
    + rewrite <- Hw1, <- Hw2, <- Hw3. by destruct w3.
Qed.

Lemma sibling_index_loop_found fuel w node f l1 l2 k :
  chain (next_of w) f (l1 ++ node :: l2) -> node ∉ l1 -> length l1 <= fuel ->
  FileSystemModel.sibling_index_loop fuel w node f k = Ok (k + length l1).
Proof.
  revert fuel f k. induction l1 as [|x l1 IH]; intros fuel f k Hc Hin Hlen;
    simpl in Hc; inversion Hc as [|? n ? Hn Hc']; subst.
  - destruct fuel; simpl; rewrite Nat.eqb_refl; f_equal; lia.
  - apply next_of_Some in Hn as (cd & Hcd & <-).
    destruct fuel as [|fuel]; simpl in *; [lia|].
    destruct (Nat.eqb x node) eqn:E.
    { apply Nat.eqb_eq in E as ->. exfalso. apply Hin. by left. }
    rewrite (get_Ok _ _ _ Hcd). simpl. rewrite IH; [f_equal; lia|done| |lia].
    intros ?. apply Hin. by right.
Qed.

Lemma sibling_index_loop_total fuel w node f l k :
  chain (next_of w) f l -> length l <= fuel ->
  exists row, FileSystemModel.sibling_index_loop fuel w node f k = Ok row.
Proof.
  intros H. revert fuel k. induction H as [|c n l Hn _ IH]; intros fuel k Hlen.
  - exists 0. by destruct fuel.
  - apply next_of_Some in Hn as (cd & Hcd & <-).
    destruct fuel as [|fuel]; simpl in *; [lia|].
    destruct (Nat.eqb c node); [eauto|].
    rewrite (get_Ok _ _ _ Hcd). simpl. apply IH. lia.
Qed.

(** [index] reads the children of the node that the parent index stands
    for. *)
Lemma index_at fuel w i p l row :
  FileSystemModel.pointer_or_current w i = Some p -> (column i <= 0)%Z ->
  listChildren fuel w p = Ok l ->
  FileSystemModel.index fuel w row 0 i
    = Ok (match l !! row with
          | Some x => createIndex row 0 (Some x)
          | None => InvalidIndex
          end).
Proof.
  intros Hi Hcol (pd & Hp & Hc & Hl)%listChildren_inv.
  unfold FileSystemModel.index, FileSystemModel.hasIndex,
    FileSystemModel.rowCount.
  rewrite Hi. assert ((0 <? column i)%Z = false) as -> by lia.
  simpl. rewrite (get_Ok _ _ _ Hp). simpl.
  rewrite (rowCount_loop_chain _ _ _ _ _ Hc) by done. simpl.
  destruct (Nat.ltb row (length l)) eqn:Hrow; simpl.
  - rewrite (index_loop_chain _ _ _ _ Hc). simpl. done.
  - apply Nat.ltb_ge in Hrow. by rewrite (lookup_ge_None_2 _ _ Hrow).
Qed.

(** [delete_item] on a node that is the first child of a node [P] other
    than the root: the confirmed deletion returns without an error box,
    [P] lists its other children, the node and every node below it have
    lost all their links, the two stacks are scrubbed of the node, and
    [current] is reset to the root when it was the node. *)
Theorem delete_item_first_child fuel w node nd P Pd G Gd g1 g2 rest kids :
  node <> root w ->
  heap w !! node = Some nd -> parent nd = Some P -> sibling_prev nd = None ->
  heap w !! P = Some Pd -> parent Pd = Some G ->
  heap w !! G = Some Gd ->
  listChildren fuel w G = Ok (g1 ++ P :: g2) -> P ∉ g1 ->
  (G = model_current w
   \/ G <> model_root w /\ G <> model_current w
      /\ match parent Gd with
         | Some GG => exists lGG, listChildren fuel w GG = Ok lGG
         | None => True
         end) ->
  chain (next_of w) (child Pd) (node :: rest) ->
  below w node None (child nd) kids ->
  NoDup (P :: node :: rest ++ refs kids) ->
  length rest < fuel -> length (refs kids) <= fuel -> turns kids < fuel ->
  exists w',
    delete_item fuel node true w = (Ok None, w')
    /\ listChildren fuel w' P = Ok rest
    /\ heap w' !! node = Some (cleared nd)
    /\ (forall y, y ∈ refs kids ->
        exists yd, heap w !! y = Some yd /\ heap w' !! y = Some (cleared yd))
    /\ (forall y, y ∉ node :: refs kids -> y <> P -> Some y <> head rest ->
        heap w' !! y = heap w !! y)
    /\ history w' = scrub node (history w)
    /\ future w' = scrub node (future w)
    /\ current w' = (if Nat.eqb (current w) node then root w else current w).
Proof.
  intros Hroot Hnode Hpar Hprev HP HparP HG HlG Hg1 HGidx HcP Hb Hdup
    Hrest Hsize Hturns.
  pose proof HlG as (Gd' & HG' & HcG & HlenG)%listChildren_inv.
  assert (Gd' = Gd) as -> by congruence. clear HG'.
  (* the index of the parent *)
  assert (Hrow : FileSystemModel.sibling_index fuel w (Some P)
                 = Ok (length g1)).
  { unfold FileSystemModel.sibling_index. simpl.
    rewrite (get_Ok _ _ _ HP). simpl. rewrite HparP.
    rewrite (get_Ok _ _ _ HG). simpl.
    rewrite (sibling_index_loop_found _ _ _ _ g1 g2); [done|done|done|].
    rewrite length_app in HlenG. lia. }
  assert (Hlook : (g1 ++ P :: g2) !! length g1 = Some P).
  { by apply list_lookup_middle. }
  assert (Hpidx : exists pp,
            FileSystemModel.parent fuel w (createIndex 0 0 (Some P)) = Ok pp
            /\ FileSystemModel.index fuel w (length g1) 0 pp
               = Ok (createIndex (length g1) 0 (Some P))).
  { unfold FileSystemModel.parent. simpl.
    rewrite (get_Ok _ _ _ HP). simpl. rewrite HparP. simpl.
    destruct HGidx as [HGc|(HGr & HGc & HGG)].
    - exists InvalidIndex. split.
      + rewrite HGc, Nat.eqb_refl. by rewrite orb_true_r.
      + rewrite (index_at fuel w InvalidIndex G _ _
                   (eq_sym (f_equal Some HGc)) ltac:(simpl; lia) HlG).
        by rewrite Hlook.
    - apply Nat.eqb_neq in HGr, HGc. rewrite HGr, HGc. simpl.
      assert (exists row', FileSystemModel.sibling_index fuel w (Some G)
                           = Ok row') as [row' Hrow'].
      { unfold FileSystemModel.sibling_index. simpl.
        rewrite (get_Ok _ _ _ HG). simpl.
        destruct (parent Gd) as [GG|]; [|eauto].
        destruct HGG as (lGG & (GGd & HGGd & HcGG & HlenGG)%listChildren_inv).
        rewrite (get_Ok _ _ _ HGGd). simpl.
        by eapply sibling_index_loop_total. }
      rewrite Hrow'. simpl. eexists. split; [done|].
      rewrite (index_at fuel w (createIndex row' 0 (Some G)) G _ _
                 eq_refl ltac:(simpl; lia) HlG).
      by rewrite Hlook. }
  destruct Hpidx as (pp & Hpp & Hidx).
  (* the parts of the NoDup hypothesis *)
  pose proof Hdup as Hdup0.
  apply NoDup_cons in Hdup as [HP_fresh Hdup].
  apply NoDup_cons in Hdup as [Hn_fresh Hdup].
  apply NoDup_app in Hdup as (Hduprest & Hrk & Hdupk).
  assert (HnP : node <> P) by (intros ->; apply HP_fresh; by left).
  destruct fuel as [|n]; [lia|].
  (* the subtree *)
  destruct (_delete_node_loop_below (S n) kids w n P Pd (length g1) node nd rest)
    as (w1 & Hloop & Hnode1 & Hkids1 & Hframe1 & Hw1);
    [done|done|lia|done|done| |done|done|lia|].
  { apply NoDup_cons. split.
    - intros [->|Hin]%elem_of_cons; [done|].
      apply HP_fresh. right. apply elem_of_app. by right.
    - apply NoDup_cons. split; [|done].
      intros ?. apply Hn_fresh, elem_of_app. by right. }
  (* the node *)
  assert (HP1 : heap w1 !! P = Some Pd).
  { rewrite Hframe1; [done| |done].
    intros ?. apply HP_fresh. right. apply elem_of_app. by right. }
  destruct (remove_node_found (S n) w1 (createIndex (length g1) 0 (Some P))
              P Pd node (set_child None nd) [] rest)
    as (w2 & Hremove & Hlist2 & Hnode2 & _ & _ & _ & Hframe2 & Hw2);
    [done|done|done| | |done|simpl; lia|exact Hprev|].
  { eapply chain_ext; [done|].
    intros c [->|Hc]%elem_of_cons; unfold next_of.
    - by rewrite Hnode1, Hnode.
    - destruct (decide (c = node)) as [->|?]; [by rewrite Hnode1, Hnode|].
      rewrite Hframe1; [done| |done]. by apply Hrk. }
  { apply NoDup_cons. split.
    - intros [->|Hin]%elem_of_cons; [done|].
      apply HP_fresh. right. apply elem_of_app. by left.
    - apply NoDup_cons. split; [|done].
      intros ?. apply Hn_fresh, elem_of_app. by left. }
  assert (Hw2' : history w2 = history w /\ future w2 = future w
                 /\ current w2 = current w /\ root w2 = root w).
  { clear -Hw1 Hw2. destruct w, w1, w2. unfold with_heap in *.
    cbn in *. repeat split; congruence. }
  destruct Hw2' as (Hhist & Hfut & Hcur & Hrt).
  exists (let wh := with_history (scrub node (history w2)) w2 in
          let wf := with_future (scrub node (future wh)) wh in
          if Nat.eqb (current wf) node then with_current (root wf) wf
          else wf).
  split.
  { unfold delete_item.
    rewrite (bind_reads_Ok (fun w => Ok w) _ w w eq_refl).
    apply Nat.eqb_neq in Hroot. rewrite Hroot.
    rewrite (bind_getM _ _ _ _ Hnode).
    rewrite andb_false_r.
    unfold try_except.
    rewrite (bind_getM _ _ _ _ Hnode). rewrite Hpar.
    rewrite (bind_reads_Ok
               (fun w => FileSystemModel.sibling_index (S n) w (Some P))
               _ w _ Hrow).
    rewrite (bind_reads_Ok
               (fun w => FileSystemModel.parent (S n) w
                           (createIndex 0 0 (Some P))) _ w _ Hpp).
    rewrite (bind_reads_Ok
               (fun w => FileSystemModel.index (S n) w (length g1) 0 pp)
               _ w _ Hidx).
    unfold _delete_node.
    change (_delete_node_rec (S n) (S n) node
              (createIndex (length g1) 0 (Some P)))
      with (let! nd := getM node in
            exec _delete_node_loop (S n) n (child nd)
                   (createIndex (length g1) 0 (Some P)) in
            exec FileSystemModel.remove_node (S n)
                   (createIndex (length g1) 0 (Some P)) node in
            ret tt).
    rewrite !bind_assoc. rewrite (bind_getM _ _ _ _ Hnode).
    rewrite !bind_assoc. rewrite (bind_Ok _ _ _ _ _ Hloop).
    rewrite !bind_assoc. rewrite (bind_Ok _ _ _ _ _ Hremove).
    rewrite bind_ret. unfold bind, modify. done. }
  cbv zeta. cbn [current root history future with_history with_future].
  rewrite Hhist, Hfut, Hcur, Hrt.
  assert (Hheap : forall b v u, heap v = heap u ->
            heap (if b : bool then v else u) = heap u).
  { by intros [] v u. }
  repeat apply conj.
  - unfold listChildren, get, next_of in *.
    rewrite Hheap by done. exact Hlist2.
  - rewrite Hheap by done. exact Hnode2.
  - intros y Hy. destruct (Hkids1 y Hy) as (yd & Hyd & Hyd1).
    exists yd. split; [done|]. rewrite Hheap by done. cbn [heap with_heap].
    cbn [heap with_future with_history].
    rewrite Hframe2; try done.
    + intros ->. apply Hn_fresh, elem_of_app. by right.
    + intros ->. apply HP_fresh. right. apply elem_of_app. by right.
    + intros E. apply (Hrk y); [|done].
      destruct rest; simpl in E; simplify_eq. by left.
  - intros y Hy HyP Hyh. rewrite Hheap by done.
    cbn [heap with_future with_history].
    rewrite Hframe2, Hframe1; try done.
    + intros ?. apply Hy. by right.
    + intros ->. apply Hy. by left.
    + intros ->. apply Hy. by left.
  - by destruct (Nat.eqb (current w) node).
  - by destruct (Nat.eqb (current w) node).
  - by destruct (Nat.eqb (current w) node).
Qed.

Lemma delete_item_first_child_witness :
  listChildren 8 with_abcd 1 = Ok [2; 4]
  /\ listChildren 8 with_abcd 2 = Ok [3]
  /\ exists w',
       delete_item 8 2 true with_abcd = (Ok None, w')
       /\ listChildren 8 w' 1 = Ok [4]
       /\ links_at w' 2 = Some (None, None, None, None)
       /\ links_at w' 3 = Some (None, None, None, None).
Proof.
  split; [reflexivity|]. split; [reflexivity|].
  assert (Hroot : 2 <> root with_abcd).
  { intros H. vm_compute in H. discriminate H. }
  assert (Hc : chain (next_of with_abcd) (Some 2) [2; 4]).
  { apply (walk_chain _ 8). reflexivity. }
  assert (Hb : below with_abcd 2 None (Some 3) (Br 3 Leaf Leaf)).
  { simpl. repeat (split || eexists); reflexivity. }
  assert (Hn : NoDup [1; 2; 4; 3]).
  { apply (bool_decide_unpack (NoDup [1; 2; 4; 3])). by vm_compute. }
  destruct (delete_item_first_child 8 with_abcd 2 _ 1 _ 0 _ [] [] [4]
              (Br 3 Leaf Leaf) Hroot eq_refl eq_refl eq_refl eq_refl
              eq_refl eq_refl eq_refl (not_elem_of_nil 1)
              (or_introl eq_refl) Hc Hb Hn)
    as (w' & Hrun & Hlist & Hnode & Hkids & _).
  - simpl. lia.
  - simpl. lia.
  - simpl. lia.
  - exists w'. split; [exact Hrun|]. split; [exact Hlist|].
    unfold links_at. rewrite Hnode. split; [reflexivity|].
    destruct (Hkids 3) as (yd & Hyd & Hyd').
    { simpl. by left. }
    by rewrite Hyd'.
Defined.

End WinDelete.

(** ** The claims about creation order *)
Module Order.

(** C3 (corrected), counterexample.  In the button variant two directories
    a and then b are made under the root; the root then lists b before a:
    the node made last is first, not last. *)
Lemma addChildNode_puts_new_node_first :
  fst (Simple.onCreateDir 8 "a" Simple.init) = Ok None
  /\ fst (Simple.onCreateDir 8 "b"
            (Simple.after (Simple.onCreateDir 8 "a") Simple.init)) = Ok None
  /\ Simple.filename <$> Simple.heap Simple.with_a_b !! 1 = Some "a"%string
  /\ Simple.filename <$> Simple.heap Simple.with_a_b !! 2 = Some "b"%string
  /\ Simple.listChildren 8 Simple.with_a_b 0 = Ok [2; 1]
  /\ Simple.listChildren 8 Simple.with_a_b 0 <> Ok [1; 2].
Proof. repeat split; try (vm_compute; reflexivity). vm_compute. discriminate. Qed.

(** C3 (corrected).  Creating a node under a node whose children are
    listed as [l]: in the context-menu variant [_create_node] returns a new
    object and the children are then [l] followed by it, which is also what
    [index] of the model reads row by row; in the button variant
    [FileNode(...)] with [addChildNode] returns a new object and the
    children are then that object followed by [sl]. *)
Theorem create_links_new_node fuel w p l name isdir t1 t2 sw sp sl sname sisdir :
  Win.listChildren fuel w p = Ok l ->
  Simple.listChildren fuel sw sp = Ok sl ->
  (exists w',
      Win.FileManager._create_node fuel name isdir p t1 t2 w
        = (Ok (length (Win.heap w)), w')
      /\ Win.listChildren (S fuel) w' p = Ok (l ++ [length (Win.heap w)])
      /\ forall r row,
           Win.FileSystemModel.index (S fuel) w' row 0
             (Win.createIndex r 0 (Some p))
           = Ok (match (l ++ [length (Win.heap w)]) !! row with
                 | Some x => Win.createIndex row 0 (Some x)
                 | None => Win.InvalidIndex
                 end))
  /\ (exists sw',
        Simple.create_under sname sisdir sp sw
          = (Ok (length (Simple.heap sw)), sw')
        /\ Simple.listChildren (S fuel) sw' sp
           = Ok (length (Simple.heap sw) :: sl)).
Proof.
  intros Hw Hs. split.
  - destruct (WinFacts._create_node_appends _ _ _ _ name isdir t1 t2 Hw)
      as (w' & Hrun & Hl).
    exists w'. repeat split; [done..|].
    intros r row. by apply WinFacts.index_listChildren.
  - by apply SimpleFacts.create_under_prepends.
Qed.

Lemma create_links_new_node_witness :
  Win.listChildren 8 Win.with_abcd 1 = Ok [2; 4]
  /\ Simple.listChildren 8 Simple.with_a_b 0 = Ok [2; 1]
  /\ (exists w',
        Win.FileManager._create_node 8 "e" true 1 5 5 Win.with_abcd
          = (Ok (length (Win.heap Win.with_abcd)), w')
        /\ Win.listChildren 9 w' 1
           = Ok ([2; 4] ++ [length (Win.heap Win.with_abcd)])
        /\ forall r row,
             Win.FileSystemModel.index 9 w' row 0
               (Win.createIndex r 0 (Some 1))
             = Ok (match ([2; 4] ++ [length (Win.heap Win.with_abcd)]) !! row
                   with
                   | Some x => Win.createIndex row 0 (Some x)
                   | None => Win.InvalidIndex
                   end))
  /\ (exists sw',
        Simple.create_under "c" true 0 Simple.with_a_b
          = (Ok (length (Simple.heap Simple.with_a_b)), sw')
        /\ Simple.listChildren 9 sw' 0
           = Ok (length (Simple.heap Simple.with_a_b) :: [2; 1])).
Proof.
  split; [reflexivity|]. split; [reflexivity|].
  apply (create_links_new_node 8 Win.with_abcd 1 [2; 4] "e" true 5 5
           Simple.with_a_b 0 [2; 1] "c" true); reflexivity.
Defined.

End Order.

(** ** The claims about editing and about the root *)
Module Guards.
Import PyFacts.

(** C6 (corrected), counterexample.  Opening the directory ROOT for
    editing raises nothing and shows no error: [open_file] returns at its
    [if node.isdir] test and the window is as before.  And [save_content]
    takes the time of modification from the clock as it is: saving a.txt,
    made at time 2, when the clock reads 1 leaves it modified before it was
    created. *)
Lemma open_file_on_directory_is_silent :
  Win.isdir <$> Win.heap Win.started !! 1 = Some true
  /\ Win.FileManager.open_file 8 1 (Some ("hello"%string, 9%Z)) Win.started
     = (Ok tt, Win.started)
  /\ Win.metadata <$> Win.heap Win.with_docs !! 3
     = Some (Win.mkMetadata 2 3 2)
  /\ Win.metadata <$>
       Win.heap (Win.after (Win.FileManager.save_content 3 "hello" 1)
                   Win.with_docs) !! 3
     = Some (Win.mkMetadata 2 1 5).
Proof. repeat split; vm_compute; reflexivity. Qed.

(** C6 (corrected).  On a directory [open_file] (and [onEdit] of the
    button variant) returns without an error and changes nothing.  On a
    file, saving [text] at clock reading [now] replaces the content, sets
    the size to the byte length of [text], keeps the time of creation and
    sets the time of modification to [now]; so the new time of modification
    is not before the time of creation nor before the old time of
    modification whenever [now] is not.  In the button variant [saveFile]
    replaces the content and nothing else. *)
Theorem save_content_updates_file fuel w node nd text now edit
    sw (item : list string) snode sd sedit :
  Win.heap w !! node = Some nd ->
  Simple.getNodeFromItem fuel sw item = Ok snode ->
  Simple.heap sw !! snode = Some sd ->
  (Win.isdir nd = true ->
     Win.FileManager.open_file fuel node edit w = (Ok tt, w))
  /\ (Win.isdir nd = false ->
        Win.FileManager.save_content node text now w
          = (Ok tt, Win.with_heap (<[node := Win.saved text now nd]> (Win.heap w)) w)
        /\ snd (Win.FileManager.open_file fuel node (Some (text, now)) w)
           = Win.with_heap (<[node := Win.saved text now nd]> (Win.heap w)) w
        /\ Win.size (Win.metadata (Win.saved text now nd))
           = Z.of_nat (String.length text)
        /\ ((Win.created (Win.metadata nd) <= now)%Z ->
            (Win.modified (Win.metadata nd) <= now)%Z ->
            (Win.created (Win.metadata (Win.saved text now nd))
               <= Win.modified (Win.metadata (Win.saved text now nd)))%Z
            /\ (Win.modified (Win.metadata nd)
                  <= Win.modified (Win.metadata (Win.saved text now nd)))%Z))
  /\ (Simple.isdir sd = true ->
        Simple.onEdit fuel (Some item) sedit sw = (Ok tt, sw))
  /\ (Simple.isdir sd = false ->
        Simple.onEdit fuel (Some item) (Some text) sw
          = (Ok tt, Simple.with_heap
                      (<[snode := Simple.set_content text sd]> (Simple.heap sw))
                      sw)).
Proof.
  intros Hnd Hitem Hsnd. repeat split.
  - intros Hdir. unfold Win.FileManager.open_file.
    rewrite (WinFacts.bind_getM _ _ _ _ Hnd). by rewrite Hdir.
  - unfold Win.FileManager.save_content.
    rewrite (WinFacts.bind_setattr _ _ _ _ _ Hnd).
    erewrite WinFacts.setattr_Ok.
    2:{ cbn [Win.heap Win.with_heap]. apply list_lookup_insert_eq.
        by eapply lookup_lt_Some. }
    cbn [Win.heap Win.with_heap]. by rewrite list_insert_insert_eq.
  - unfold Win.FileManager.open_file.
    rewrite (WinFacts.bind_getM _ _ _ _ Hnd). rewrite H.
    unfold Win.FileManager.save_content. rewrite !bind_assoc.
    rewrite (WinFacts.bind_setattr _ _ _ _ _ Hnd).
    erewrite WinFacts.bind_setattr.
    2:{ cbn [Win.heap Win.with_heap]. apply list_lookup_insert_eq.
        by eapply lookup_lt_Some. }
    cbn [Win.heap Win.with_heap]. rewrite list_insert_insert_eq.
    unfold bind, reads, ret.
    repeat match goal with
           | |- context [match ?x with _ => _ end] => destruct x
           end; reflexivity.
  - simpl. lia.
  - simpl. lia.
  - intros Hdir. unfold Simple.onEdit.
    rewrite (bind_reads_Ok (fun w => Simple.getNodeFromItem fuel w item)
               _ sw snode Hitem).
    rewrite (SimpleFacts.simple_bind_getM _ _ _ _ Hsnd). by rewrite Hdir.
  - intros Hdir. unfold Simple.onEdit.
    rewrite (bind_reads_Ok (fun w => Simple.getNodeFromItem fuel w item)
               _ sw snode Hitem).
    rewrite (SimpleFacts.simple_bind_getM _ _ _ _ Hsnd). rewrite Hdir.
    unfold Simple.saveFile. by apply SimpleFacts.simple_setattr_Ok.
Qed.

Lemma save_content_updates_file_witness :
  Win.heap Win.with_docs !! 3
    = Some (Win.mkFileNode "a.txt" false (Some 2) None None None "hi"
              (Win.mkMetadata 2 3 2))
  /\ Simple.getNodeFromItem 8 Simple.with_a_x ["/"; "a"; "x"]%string = Ok 2
  /\ Simple.heap Simple.with_a_x !! 2
     = Some (Simple.mkFileNode "x" false 1 0 (Some 1) None None None "")
  /\ Win.heap (snd (Win.FileManager.open_file 8 3 (Some ("hello"%string, 4%Z))
                     Win.with_docs)) !! 3
     = Some (Win.mkFileNode "a.txt" false (Some 2) None None None "hello"
               (Win.mkMetadata 2 4 5))
  /\ Simple.onEdit 8 (Some ["/"; "a"; "x"]%string) (Some "hello"%string)
       Simple.with_a_x
     = (Ok tt,
        Simple.with_heap
          (<[2 := Simple.mkFileNode "x" false 1 0 (Some 1) None None None
                    "hello"]> (Simple.heap Simple.with_a_x))
          Simple.with_a_x).
Proof.
  split; [reflexivity|]. split; [reflexivity|]. split; [reflexivity|].
  destruct (save_content_updates_file 8 Win.with_docs 3
              (Win.mkFileNode "a.txt" false (Some 2) None None None "hi"
                 (Win.mkMetadata 2 3 2))
              "hello" 4 None Simple.with_a_x ["/"; "a"; "x"]%string 2
              (Simple.mkFileNode "x" false 1 0 (Some 1) None None None "")
              None eq_refl eq_refl eq_refl)
    as (_ & Hfile & _ & Hsimple).
  destruct (Hfile eq_refl) as (_ & Hopen & _). split.
  - rewrite Hopen. reflexivity.
  - apply (Hsimple eq_refl).
Defined.




End Guards.

(** ** winfilesystem.py: where a handler can raise *)
Module WinRaise.
Import PyFacts Win Win.FileManager WinFacts.

Lemma quiet_get w r : quiet (get w r).
Proof. unfold get. by destruct (heap w !! r). Qed.






(** *** The loops of the model raise nothing *)





Lemma quiet__create_node_loop fuel w last :
  quiet (_create_node_loop fuel w last).
Proof.
  revert last. induction fuel as [|fuel IH]; intros last; simpl;
    (apply quiet_rbind; [apply quiet_get|]); intros ld _;
    destruct (sibling_next ld); simpl; auto.
Qed.






















(** *** Each handler fails only before it changes anything *)






End WinRaise.

(** ** simplefilesystem.py: where a handler can fail *)
Module SimpleRaise.
Import PyFacts Simple SimpleFacts.

Lemma simple_quiet_get w r : quiet (get w r).
Proof. unfold get. by destruct (heap w !! r). Qed.

Lemma simple_get_inv w r nd : get w r = Ok nd -> heap w !! r = Some nd.
Proof. unfold get. destruct (heap w !! r); intros; simplify_eq; done. Qed.




Lemma quiet_findNode_while fuel w sibling name :
  quiet (findNode_while fuel w sibling name).
Proof.
  revert sibling. induction fuel as [|fuel IH]; intros [s|]; simpl; try done.
  apply quiet_rbind; [apply simple_quiet_get|]. intros sd _.
  by destruct (String.eqb _ _).
Qed.

Lemma quiet_first_child_named w nd name : quiet (first_child_named w nd name).
Proof.
  unfold first_child_named. destruct (child nd); [|done].
  apply quiet_rbind; [apply simple_quiet_get|done].
Qed.

Lemma quiet_findNode_for fuel w node names :
  quiet (findNode_for fuel w node names).
Proof.
  revert node. induction names as [|name names IH]; intros node; simpl;
    [done|].
  destruct (String.eqb name ""); [apply IH|].
  apply quiet_rbind; [apply simple_quiet_get|]. intros nd _.
  apply quiet_rbind; [apply quiet_first_child_named|]. intros [c|] _;
    [apply IH|].
  apply quiet_rbind; [apply quiet_findNode_while|]. intros [s|] _;
    [apply IH|done].
Qed.













End SimpleRaise.

(** ** The claim about failing calls *)
Module Failure.
Import Win WinRaise.



End Failure.

(** ** Splitting and joining paths *)
Module PathFacts.

Lemma split_nonempty sep s : split sep s <> [].
Proof.
  destruct s as [|a r]; simpl; [done|].
  destruct (Ascii.eqb a sep); [done|]. by destruct (split sep r).
Qed.

(** Splitting at a separator splits the pieces on both sides of it. *)
Lemma split_app sep s1 s2 :
  split sep (s1 ++ String sep s2)%string = split sep s1 ++ split sep s2.
Proof.
  induction s1 as [|a r IH]; simpl.
  - by rewrite Ascii.eqb_refl.
  - destruct (Ascii.eqb a sep); [by rewrite IH|].
    rewrite IH. pose proof (split_nonempty sep r).
    by destruct (split sep r).
Qed.

Lemma split_no_slash s : no_slash s = true -> split "/" s = [s].
Proof.
  unfold no_slash. induction s as [|a r IH]; simpl; [done|].
  intros [Ha Hr]%andb_prop. apply negb_true_iff in Ha. rewrite Ha.
  by rewrite IH.
Qed.

Lemma split_join names :
  names <> [] -> Forall (fun s => no_slash s = true) names ->
  split "/" (join "/" names) = names.
Proof.
  induction names as [|x [|y r] IH]; intros Hne Hall; [done| |].
  - simpl. apply split_no_slash. by inversion Hall.
  - change (join "/" (x :: y :: r))
      with (x ++ String "/" (join "/" (y :: r)))%string.
    inversion Hall; subst. rewrite split_app, split_no_slash by done.
    simpl. f_equal. by apply IH.
Qed.

Lemma ordinary_no_slash s : Win.ordinary s = true -> no_slash s = true.
Proof. unfold Win.ordinary. by intros [_ ?]%andb_prop. Qed.

Lemma ordinary_truthy s : Win.ordinary s = true -> truthy s = true.
Proof.
  unfold Win.ordinary. by intros [[[? _]%andb_prop _]%andb_prop _]%andb_prop.
Qed.

Lemma ordinary_not_dot s : Win.ordinary s = true -> String.eqb s "." = false.
Proof.
  unfold Win.ordinary.
  intros [[[_ ?]%andb_prop _]%andb_prop _]%andb_prop.
  by apply negb_true_iff.
Qed.

Lemma ordinary_not_dotdot s :
  Win.ordinary s = true -> String.eqb s ".." = false.
Proof.
  unfold Win.ordinary. intros [[_ ?]%andb_prop _]%andb_prop.
  by apply negb_true_iff.
Qed.

Lemma filter_truthy_all names :
  Forall (fun s => truthy s = true) names -> List.filter truthy names = names.
Proof.
  induction 1 as [|x l Hx _ IH]; simpl; [done|]. by rewrite Hx, IH.
Qed.

(** The segments of "/" followed by non-empty names without '/' joined by
    "/" are those names. *)
Lemma segments_of_joined names :
  Forall (fun s => truthy s = true) names ->
  Forall (fun s => no_slash s = true) names ->
  Win.segments (String "/" (join "/" names)) = names.
Proof.
  intros Ht Hs. unfold Win.segments. simpl. destruct names as [|x r]; [done|].
  rewrite split_join by done. by apply filter_truthy_all.
Qed.

Lemma ordinary_all_truthy names :
  Forall (fun s => Win.ordinary s = true) names ->
  Forall (fun s => truthy s = true) names.
Proof. intros H. eapply Forall_impl; [done|]. apply ordinary_truthy. Qed.

Lemma ordinary_all_no_slash names :
  Forall (fun s => Win.ordinary s = true) names ->
  Forall (fun s => no_slash s = true) names.
Proof. intros H. eapply Forall_impl; [done|]. apply ordinary_no_slash. Qed.

(** Empty segments are dropped, so a doubled, leading or trailing slash
    changes nothing. *)
Lemma segments_app s1 s2 :
  Win.segments (s1 ++ String "/" s2)%string
  = Win.segments s1 ++ Win.segments s2.
Proof. unfold Win.segments. by rewrite split_app, List.filter_app. Qed.

Lemma segments_truthy path p : In p (Win.segments path) -> p <> ""%string.
Proof. intros [_ H]%List.filter_In ->. done. Qed.

End PathFacts.

(** ** winfilesystem.py: resolving paths in a well-formed tree *)
Module WinPaths.
Import Chain ChainFacts PyFacts PathFacts Win Win.FileManager WinFacts.

Lemma resolve_path_find_chain fuel w f l part :
  chain (next_of w) f l -> length l <= fuel ->
  resolve_path_find fuel w f part = Ok (child_named w part l).
Proof.
  intros H. revert fuel. induction H as [|c n l Hn _ IH]; intros fuel Hl.
  - by destruct fuel.
  - destruct fuel as [|fuel]; simpl in *; [lia|].
    apply next_of_Some in Hn as (cd & Hcd & <-).
    rewrite (get_Ok _ _ _ Hcd). simpl. unfold name_at at 1. rewrite Hcd.
    destruct (String.eqb (name cd) part); [done|]. apply IH. lia.
Qed.

(** One step of the loop of [resolve_path] on a name. *)
Lemma resolve_path_loop_name fuel w path cur l part parts :
  listChildren fuel w cur = Ok l ->
  String.eqb part "." = false -> String.eqb part ".." = false ->
  resolve_path_loop fuel w path cur (part :: parts)
  = match child_named w part l with
    | Some c => resolve_path_loop fuel w path c parts
    | None => Raise (FileNotFoundError path)
    end.
Proof.
  intros (cd & Hcd & Hc & Hl)%listChildren_inv Hdot Hdotdot. simpl.
  rewrite Hdot, Hdotdot, (get_Ok _ _ _ Hcd). simpl.
  by rewrite (resolve_path_find_chain _ _ _ _ _ Hc Hl).
Qed.

Lemma resolve_path_loop_dotdot fuel w path cur cd parts :
  heap w !! cur = Some cd ->
  resolve_path_loop fuel w path cur (".."%string :: parts)
  = resolve_path_loop fuel w path (default cur (parent cd)) parts.
Proof.
  intros Hcd. simpl. rewrite (get_Ok _ _ _ Hcd). simpl.
  by destruct (parent cd).
Qed.

Lemma child_named_elem w part l c :
  child_named w part l = Some c -> c ∈ l /\ name_at w c = part.
Proof.
  intros [Hin Heq]%List.find_some. split.
  - by apply list_elem_of_In.
  - by apply String.eqb_eq.
Qed.


(** Among siblings with distinct names a name finds its node. *)
Lemma child_named_unique w l c :
  NoDup (map (name_at w) l) -> c ∈ l ->
  child_named w (name_at w c) l = Some c.
Proof.
  unfold child_named. induction l as [|x l IH]; intros Hnd Hc.
  - by apply elem_of_nil in Hc.
  - simpl in *. apply NoDup_cons in Hnd as [Hx Hnd].
    destruct (String.eqb_spec (name_at w x) (name_at w c)) as [Heq|Hne].
    + apply elem_of_cons in Hc as [->|Hc]; [done|].
      destruct Hx. rewrite Heq. by apply list_elem_of_fmap_2.
    + apply elem_of_cons in Hc as [->|Hc]; [done|]. by apply IH.
Qed.

(** *** What [well_formed] gives *)

Lemma well_formed_root fuel w :
  well_formed fuel w = true ->
  exists rd, heap w !! root w = Some rd /\ parent rd = None.
Proof.
  unfold well_formed. intros [H _]%andb_prop.
  destruct (heap w !! root w) as [rd|]; [|done].
  apply bool_decide_eq_true in H. eauto.
Qed.

Lemma well_formed_node fuel w p :
  well_formed fuel w = true -> p < length (heap w) ->
  exists l, listChildren fuel w p = Ok l
            /\ (forall c, c ∈ l -> parent_at w c = Some p)
            /\ NoDup (map (name_at w) l).
Proof.
  unfold well_formed. intros [_ H]%andb_prop Hp.
  rewrite forallb_forall in H. specialize (H p).
  rewrite in_seq in H. specialize (H ltac:(lia)).
  unfold node_ok in H. destruct (listChildren fuel w p) as [l| |]; try done.
  apply andb_prop in H as [Hpar Hnd]. exists l. split; [done|]. split.
  - intros c Hc. rewrite forallb_forall in Hpar.
    apply list_elem_of_In, Hpar in Hc. unfold is_ref in Hc.
    destruct (parent_at w c); [|done]. apply Nat.eqb_eq in Hc. by subst.
  - by apply bool_decide_eq_true in Hnd.
Qed.

Lemma listChildren_elem fuel w p l c :
  listChildren fuel w p = Ok l -> c ∈ l -> c < length (heap w).
Proof.
  intros (pd & _ & Hc & _)%listChildren_inv Hin.
  destruct (chain_elem _ _ _ _ Hc Hin) as [n Hn].
  apply next_of_Some in Hn as (cd & Hcd & _). by eapply lookup_lt_Some.
Qed.

End WinPaths.

(** ** The claims about paths *)
Module Paths.
Import Chain ChainFacts PyFacts PathFacts Win Win.FileManager WinFacts WinPaths.

(** [resolve_path] on "/" followed by ordinary names joined by "/" walks
    those names from the root. *)
Lemma resolve_path_joined fuel w names :
  Forall (fun s => truthy s = true) names ->
  Forall (fun s => no_slash s = true) names ->
  resolve_path fuel w (String "/" (join "/" names))
  = resolve_path_loop fuel w (String "/" (join "/" names)) (root w) names.
Proof.
  intros Ht Hs. unfold resolve_path. cbn [startswith].
  change (Ascii.eqb "/" "~") with false. cbn iota.
  change (Ascii.eqb "/" "/") with true. cbn iota.
  change (List.filter truthy (split "/" (String "/" (join "/" names))))
    with (segments (String "/" (join "/" names))).
  by rewrite segments_of_joined.
Qed.

(** The loop of [resolve_path] raises nothing but [FileNotFoundError] with
    the path it was given. *)
Lemma resolve_path_loop_raises fuel w path cur parts e :
  resolve_path_loop fuel w path cur parts = Raise e ->
  e = FileNotFoundError path.
Proof.
  revert cur. induction parts as [|part parts IH]; intros cur; simpl;
    [done|].
  destruct (String.eqb part "."); [apply IH|].
  unfold get. destruct (heap w !! cur) as [cd|]; simpl;
    [|by destruct (String.eqb part "..")].
  destruct (String.eqb part "..").
  - destruct (parent cd); apply IH.
  - destruct (resolve_path_find fuel w (child cd) part) as [[f|]| |] eqn:E;
      simpl; try done.
    + apply IH.
    + by intros [= <-].
    + exfalso. clear IH. revert E. generalize (child cd).
      induction fuel as [|fuel IHf]; intros [c|]; simpl; try done.
      unfold get. destruct (heap w !! c) as [xd|]; simpl; [|done].
      destruct (String.eqb (name xd) part); [done|]. apply IHf.
Qed.


(** In the button variant a name that no child bears ends [findNode] with
    [None], whatever the name. *)
Lemma findNode_while_chain fuel sw f l name :
  chain (Simple.next_of sw) f l -> length l <= fuel ->
  (forall c, c ∈ l -> Simple.filename_at sw c <> name) ->
  Simple.findNode_while fuel sw f name = Ok None.
Proof.
  intros H. revert fuel. induction H as [|c n l Hn _ IH]; intros fuel Hl Hno.
  - by destruct fuel.
  - destruct fuel as [|fuel]; simpl in *; [lia|].
    apply SimpleFacts.simple_next_of_Some in Hn as (cd & Hcd & <-).
    rewrite (SimpleFacts.simple_get_Ok _ _ _ Hcd). simpl.
    destruct (String.eqb_spec (Simple.filename cd) name) as [Heq|_].
    + destruct (Hno c); [by left|]. unfold Simple.filename_at.
      by rewrite Hcd.
    + apply IH; [lia|]. intros x Hx. apply Hno. by right.
Qed.

Lemma findNode_for_unknown fuel sw node l name names :
  Simple.listChildren fuel sw node = Ok l -> name <> ""%string ->
  (forall c, c ∈ l -> Simple.filename_at sw c <> name) ->
  Simple.findNode_for fuel sw node (name :: names) = Ok None.
Proof.
  intros (nd & Hnd & Hc & Hl)%SimpleFacts.simple_listChildren_inv Hne Hno.
  simpl. destruct (String.eqb_spec name "") as [->|_]; [done|].
  rewrite (SimpleFacts.simple_get_Ok _ _ _ Hnd). simpl.
  rewrite (findNode_while_chain _ _ _ _ _ Hc Hl Hno).
  unfold Simple.first_child_named. destruct (Simple.child nd) as [c|]; [|done].
  inversion Hc as [|? n l' Hn Hc']; subst.
  apply SimpleFacts.simple_next_of_Some in Hn as (cd & Hcd & _).
  rewrite (SimpleFacts.simple_get_Ok _ _ _ Hcd). simpl.
  destruct (String.eqb_spec (Simple.filename cd) name) as [Heq|_]; [|done].
  destruct (Hno c); [by left|]. unfold Simple.filename_at. by rewrite Hcd.
Qed.

(** C7 (corrected), counterexample.  After start-up "~" is resolved as
    "/Home", which does not exist, and the error names "/Home", not the
    path that was given.  And in the button variant "/a/x/.." is not found
    although "/a/x" and "/a" are: ".." is looked up as a name. *)
Lemma resolve_path_error_names_rewritten_path :
  resolve_path 8 started "~" = Raise (FileNotFoundError "/Home")
  /\ Simple.findNode 8 Simple.with_a_x "/a/x" = Ok (Some 2)
  /\ Simple.findNode 8 Simple.with_a_x "/a" = Ok (Some 1)
  /\ Simple.findNode 8 Simple.with_a_x "/a/x/.." = Ok None.
Proof. repeat split; vm_compute; reflexivity. Qed.

(** C7 (corrected).  In a well-formed tree of the context-menu variant, if
    "/a/b" resolves then "/a/b/.." resolves to what "/a" resolves to.
    [resolve_path] works on the path with a leading '~' replaced by
    "/Home", starting at the root when that begins with '/' and at the
    current node otherwise, and walks its segments, the pieces between
    slashes that are not empty: "." keeps the running node, ".." moves to
    its parent if it has one and keeps it otherwise, and any other segment
    moves to the first child of that name or, when no child bears it,
    raises FileNotFoundError with the rewritten path; nothing else is ever
    raised.  In the button variant [findNode] looks every non-empty piece
    up as a name and returns [None] when no child bears it. *)
Theorem resolve_path_walks_segments fuel w a b n text path cur cd l part parts e
    sw snode sl sname snames :
  well_formed fuel w = true ->
  ordinary a = true -> ordinary b = true ->
  resolve_path fuel w ("/" ++ a ++ "/" ++ b)%string = Ok n ->
  heap w !! cur = Some cd -> listChildren fuel w cur = Ok l ->
  String.eqb part "." = false -> String.eqb part ".." = false ->
  Simple.listChildren fuel sw snode = Ok sl -> sname <> ""%string ->
  (forall c, c ∈ sl -> Simple.filename_at sw c <> sname) ->
  resolve_path fuel w ("/" ++ a ++ "/" ++ b ++ "/..")%string
    = resolve_path fuel w ("/" ++ a)%string
  /\ resolve_path fuel w text
     = resolve_path_loop fuel w (expand text)
         (if startswith (expand text) "/" then root w else current w)
         (segments (expand text))
  /\ (forall s1 s2,
        segments (s1 ++ "/" ++ s2)%string = segments s1 ++ segments s2)
  /\ (forall s, In s (segments (expand text)) -> s <> ""%string)
  /\ resolve_path_loop fuel w path cur ("."%string :: parts)
     = resolve_path_loop fuel w path cur parts
  /\ resolve_path_loop fuel w path cur (".."%string :: parts)
     = resolve_path_loop fuel w path (default cur (parent cd)) parts
  /\ resolve_path_loop fuel w path cur (part :: parts)
     = match child_named w part l with
       | Some c => resolve_path_loop fuel w path c parts
       | None => Raise (FileNotFoundError path)
       end
  /\ (resolve_path fuel w text = Raise e ->
      e = FileNotFoundError (expand text))
  /\ Simple.findNode_for fuel sw snode (sname :: snames) = Ok None.
Proof.
  intros Hwf Ha Hb Hab Hcd Hl Hdot Hdotdot Hsl Hsname Hsno.
  repeat apply conj.
  - change ("/" ++ a ++ "/" ++ b)%string
      with (String "/" (join "/" [a; b])) in Hab.
    change ("/" ++ a ++ "/" ++ b ++ "/..")%string
      with (String "/" (join "/" [a; b; ".."%string])).
    change ("/" ++ a)%string with (String "/" (join "/" [a])).
    pose proof (ordinary_truthy _ Ha). pose proof (ordinary_truthy _ Hb).
    pose proof (ordinary_no_slash _ Ha). pose proof (ordinary_no_slash _ Hb).
    rewrite resolve_path_joined in Hab by (repeat constructor; done).
    rewrite !resolve_path_joined by (repeat constructor; done).
    destruct (well_formed_root _ _ Hwf) as (rd & Hrd & _).
    destruct (well_formed_node _ _ (root w) Hwf) as (l0 & Hl0 & _ & _);
      [by eapply lookup_lt_Some|].
    rewrite (resolve_path_loop_name _ _ _ _ _ _ _ Hl0) in Hab
      by auto using ordinary_not_dot, ordinary_not_dotdot.
    rewrite !(resolve_path_loop_name _ _ _ _ _ _ _ Hl0)
      by auto using ordinary_not_dot, ordinary_not_dotdot.
    destruct (child_named w a l0) as [na|] eqn:Hna; [|done].
    apply child_named_elem in Hna as [Hna _].
    destruct (well_formed_node _ _ na Hwf) as (l1 & Hl1 & Hpar & _);
      [by eapply listChildren_elem|].
    rewrite (resolve_path_loop_name _ _ _ _ _ _ _ Hl1) in Hab
      by auto using ordinary_not_dot, ordinary_not_dotdot.
    rewrite (resolve_path_loop_name _ _ _ _ _ _ _ Hl1)
      by auto using ordinary_not_dot, ordinary_not_dotdot.
    destruct (child_named w b l1) as [nb|] eqn:Hnb; [|done].
    apply child_named_elem in Hnb as [Hnb _].
    apply Hpar in Hnb. unfold parent_at in Hnb.
    destruct (heap w !! nb) as [bd|] eqn:Hbd; [|done].
    rewrite (resolve_path_loop_dotdot _ _ _ _ _ _ Hbd), Hnb. done.
  - reflexivity.
  - intros s1 s2. apply segments_app.
  - intros s. apply segments_truthy.
  - done.
  - by apply resolve_path_loop_dotdot.
  - by apply resolve_path_loop_name.
  - apply resolve_path_loop_raises.
  - by eapply findNode_for_unknown.
Qed.


Lemma resolve_path_walks_segments_witness :
  well_formed 8 with_abcd = true
  /\ resolve_path 8 with_abcd "/ROOT/a" = Ok 2
  /\ listChildren 8 with_abcd 1 = Ok [2; 4]
  /\ Simple.listChildren 8 Simple.with_a_x 1 = Ok [2]
  /\ resolve_path 8 with_abcd "/ROOT/a/.." = resolve_path 8 with_abcd "/ROOT"
  /\ resolve_path_loop 8 with_abcd "/ROOT/e" 1 ["e"%string]
     = Raise (FileNotFoundError "/ROOT/e")
  /\ Simple.findNode_for 8 Simple.with_a_x 1 [".."%string] = Ok None.
Proof.
  split; [reflexivity|]. split; [reflexivity|]. split; [reflexivity|].
  split; [reflexivity|].
  destruct (resolve_path_walks_segments 8 with_abcd "ROOT" "a" 2 "~/x"
              "/ROOT/e" 1
              (mkFileNode "ROOT" true (Some 0) (Some 2) None None ""
                 (mkMetadata 0 0 0))
              [2; 4] "e" [] AttributeError
              Simple.with_a_x 1 [2] ".." []
              eq_refl eq_refl eq_refl eq_refl eq_refl eq_refl eq_refl eq_refl
              eq_refl)
    as (H1 & _ & _ & _ & _ & _ & H7 & _ & H9).
  - discriminate.
  - intros c Hc. apply list_elem_of_singleton in Hc as ->. discriminate.
  - split; [exact H1|]. split; [exact H7|exact H9].
Defined.

(** *** From a node up to the root and back *)

Lemma full_path_loop_eq fuel w node path :
  full_path_loop fuel w node path =
  let? nd := get w node in
  match parent nd with
  | None => Ok path
  | Some p => match fuel with
              | 0 => Stuck
              | S fuel => full_path_loop fuel w p (path ++ [name nd])
              end
  end.
Proof. by destruct fuel. Qed.

Lemma full_path_loop_descends fuel w r path n :
  well_formed fuel w = true -> descends fuel w r path n ->
  forall fuel' acc, length path <= fuel' ->
    full_path_loop fuel' w n acc
    = full_path_loop (fuel' - length path) w r
        (acc ++ rev (map (name_at w) path)).
Proof.
  intros Hwf. induction 1 as [r|r l c path n Hl Hc _ IH]; intros fuel' acc Hf.
  - simpl. by rewrite Nat.sub_0_r, app_nil_r.
  - simpl in Hf. rewrite IH by lia.
    pose proof Hl as (rd & Hrd & _)%listChildren_inv.
    destruct (well_formed_node _ _ r Hwf) as (l' & Hl' & Hpar & _);
      [by eapply lookup_lt_Some|].
    rewrite Hl in Hl'. injection Hl' as <-. apply Hpar in Hc.
    unfold parent_at in Hc. destruct (heap w !! c) as [cd|] eqn:Hcd; [|done].
    rewrite full_path_loop_eq, (get_Ok _ _ _ Hcd). cbn [rbind]. rewrite Hc.
    destruct (fuel' - length path) as [|f] eqn:Hsub; [lia|].
    replace (fuel' - length (c :: path)) with f by (simpl; lia).
    f_equal. simpl. unfold name_at at 3. rewrite Hcd.
    by rewrite <- app_assoc.
Qed.

Lemma resolve_path_loop_descends fuel w s r path n :
  well_formed fuel w = true -> descends fuel w r path n ->
  Forall (fun c => ordinary (name_at w c) = true) path ->
  resolve_path_loop fuel w s r (map (name_at w) path) = Ok n.
Proof.
  intros Hwf. induction 1 as [r|r l c path n Hl Hc _ IH]; intros Hord;
    [done|].
  apply Forall_cons in Hord as [Hc_ord Hord].
  pose proof Hl as (rd & Hrd & _)%listChildren_inv.
  destruct (well_formed_node _ _ r Hwf) as (l' & Hl' & _ & Hnd);
    [by eapply lookup_lt_Some|].
  rewrite Hl in Hl'. injection Hl' as <-.
  cbn [map].
  rewrite (resolve_path_loop_name _ _ _ _ _ _ _ Hl)
    by auto using ordinary_not_dot, ordinary_not_dotdot.
  rewrite child_named_unique by done. by apply IH.
Qed.

(** C10.  In a well-formed tree, for a node reached from the root through
    [path] (the nodes below the root down to it, each a child of the one
    before) whose names are all ordinary (not empty, not "." or "..",
    without '/'), [full_path] gives "/" followed by those names joined by
    "/" (just "/" for the root itself), and [resolve_path] on that string
    gives the node back. *)
Theorem full_path_resolves fuel w path n :
  well_formed fuel w = true ->
  descends fuel w (root w) path n ->
  Forall (fun c => ordinary (name_at w c) = true) path ->
  length path <= fuel ->
  full_path fuel w n = Ok (String "/" (join "/" (map (name_at w) path)))
  /\ resolve_path fuel w (String "/" (join "/" (map (name_at w) path)))
     = Ok n.
Proof.
  intros Hwf Hd Hord Hlen. split.
  - unfold full_path.
    rewrite (full_path_loop_descends _ _ _ _ _ Hwf Hd) by done.
    destruct (well_formed_root _ _ Hwf) as (rd & Hrd & Hpar).
    rewrite full_path_loop_eq, (get_Ok _ _ _ Hrd). cbn [rbind].
    rewrite Hpar. cbn [rbind app]. rewrite rev_involutive.
    destruct path as [|c path']; [done|].
    destruct (rev (map (name_at w) (c :: path'))) eqn:E; [|done].
    apply (f_equal (@length _)) in E. rewrite length_rev in E. done.
  - rewrite resolve_path_joined.
    + by apply resolve_path_loop_descends.
    + apply Forall_fmap. eapply Forall_impl; [done|].
      intros c. apply ordinary_truthy.
    + apply Forall_fmap. eapply Forall_impl; [done|].
      intros c. apply ordinary_no_slash.
Qed.

Lemma full_path_resolves_witness :
  well_formed 8 with_abcd = true
  /\ descends 8 with_abcd (root with_abcd) [1; 4; 5] 5
  /\ Forall (fun c => ordinary (name_at with_abcd c) = true) [1; 4; 5]
  /\ length [1; 4; 5] <= 8
  /\ full_path 8 with_abcd 5 = Ok "/ROOT/c/d"%string
  /\ resolve_path 8 with_abcd "/ROOT/c/d" = Ok 5.
Proof.
  assert (Hd : descends 8 with_abcd (root with_abcd) [1; 4; 5] 5).
  { apply descends_child with (l := [1]); [reflexivity|by left|].
    apply descends_child with (l := [2; 4]);
      [reflexivity|by right; left|].
    apply descends_child with (l := [5]); [reflexivity|by left|].
    apply descends_here. }
  assert (Ho : Forall (fun c => ordinary (name_at with_abcd c) = true)
                 [1; 4; 5]).
  { repeat constructor. }
  split; [reflexivity|]. split; [exact Hd|]. split; [exact Ho|].
  split; [simpl; lia|].
  apply (full_path_resolves 8 with_abcd [1; 4; 5] 5 eq_refl Hd Ho).
  simpl; lia.
Defined.

End Paths.

(** ** winfilesystem.py: one name per sibling *)
Module Names.
Import Chain ChainFacts PyFacts Win Win.FileManager WinFacts WinRaise WinPaths.






Lemma rival_None w node new_name l :
  rival w node new_name l = None
  <-> forall s, s ∈ l -> s <> node -> name_at w s <> new_name.
Proof.
  unfold rival. split.
  - intros H s Hs Hne Heq. apply list_elem_of_In in Hs.
    apply (List.find_none _ _ H) in Hs.
    apply andb_false_iff in Hs as [Hs|Hs].
    + apply negb_false_iff, Nat.eqb_eq in Hs. done.
    + apply String.eqb_neq in Hs. done.
  - intros H. induction l as [|x l IH]; simpl; [done|].
    destruct (Nat.eqb_spec x node) as [->|Hne]; simpl.
    + apply IH. intros s Hs. apply H. by right.
    + destruct (String.eqb_spec (name_at w x) new_name) as [Heq|_].
      * destruct (H x); [by left|done..].
      * apply IH. intros s Hs. apply H. by right.
Qed.



End Names.

(** ** Back and forward *)
Module Navigation.
Import PyFacts Win Win.FileManager WinFacts.

Lemma pop_snoc l x : pop (l ++ [x]) = Some (x, l).
Proof. unfold pop. by rewrite rev_unit, rev_involutive. Qed.

Lemma navigateTree_dir w r c node nd :
  heap w !! node = Some nd -> isdir nd = true ->
  navigateTree (createIndex r c (Some node)) w
  = (Ok tt, with_current node
              (with_future [] (with_history (history w ++ [current w]) w))).
Proof.
  intros Hnd Hdir. unfold navigateTree. simpl.
  rewrite (bind_getM _ _ _ _ Hnd). by rewrite Hdir.
Qed.

(** Going to the directory [a] and then to the directory [b] and back
    shows [a] again with [b] as the one step forward; going forward then
    shows [b] with nothing further forward and the stack of visited nodes
    as it was at [b]; and going to a directory [c] after the step back
    empties the forward stack. *)
Theorem back_then_forward w a b c ad bd cd :
  heap w !! a = Some ad -> isdir ad = true ->
  heap w !! b = Some bd -> isdir bd = true ->
  heap w !! c = Some cd -> isdir cd = true ->
  let at_a := after (navigateTree (createIndex 0 0 (Some a))) w in
  let at_b := after (navigateTree (createIndex 0 0 (Some b))) at_a in
  let back := after navigateBack at_b in
  let forward := after navigateForward back in
  let aside := after (navigateTree (createIndex 0 0 (Some c))) back in
  current back = a /\ history back = history at_a /\ future back = [b]
  /\ forward = at_b
  /\ current aside = c /\ future aside = [].
Proof.
  intros Ha Hda Hb Hdb Hc Hdc. cbv zeta. unfold after.
  rewrite (navigateTree_dir w 0 0 a ad Ha Hda). cbn [snd].
  set (at_a := with_current a _).
  rewrite (navigateTree_dir at_a 0 0 b bd Hb Hdb). cbn [snd].
  set (at_b := with_current b _).
  assert (Hback : navigateBack at_b
            = (Ok tt, with_history (history at_a)
                        (with_current a (with_future [b] at_b)))).
  { unfold navigateBack.
    change (history at_b) with (history at_a ++ [a]).
    by rewrite pop_snoc. }
  rewrite Hback. cbn [snd].
  set (back := with_history _ _).
  rewrite (navigateTree_dir back 0 0 c cd Hc Hdc). cbn [snd].
  assert (Hforward : navigateForward back = (Ok tt, at_b)).
  { unfold navigateForward. change (future back) with ([] ++ [b]).
    by rewrite pop_snoc. }
  rewrite Hforward. done.
Qed.

Lemma back_then_forward_witness :
  let at_a := after (navigateTree (createIndex 0 0 (Some 2))) with_abcd in
  let at_b := after (navigateTree (createIndex 0 0 (Some 3))) at_a in
  let back := after navigateBack at_b in
  current back = 2 /\ future back = [3]
  /\ after navigateForward back = at_b.
Proof.
  destruct (back_then_forward with_abcd 2 3 4 _ _ _
              eq_refl eq_refl eq_refl eq_refl eq_refl eq_refl)
    as (H1 & _ & H3 & H4 & _).
  split; [exact H1|]. split; [exact H3|exact H4].
Defined.

End Navigation.

(** ** winfilesystem.py: what every reachable state satisfies *)
Module Invariant.
Import Chain ChainFacts PyFacts Win Win.FileManager WinFacts WinRaise WinPaths
  WinSplice Names Paths.

(** A chain never meets an object twice. *)
Lemma chain_NoDup next f l : chain next f l -> NoDup l.
Proof.
  induction 1 as [|c n l Hn Hc IH]; [constructor|].
  apply NoDup_cons. split; [|done]. intros Hin.
  apply list_elem_of_split in Hin as (l1 & l2 & ->).
  destruct (chain_split _ _ _ _ _ Hc) as (n' & Hn' & Hc2).
  assert (n' = n) as -> by congruence.
  pose proof (chain_fun _ _ _ _ Hc Hc2) as E.
  apply (f_equal length) in E. rewrite length_app in E. simpl in E. lia.
Qed.

Lemma chain_in_heap w f l c :
  chain (next_of w) f l -> c ∈ l -> c < length (heap w).
Proof.
  intros Hc Hin. destruct (chain_elem _ _ _ _ Hc Hin) as [n Hn].
  apply next_of_Some in Hn as (cd & Hcd & _). by eapply lookup_lt_Some.
Qed.

Lemma chain_length w f l : chain (next_of w) f l -> length l <= length (heap w).
Proof.
  intros Hc.
  assert (l ⊆+ seq 0 (length (heap w))) as Hsub.
  { apply NoDup_submseteq; [by eapply chain_NoDup|].
    intros x Hx. apply elem_of_seq. pose proof (chain_in_heap _ _ _ _ Hc Hx).
    lia. }
  apply submseteq_length in Hsub. by rewrite length_seq in Hsub.
Qed.

(** *** [sound], unfolded *)

Lemma sound_root w :
  sound w -> exists rd, heap w !! root w = Some rd /\ parent rd = None.
Proof. intros [H _]. by eapply well_formed_root. Qed.

Lemma sound_order w c p : sound w -> parent_at w c = Some p -> p < c.
Proof. intros (_ & H & _). apply H. Qed.

Lemma sound_node w p pd :
  sound w -> heap w !! p = Some pd ->
  exists l, chain (next_of w) (child pd) l
            /\ (forall c, c ∈ l -> parent_at w c = Some p)
            /\ NoDup (map (name_at w) l)
            /\ linked w None l.
Proof.
  intros (Hwf & _ & Hl) Hp.
  destruct (well_formed_node _ _ p Hwf) as (l & Hlist & Hpar & Hnd).
  { by eapply lookup_lt_Some. }
  pose proof Hlist as (pd' & Hp' & Hc & _)%listChildren_inv.
  assert (pd' = pd) as -> by congruence.
  exists l. repeat apply conj; try done. by eapply Hl.
Qed.

Lemma sound_intro w :
  (exists rd, heap w !! root w = Some rd /\ parent rd = None) ->
  (forall c p, parent_at w c = Some p -> p < c) ->
  (forall p pd, heap w !! p = Some pd ->
   exists l, chain (next_of w) (child pd) l
             /\ (forall c, c ∈ l -> parent_at w c = Some p)
             /\ NoDup (map (name_at w) l)
             /\ linked w None l) ->
  sound w.
Proof.
  intros (rd & Hrd & Hrp) Hord Hnodes. repeat apply conj; [|done|].
  - unfold well_formed. rewrite Hrd. apply andb_true_intro. split.
    { by apply bool_decide_eq_true. }
    apply forallb_forall. intros p [_ Hp]%in_seq. simpl in Hp.
    destruct (lookup_lt_is_Some_2 (heap w) p Hp) as [pd Hpd].
    destruct (Hnodes p pd Hpd) as (l & Hc & Hpar & Hnd & _).
    unfold node_ok.
    rewrite (listChildren_intro _ _ _ _ _ Hpd Hc (chain_length _ _ _ Hc)).
    apply andb_true_intro. split.
    + apply forallb_forall. intros c Hin%list_elem_of_In.
      rewrite (Hpar c Hin). simpl. by apply Nat.eqb_eq.
    + by apply bool_decide_eq_true.
  - intros p l (pd & Hpd & Hc & _)%listChildren_inv.
    destruct (Hnodes p pd Hpd) as (l' & Hc' & _ & _ & Hl).
    by rewrite (chain_fun _ _ _ _ Hc Hc').
Qed.

(** *** Nodes that keep their place *)

Lemma place_at_eq w w' c :
  place_at w' c = place_at w c ->
  next_of w' c = next_of w c /\ parent_at w' c = parent_at w c
  /\ name_at w' c = name_at w c
  /\ sibling_prev <$> heap w' !! c = sibling_prev <$> heap w !! c.
Proof.
  unfold place_at, next_of, parent_at, name_at.
  destruct (heap w' !! c) as [cd'|], (heap w !! c) as [cd|]; simpl;
    intros; simplify_eq; repeat split; congruence.
Qed.

Lemma place_at_lookup w w' c :
  heap w' !! c = heap w !! c -> place_at w' c = place_at w c.
Proof. unfold place_at. by intros ->. Qed.

Lemma linked_same w w' prev l :
  linked w prev l ->
  (forall c, c ∈ l ->
   sibling_prev <$> heap w' !! c = sibling_prev <$> heap w !! c) ->
  linked w' prev l.
Proof.
  revert prev. induction l as [|c l IH]; intros prev; simpl; [done|].
  intros [Hc Hl] Hsame. split.
  - rewrite Hsame; [done|]. by left.
  - apply IH; [done|]. intros x Hx. apply Hsame. by right.
Qed.

(** The children of a node stay what they are when each keeps its
    place. *)
Lemma kids_same w w' f l p :
  chain (next_of w) f l ->
  (forall c, c ∈ l -> parent_at w c = Some p) ->
  NoDup (map (name_at w) l) -> linked w None l ->
  (forall c, c ∈ l -> place_at w' c = place_at w c) ->
  chain (next_of w') f l
  /\ (forall c, c ∈ l -> parent_at w' c = Some p)
  /\ NoDup (map (name_at w') l)
  /\ linked w' None l.
Proof.
  intros Hc Hpar Hnd Hl Hsame. repeat apply conj.
  - eapply chain_ext; [done|]. intros c Hin.
    by destruct (place_at_eq w w' c (Hsame c Hin)) as (-> & _).
  - intros c Hin.
    destruct (place_at_eq w w' c (Hsame c Hin)) as (_ & -> & _). by apply Hpar.
  - assert (map (name_at w') l = map (name_at w) l) as ->; [|done].
    apply map_ext_in. intros c Hin%list_elem_of_In.
    by destruct (place_at_eq w w' c (Hsame c Hin)) as (_ & _ & -> & _).
  - eapply linked_same; [done|]. intros c Hin.
    by destruct (place_at_eq w w' c (Hsame c Hin)) as (_ & _ & _ & ->).
Qed.

(** A node whose children all keep their place keeps its children. *)
Lemma node_same w w' q qd qd' :
  sound w -> heap w !! q = Some qd -> child qd' = child qd ->
  (forall c, parent_at w c = Some q -> place_at w' c = place_at w c) ->
  exists l, chain (next_of w') (child qd') l
            /\ (forall c, c ∈ l -> parent_at w' c = Some q)
            /\ NoDup (map (name_at w') l)
            /\ linked w' None l.
Proof.
  intros Hs Hq -> Hsame.
  destruct (sound_node _ _ _ Hs Hq) as (l & Hc & Hpar & Hnd & Hl).
  exists l. eapply kids_same; try done. intros c Hin. by apply Hsame, Hpar.
Qed.

Lemma place_at_set w w' c cd cd' :
  heap w !! c = Some cd -> heap w' !! c = Some cd' ->
  parent cd' = parent cd -> sibling_prev cd' = sibling_prev cd ->
  sibling_next cd' = sibling_next cd -> name cd' = name cd ->
  place_at w' c = place_at w c.
Proof. unfold place_at. intros -> ->. simpl. by intros -> -> -> ->. Qed.

Lemma linked_snoc w prev l new :
  linked w prev l -> new ∉ l ->
  sibling_prev <$> heap w !! new = Some (from_option Some prev (last l)) ->
  linked w prev (l ++ [new]).
Proof.
  revert prev. induction l as [|c l IH]; intros prev; simpl.
  - intros _ _ H. done.
  - intros [Hc Hl] Hnew Hp. split; [done|]. apply IH; [done| |].
    + intros ?. apply Hnew. by right.
    + destruct l as [|c2 l]; [by simpl in *|].
      rewrite last_cons_cons in Hp.
      destruct (last (c2 :: l)) eqn:E; [done|]. by apply last_None in E.
Qed.

(** *** A new object that nothing links to *)
Lemma sound_alloc w p pd nd0 :
  sound w -> heap w !! p = Some pd ->
  parent nd0 = Some p -> child nd0 = None ->
  sound (with_heap (heap w ++ [nd0]) w).
Proof.
  intros Hs Hp Hpar0 Hch0.
  pose proof (lookup_lt_Some _ _ _ Hp) as Hplt.
  set (w0 := with_heap (heap w ++ [nd0]) w).
  assert (Hold : forall x, x < length (heap w) -> heap w0 !! x = heap w !! x).
  { intros x Hx. unfold w0. cbn [heap with_heap]. by rewrite lookup_app_l. }
  apply sound_intro.
  - destruct (sound_root _ Hs) as (rd & Hrd & Hrp). exists rd.
    split; [|done]. change (root w0) with (root w).
    rewrite Hold; [done|]. by eapply lookup_lt_Some.
  - intros c q Hq. unfold parent_at in Hq.
    destruct (decide (c < length (heap w))) as [Hc|Hc].
    + rewrite Hold in Hq by done. by apply (sound_order w).
    + destruct (decide (c = length (heap w))) as [->|Hne].
      * unfold w0 in Hq. cbn [heap with_heap] in Hq.
        rewrite list_lookup_middle in Hq by done. congruence.
      * unfold w0 in Hq. cbn [heap with_heap] in Hq.
        rewrite lookup_ge_None_2 in Hq; [done|].
        rewrite length_app. simpl. lia.
  - intros q qd Hq.
    destruct (decide (q < length (heap w))) as [Hlt|Hge].
    + rewrite Hold in Hq by done.
      destruct (sound_node _ _ _ Hs Hq) as (l & Hc & Hpar & Hnd & Hl).
      exists l. eapply kids_same; try done.
      intros c Hin. apply place_at_lookup, Hold. by eapply chain_in_heap.
    + assert (q = length (heap w)) as ->.
      { apply lookup_lt_Some in Hq. unfold w0 in Hq.
        cbn [heap with_heap] in Hq. rewrite length_app in Hq. simpl in Hq.
        lia. }
      unfold w0 in Hq. cbn [heap with_heap] in Hq.
      rewrite list_lookup_middle in Hq by done. injection Hq as <-.
      rewrite Hch0. exists []. repeat apply conj; try done; try constructor.
      intros c Hin. by apply elem_of_nil in Hin.
Qed.

(** *** Linking a new object after the last child *)
Lemma sound_link w0 w1 p pd new nd0 l :
  sound w0 -> root w1 = root w0 ->
  heap w0 !! p = Some pd -> heap w0 !! new = Some nd0 ->
  parent nd0 = Some p -> sibling_prev nd0 = None -> sibling_next nd0 = None ->
  chain (next_of w0) (child pd) l -> new ∉ l ->
  (forall c, c ∈ l -> name_at w0 c <> name nd0) ->
  heap w1 !! p
    = Some (match l with [] => set_child (Some new) pd | _ => pd end) ->
  heap w1 !! new = Some (set_sibling_prev (last l) nd0) ->
  (forall z zd, last l = Some z -> heap w0 !! z = Some zd ->
   heap w1 !! z = Some (set_sibling_next (Some new) zd)) ->
  (forall x, x <> new -> x <> p -> Some x <> last l ->
   heap w1 !! x = heap w0 !! x) ->
  sound w1.
Proof.
  intros Hs Hroot Hp Hnew Hpar0 Hprev0 Hnext0 Hc Hnl Hnames Hp1 Hnew1 Hz1
    Hframe.
  assert (Hpn : p < new).
  { apply (sound_order w0); [done|]. unfold parent_at. by rewrite Hnew. }
  destruct (sound_node _ _ _ Hs Hp) as (l' & Hc' & Hparl & Hndl & Hll).
  rewrite <- (chain_fun _ _ _ _ Hc Hc') in *. clear l' Hc'.
  assert (Hzp : forall z, last l = Some z -> z <> p /\ z <> new /\ z ∈ l).
  { intros z Hz. assert (z ∈ l) as Hin.
    { apply last_Some in Hz as [l' ->]. apply elem_of_app. right. by left. }
    repeat apply conj; [| |done].
    - intros ->. pose proof (sound_order w0 _ _ Hs (Hparl _ Hin)). lia.
    - by intros ->. }
  (* every node keeps its place, but for the forward link of the last
     child and the backward link of the new node *)
  assert (Hplace : forall x, x <> new -> Some x <> last l ->
            place_at w1 x = place_at w0 x).
  { intros x Hxn Hxz. destruct (decide (x = p)) as [->|Hxp].
    - eapply place_at_set; [done..| | | |]; by destruct l.
    - apply place_at_lookup. by apply Hframe. }
  assert (Hparent : forall x, parent_at w1 x = parent_at w0 x).
  { intros x. destruct (decide (x = new)) as [->|Hxn].
    { unfold parent_at. by rewrite Hnew1, Hnew. }
    destruct (decide (Some x = last l)) as [Hxz|Hxz].
    - destruct (Hzp x (eq_sym Hxz)) as (_ & _ & Hin).
      destruct (chain_elem _ _ _ _ Hc Hin) as [n Hn].
      apply next_of_Some in Hn as (zd & Hzd & _).
      unfold parent_at. by rewrite (Hz1 x zd (eq_sym Hxz) Hzd), Hzd.
    - by destruct (place_at_eq _ _ _ (Hplace x Hxn Hxz)) as (_ & -> & _). }
  apply sound_intro.
  - destruct (sound_root _ Hs) as (rd & Hrd & Hrp).
    pose proof (Hparent (root w0)) as E. unfold parent_at in E.
    rewrite Hrd, Hrp in E.
    destruct (heap w1 !! root w0) as [rd1|] eqn:Hrd1.
    + exists rd1. by rewrite Hroot.
    + exfalso. destruct (decide (root w0 = new)) as [En|En].
      { rewrite En in Hrd. congruence. }
      destruct (decide (Some (root w0) = last l)) as [Ez|Ez].
      { destruct (Hzp _ (eq_sym Ez)) as (_ & _ & Hin).
        pose proof (Hparl _ Hin) as E2. unfold parent_at in E2.
        rewrite Hrd in E2. congruence. }
      pose proof (Hplace _ En Ez) as E3. unfold place_at in E3.
      by rewrite Hrd1, Hrd in E3.
  - intros c q. rewrite Hparent. by apply (sound_order w0).
  - intros q qd1 Hq1.
    destruct (decide (q = p)) as [->|Hqp].
    + (* the parent of the new node *)
      rewrite Hp1 in Hq1. injection Hq1 as <-.
      exists (l ++ [new]).
      assert (Hold : forall c, c ∈ l -> c <> new /\ (Some c <> last l ->
                place_at w1 c = place_at w0 c)).
      { intros c Hin. assert (c <> new) by (by intros ->).
        split; [done|]. by apply Hplace. }
      repeat apply conj.
      * destruct (last l) as [z|] eqn:Hz.
        -- destruct (Hzp z eq_refl) as (Hzp1 & Hzn & Hzin).
           destruct (chain_elem _ _ _ _ Hc Hzin) as [n Hn].
           apply next_of_Some in Hn as (zd & Hzd & _).
           assert (child (match l with [] => set_child (Some new) pd
                          | _ => pd end) = child pd) as ->.
           { by destruct l. }
           eapply chain_snoc; [done|done| | |].
           ++ unfold next_of. by rewrite (Hz1 z zd eq_refl Hzd).
           ++ unfold next_of. rewrite Hnew1. simpl. by rewrite Hnext0.
           ++ intros c Hin Hcz. destruct (Hold c Hin) as [_ Hpl].
              by destruct (place_at_eq _ _ _ (Hpl ltac:(congruence)))
                as (-> & _).
        -- apply last_None in Hz as ->. simpl.
           econstructor; [|constructor].
           unfold next_of. rewrite Hnew1. simpl. by rewrite Hnext0.
      * intros c [Hin| ->%list_elem_of_singleton]%elem_of_app.
        -- rewrite Hparent. by apply Hparl.
        -- rewrite Hparent. unfold parent_at. by rewrite Hnew.
      * rewrite map_app. simpl.
        assert (Hnm : forall x, name_at w1 x = name_at w0 x).
        { intros x. destruct (decide (x = new)) as [->|Hxn].
          { unfold name_at. by rewrite Hnew1, Hnew. }
          destruct (decide (Some x = last l)) as [Hxz|Hxz].
          - destruct (Hzp x (eq_sym Hxz)) as (_ & _ & Hin).
            destruct (chain_elem _ _ _ _ Hc Hin) as [n Hn].
            apply next_of_Some in Hn as (zd & Hzd & _).
            unfold name_at. by rewrite (Hz1 x zd (eq_sym Hxz) Hzd), Hzd.
          - by destruct (place_at_eq _ _ _ (Hplace x Hxn Hxz))
              as (_ & _ & -> & _). }
        assert (map (name_at w1) l = map (name_at w0) l) as ->.
        { apply map_ext. intros; apply Hnm. }
        apply NoDup_app. repeat apply conj; [done| |apply NoDup_singleton].
        intros nm Hin ->%list_elem_of_singleton.
        apply list_elem_of_fmap in Hin as (c & Hcn & Hin).
        apply (Hnames c Hin). rewrite <- Hcn. rewrite Hnm.
        unfold name_at. by rewrite Hnew.
      * apply linked_snoc; [|done|].
        -- eapply linked_same; [done|]. intros c Hin.
           destruct (decide (Some c = last l)) as [Hcz|Hcz].
           ++ destruct (chain_elem _ _ _ _ Hc Hin) as [n Hn].
              apply next_of_Some in Hn as (zd & Hzd & _).
              by rewrite (Hz1 c zd (eq_sym Hcz) Hzd), Hzd.
           ++ destruct (Hold c Hin) as [_ Hpl].
              by destruct (place_at_eq _ _ _ (Hpl Hcz)) as (_ & _ & _ & ->).
        -- rewrite Hnew1. simpl. by destruct (last l).
    + (* any other node *)
      assert (exists qd, heap w0 !! q = Some qd /\ child qd1 = child qd)
        as (qd & Hq & Hch).
      { destruct (decide (q = new)) as [->|Hqn].
        { rewrite Hnew1 in Hq1. injection Hq1 as <-. eauto. }
        destruct (decide (Some q = last l)) as [Hqz|Hqz].
        - destruct (Hzp q (eq_sym Hqz)) as (_ & _ & Hin).
          destruct (chain_elem _ _ _ _ Hc Hin) as [n Hn].
          apply next_of_Some in Hn as (zd & Hzd & _).
          rewrite (Hz1 q zd (eq_sym Hqz) Hzd) in Hq1. injection Hq1 as <-.
          eauto.
        - rewrite Hframe in Hq1 by done. eauto. }
      eapply node_same; [done|done|done|].
      intros c Hcq. apply Hplace.
      * intros ->. unfold parent_at in Hcq. rewrite Hnew in Hcq. congruence.
      * intros Hcz. destruct (Hzp c (eq_sym Hcz)) as (_ & _ & Hin).
        rewrite (Hparl c Hin) in Hcq. congruence.
Qed.

(** *** States with the same links and names *)
Lemma sound_same_links w w' :
  sound w -> root w' = root w ->
  (forall x, place_at w' x = place_at w x) ->
  (forall x, child <$> heap w' !! x = child <$> heap w !! x) ->
  sound w'.
Proof.
  intros Hs Hroot Hplace Hchild. apply sound_intro.
  - destruct (sound_root _ Hs) as (rd & Hrd & Hrp). rewrite Hroot.
    destruct (place_at_eq _ _ _ (Hplace (root w))) as (_ & E & _).
    unfold parent_at in E. rewrite Hrd, Hrp in E.
    pose proof (Hchild (root w)) as E2. rewrite Hrd in E2.
    destruct (heap w' !! root w) as [rd'|]; [eauto|done].
  - intros c p.
    destruct (place_at_eq _ _ _ (Hplace c)) as (_ & -> & _).
    by apply sound_order.
  - intros q qd' Hq'. pose proof (Hchild q) as E. rewrite Hq' in E.
    destruct (heap w !! q) as [qd|] eqn:Hq; [|done]. simpl in E.
    eapply node_same; [done|done|congruence|]. intros c _. apply Hplace.
Qed.

Lemma sound_setattr w node nd f :
  sound w -> heap w !! node = Some nd ->
  parent (f nd) = parent nd -> child (f nd) = child nd ->
  sibling_prev (f nd) = sibling_prev nd ->
  sibling_next (f nd) = sibling_next nd -> name (f nd) = name nd ->
  sound (with_heap (<[node := f nd]> (heap w)) w).
Proof.
  intros Hs Hnode H1 H2 H3 H4 H5.
  pose proof (lookup_lt_Some _ _ _ Hnode) as Hlt.
  apply (sound_same_links w); [done|done| |].
  - intros x. unfold place_at. cbn [heap with_heap].
    destruct (decide (x = node)) as [->|Hne].
    + rewrite list_lookup_insert_eq by done. rewrite Hnode. simpl.
      by rewrite H1, H3, H4, H5.
    + by rewrite list_lookup_insert_ne.
  - intros x. cbn [heap with_heap].
    destruct (decide (x = node)) as [->|Hne].
    + rewrite list_lookup_insert_eq by done. rewrite Hnode. simpl.
      by rewrite H2.
    + by rewrite list_lookup_insert_ne.
Qed.

(** *** The loops, whatever the fuel *)
Lemma _create_node_loop_Ok fuel w c l z :
  chain (next_of w) (Some c) l -> _create_node_loop fuel w c = Ok z ->
  last l = Some z.
Proof.
  revert c l. induction fuel as [|fuel IH]; intros c l Hc;
    apply chain_head in Hc as (cd & l' & -> & Hcd & Hc);
    rewrite _create_node_loop_eq, (get_Ok _ _ _ Hcd); simpl;
    destruct (sibling_next cd) as [c2|] eqn:Hn; try done.
  - apply chain_None in Hc as ->. by intros [= ->].
  - intros H. pose proof Hc as (? & l2 & -> & _)%chain_head.
    rewrite last_cons_cons. by eapply IH.
  - apply chain_None in Hc as ->. by intros [= ->].
Qed.

Lemma create_item_loop_Ok fuel w f l name :
  chain (next_of w) f l -> create_item_loop fuel w f name = Ok tt ->
  forall c, c ∈ l -> name_at w c <> name.
Proof.
  intros H. revert fuel. induction H as [|c n l Hn _ IH]; intros fuel Hrun.
  - intros c Hin. by apply elem_of_nil in Hin.
  - destruct fuel as [|fuel]; simpl in Hrun; [done|].
    apply next_of_Some in Hn as (cd & Hcd & <-).
    rewrite (get_Ok _ _ _ Hcd) in Hrun. simpl in Hrun.
    destruct (String.eqb_spec (Win.name cd) name) as [|Hne]; [done|].
    intros x [->|Hin]%elem_of_cons.
    + unfold name_at. by rewrite Hcd.
    + by eapply IH.
Qed.

(** *** [_create_node] *)
Lemma _create_node_sound fuel name isdir p t1 t2 w pd l r w' :
  sound w -> heap w !! p = Some pd ->
  chain (next_of w) (child pd) l ->
  (forall c, c ∈ l -> name_at w c <> name) ->
  _create_node fuel name isdir p t1 t2 w = (r, w') ->
  sound w'
  /\ match r with
     | Ok new => exists nd, heap w' !! new = Some nd
     | _ => True
     end.
Proof.
  intros Hs Hp Hc Hnames.
  pose proof (lookup_lt_Some _ _ _ Hp) as Hplt.
  set (nd0 := new_FileNode name isdir (Some p) t1 t2).
  set (new := length (heap w)).
  set (w0 := with_heap (heap w ++ [nd0]) w).
  assert (Hs0 : sound w0) by (by eapply sound_alloc).
  assert (Hold : forall x, x < new -> heap w0 !! x = heap w !! x).
  { intros x Hx. unfold w0. cbn [heap with_heap]. by rewrite lookup_app_l. }
  assert (Hnew0 : heap w0 !! new = Some nd0).
  { unfold w0. cbn [heap with_heap]. by apply list_lookup_middle. }
  assert (Hlen0 : length (heap w0) = S new).
  { unfold w0. cbn [heap with_heap]. rewrite length_app. simpl. lia. }
  assert (Hp0 : heap w0 !! p = Some pd) by (by rewrite Hold).
  assert (Hc0 : chain (next_of w0) (child pd) l).
  { eapply chain_grow; [done|]. intros x Hx. unfold next_of.
    by rewrite Hold. }
  assert (Hnl : new ∉ l).
  { intros Hin. pose proof (chain_in_heap _ _ _ _ Hc Hin). unfold new in *.
    lia. }
  assert (Hnames0 : forall c, c ∈ l -> name_at w0 c <> Win.name nd0).
  { intros c Hin. unfold name_at. rewrite Hold.
    - by apply Hnames.
    - by eapply chain_in_heap. }
  assert (Hpnew : p <> new) by (unfold new; lia).
  unfold _create_node. rewrite bind_alloc. fold nd0 new w0.
  rewrite (bind_getM _ _ _ _ Hp0).
  destruct (child pd) as [c|] eqn:Hchild.
  - destruct (_create_node_loop fuel w0 c) as [z| |] eqn:Hloop.
    + rewrite (bind_reads_Ok (fun w => _create_node_loop fuel w c) _ w0 z Hloop).
      pose proof (_create_node_loop_Ok _ _ _ _ _ Hc0 Hloop) as Hz.
      assert (z ∈ l) as Hzin.
      { apply last_Some in Hz as [l' ->]. apply elem_of_app. right. by left. }
      destruct (chain_elem _ _ _ _ Hc0 Hzin) as [n Hn].
      apply next_of_Some in Hn as (zd & Hzd & _).
      pose proof (lookup_lt_Some _ _ _ Hzd) as Hzlt.
      assert (Hzn : z <> new) by (by intros ->).
      rewrite (bind_setattr _ _ _ _ _ Hzd).
      erewrite bind_setattr
        by (cbn [heap with_heap]; by rewrite list_lookup_insert_ne).
      unfold ret. intros [= <- <-]. split.
      * assert (p <> z).
        { intros ->. destruct (sound_node _ _ _ Hs0 Hp0)
            as (l' & Hc' & Hparl & _).
          rewrite Hchild in Hc'.
          rewrite <- (chain_fun _ _ _ _ Hc0 Hc') in Hparl.
          pose proof (sound_order _ _ _ Hs0 (Hparl _ Hzin)). lia. }
        eapply (sound_link w0 _ p pd new nd0 l);
          [exact Hs0|done|exact Hp0|exact Hnew0|done|done|done
          |by rewrite Hchild|exact Hnl|exact Hnames0|..];
          cbn [heap with_heap]; change (heap w ++ [nd0]) with (heap w0).
        -- rewrite !list_lookup_insert_ne by done.
           rewrite Hp0. by destruct l.
        -- rewrite list_lookup_insert_eq by (rewrite length_insert, Hlen0; lia).
           by rewrite Hz.
        -- intros z' zd' Hz' Hzd'. rewrite Hz in Hz'. injection Hz' as <-.
           rewrite list_lookup_insert_ne by done.
           rewrite list_lookup_insert_eq by done. congruence.
        -- intros x Hx1 Hx2 Hx3. rewrite Hz in Hx3.
           rewrite !list_lookup_insert_ne by congruence. done.
      * cbn [heap with_heap]. change (heap w ++ [nd0]) with (heap w0).
        eexists. apply list_lookup_insert_eq. rewrite length_insert, Hlen0.
        lia.
    + pose proof (quiet__create_node_loop fuel w0 c) as Hq.
      by rewrite Hloop in Hq.
    + unfold bind, reads. rewrite Hloop. by intros [= <- <-].
  - apply chain_None in Hc0 as Hl. subst l.
    rewrite (bind_setattr _ _ _ _ _ Hp0). unfold ret. intros [= <- <-].
    split.
    + eapply (sound_link w0 _ p pd new nd0 []);
        [exact Hs0|done|exact Hp0|exact Hnew0|done|done|done
        |rewrite Hchild; constructor|apply not_elem_of_nil
        |by intros c ?%elem_of_nil|..];
        cbn [heap with_heap]; change (heap w ++ [nd0]) with (heap w0).
      * apply list_lookup_insert_eq. by eapply lookup_lt_Some.
      * rewrite list_lookup_insert_ne by done. done.
      * intros z zd [=].
      * intros x Hx1 Hx2 _. by rewrite list_lookup_insert_ne.
    + cbn [heap with_heap]. change (heap w ++ [nd0]) with (heap w0).
      exists nd0. rewrite list_lookup_insert_ne by done. done.
Qed.

(** *** What keeps a property of the state *)
Lemma keeps_ret {S A} (P : S -> Prop) (a : A) : keeps P (ret a).
Proof. by intros s r s' HP [= _ <-]. Qed.

Lemma keeps_reads {S A} (P : S -> Prop) (f : S -> res A) : keeps P (reads f).
Proof. by intros s r s' HP [= _ <-]. Qed.

Lemma keeps_stuck {S A} (P : S -> Prop) : keeps P (@stuck S A).
Proof. by intros s r s' HP [= _ <-]. Qed.

Lemma keeps_bind {S A B} (P : S -> Prop) (m : M S A) (k : A -> M S B) :
  keeps P m -> (forall a, keeps P (k a)) -> keeps P (bind m k).
Proof.
  intros Hm Hk s r s' HP. unfold bind.
  destruct (m s) as [[a|e|] s1] eqn:E; pose proof (Hm _ _ _ HP E).
  - by apply Hk.
  - by intros [= _ <-].
  - by intros [= _ <-].
Qed.

(** The same, when what follows needs what was read. *)
Lemma keeps_bind_reads {S A B} (P : S -> Prop) (f : S -> res A)
    (k : A -> M S B) s r s' :
  (forall a, f s = Ok a -> k a s = (r, s') -> P s') ->
  P s -> bind (reads f) k s = (r, s') -> P s'.
Proof.
  intros Hk HP. unfold bind, reads. destruct (f s) as [a|e|] eqn:E.
  - by apply Hk.
  - by intros [= _ <-].
  - by intros [= _ <-].
Qed.

Lemma keeps_try_except (P : world -> Prop) body :
  keeps P body -> keeps P (try_except body).
Proof.
  intros Hb s r s' HP. unfold try_except.
  destruct (body s) as [[a|e|] s1] eqn:E; pose proof (Hb _ _ _ HP E);
    by intros [= _ <-].
Qed.

(** [sound] looks at the store and at the root only. *)
Lemma sound_with w w' :
  sound w -> heap w' = heap w -> root w' = root w -> sound w'.
Proof.
  intros Hs Hh Hr. apply (sound_same_links w); [done|done| |].
  - intros x. unfold place_at. by rewrite Hh.
  - intros x. by rewrite Hh.
Qed.

Lemma keeps_modify (f : world -> world) :
  (forall w, heap (f w) = heap w /\ root (f w) = root w) ->
  keeps sound (modify f).
Proof.
  intros Hf s r s' Hs [= _ <-]. destruct (Hf s). by eapply sound_with.
Qed.

Lemma keeps_setattr node f :
  (forall nd, parent (f nd) = parent nd /\ child (f nd) = child nd
              /\ sibling_prev (f nd) = sibling_prev nd
              /\ sibling_next (f nd) = sibling_next nd
              /\ name (f nd) = name nd) ->
  keeps sound (setattr node f).
Proof.
  intros Hf s r s' Hs. unfold setattr.
  destruct (heap s !! node) as [nd|] eqn:Hnd; intros [= _ <-]; [|done].
  destruct (Hf nd) as (? & ? & ? & ? & ?). by apply sound_setattr.
Qed.

Lemma keeps_open_file fuel node edit : keeps sound (open_file fuel node edit).
Proof.
  unfold open_file. apply keeps_bind; [apply keeps_reads|]. intros nd.
  destruct (isdir nd); [apply keeps_ret|].
  destruct edit as [[text now]|]; [|apply keeps_ret].
  apply keeps_bind.
  { unfold save_content. apply keeps_bind.
    - by apply keeps_setattr.
    - intros _. by apply keeps_setattr. }
  intros _. apply keeps_bind; [apply keeps_reads|]. intros p.
  apply keeps_bind; [apply keeps_reads|]. intros i. apply keeps_ret.
Qed.

Lemma keeps_create_item fuel p isdir name ok t1 t2 edit :
  keeps sound (create_item fuel p isdir name ok t1 t2 edit).
Proof.
  unfold create_item. destruct (negb ok || negb (truthy name));
    [apply keeps_ret|].
  apply keeps_try_except. intros w r w' Hs.
  unfold getM. apply keeps_bind_reads; [|done]. intros pd Hpd%get_inv.
  destruct (sound_node _ _ _ Hs Hpd) as (l & Hc & _).
  apply keeps_bind_reads; [|done]. intros [] Hscan.
  pose proof (create_item_loop_Ok _ _ _ _ _ Hc Hscan) as Hnames.
  unfold bind.
  destruct (_create_node fuel name isdir p t1 t2 w) as [[new|e|] w1] eqn:E;
    destruct (_create_node_sound _ _ _ _ _ _ _ _ _ _ _ Hs Hpd Hc Hnames E)
      as [Hs1 _].
  - destruct (negb isdir).
    + by apply keeps_open_file.
    + by intros [= _ <-].
  - by intros [= _ <-].
  - by intros [= _ <-].
Qed.

(** *** [rename_item] *)
Lemma rename_item_loop_Ok fuel w node f l new_name :
  chain (next_of w) f l ->
  rename_item_loop fuel w node f new_name = Ok tt ->
  forall s, s ∈ l -> s <> node -> name_at w s <> new_name.
Proof.
  intros H. revert fuel. induction H as [|c n l Hn _ IH]; intros fuel Hrun.
  - intros c Hin. by apply elem_of_nil in Hin.
  - destruct fuel as [|fuel]; simpl in Hrun; [done|].
    apply next_of_Some in Hn as (cd & Hcd & <-).
    rewrite (get_Ok _ _ _ Hcd) in Hrun. simpl in Hrun.
    destruct (negb (Nat.eqb c node) && String.eqb (name cd) new_name)
      eqn:Hriv; [done|].
    intros x [->|Hin]%elem_of_cons Hx.
    + unfold name_at. rewrite Hcd. intros Heq.
      apply andb_false_iff in Hriv as [Hriv|Hriv].
      * apply negb_false_iff, Nat.eqb_eq in Hriv. done.
      * apply String.eqb_neq in Hriv. done.
    + by eapply IH.
Qed.

(** Giving one of the nodes a name that none of the others bears. *)
Lemma NoDup_rename (f g : nat -> string) node v l :
  NoDup (map f l) -> NoDup l ->
  (forall s, s ∈ l -> s <> node -> f s <> v) ->
  (forall s, s <> node -> g s = f s) -> g node = v ->
  NoDup (map g l).
Proof.
  intros Hf Hl Hv Hg Hgn. induction l as [|x l IH]; simpl in *; [done|].
  apply NoDup_cons in Hf as [Hx Hf]. apply NoDup_cons in Hl as [Hxl Hl].
  apply NoDup_cons. split.
  - intros (s & Hs & Hin)%list_elem_of_fmap.
    destruct (decide (x = node)) as [->|Hxn].
    + assert (s <> node) by (by intros ->).
      apply (Hv s); [by right|done|]. by rewrite <- Hg, <- Hs.
    + rewrite (Hg x Hxn) in Hs.
      destruct (decide (s = node)) as [->|Hsn].
      * apply (Hv x); [by left|done|]. by rewrite Hs.
      * rewrite (Hg s Hsn) in Hs. apply Hx. rewrite Hs.
        by apply list_elem_of_fmap_2.
  - apply IH; [done|done|]. intros s Hs. apply Hv. by right.
Qed.

Lemma sound_rename w node nd new_name :
  sound w -> heap w !! node = Some nd ->
  (forall p pd l, parent nd = Some p -> heap w !! p = Some pd ->
   chain (next_of w) (child pd) l ->
   forall s, s ∈ l -> s <> node -> name_at w s <> new_name) ->
  sound (with_heap (<[node := set_name new_name nd]> (heap w)) w).
Proof.
  intros Hs Hnode Hriv.
  pose proof (lookup_lt_Some _ _ _ Hnode) as Hlt.
  set (w' := with_heap _ w).
  assert (Hlook : forall x, heap w' !! x
            = if decide (x = node) then Some (set_name new_name nd)
              else heap w !! x).
  { intros x. unfold w'. cbn [heap with_heap]. case_decide as Hd.
    - subst. by apply list_lookup_insert_eq.
    - by apply list_lookup_insert_ne. }
  assert (Hnext : forall x, next_of w' x = next_of w x).
  { intros x. unfold next_of. rewrite Hlook. case_decide; [|done].
    subst. by rewrite Hnode. }
  assert (Hparent : forall x, parent_at w' x = parent_at w x).
  { intros x. unfold parent_at. rewrite Hlook. case_decide; [|done].
    subst. by rewrite Hnode. }
  assert (Hprev : forall x, sibling_prev <$> heap w' !! x
                            = sibling_prev <$> heap w !! x).
  { intros x. rewrite Hlook. case_decide; [|done]. subst. by rewrite Hnode. }
  apply sound_intro.
  - destruct (sound_root _ Hs) as (rd & Hrd & Hrp).
    change (root w') with (root w). rewrite Hlook. case_decide as Hd.
    + eexists. split; [done|]. rewrite Hd in Hrd. simpl. congruence.
    + eauto.
  - intros c p. rewrite Hparent. by apply sound_order.
  - intros q qd' Hq'.
    assert (exists qd, heap w !! q = Some qd /\ child qd' = child qd)
      as (qd & Hq & Hch).
    { rewrite Hlook in Hq'. case_decide as Hd.
      - injection Hq' as <-. subst. eauto.
      - eauto. }
    destruct (sound_node _ _ _ Hs Hq) as (l & Hc & Hpar & Hnd & Hl).
    exists l. rewrite Hch. repeat apply conj.
    + eapply chain_ext; [done|]. intros; apply Hnext.
    + intros c Hin. rewrite Hparent. by apply Hpar.
    + destruct (decide (node ∈ l)) as [Hin|Hout].
      * eapply (NoDup_rename (name_at w) (name_at w') node new_name);
          [done|by eapply chain_NoDup| | |].
        -- eapply Hriv; [|done|done].
           pose proof (Hpar _ Hin) as E. unfold parent_at in E.
           by rewrite Hnode in E.
        -- intros s Hsn. unfold name_at. rewrite Hlook.
           by rewrite decide_False.
        -- unfold name_at. rewrite Hlook. by rewrite decide_True.
      * assert (map (name_at w') l = map (name_at w) l) as ->; [|done].
        apply map_ext_in. intros c Hc'%list_elem_of_In.
        unfold name_at. rewrite Hlook. rewrite decide_False; [done|].
        by intros ->.
    + eapply linked_same; [done|]. intros; apply Hprev.
Qed.

Lemma keeps_rename_item fuel node new_name ok :
  keeps sound (rename_item fuel node new_name ok).
Proof.
  unfold rename_item. destruct (negb ok || negb (truthy new_name));
    [apply keeps_ret|].
  apply keeps_try_except. intros w r w' Hs.
  unfold getM. apply keeps_bind_reads; [|done]. intros nd Hnd%get_inv.
  apply keeps_bind_reads; [|done]. intros pd Hpd.
  apply keeps_bind_reads; [|done]. intros [] Hscan.
  rewrite (setattr_Ok _ _ _ _ Hnd). intros [= _ <-].
  apply sound_rename; [done|done|].
  intros p pd' l Hp Hpd' Hc. rewrite Hp in Hpd. simpl in Hpd.
  apply get_inv in Hpd. assert (pd' = pd) as -> by congruence.
  by eapply rename_item_loop_Ok.
Qed.

(** *** [remove_node] *)
Lemma remove_node_loop_Some fuel w node f l c :
  chain (next_of w) f l ->
  FileSystemModel.remove_node_loop fuel w node f = Ok (Some c) ->
  c = node /\ node ∈ l.
Proof.
  intros H. revert fuel. induction H as [|x n l Hn _ IH]; intros fuel Hrun.
  - by destruct fuel.
  - apply next_of_Some in Hn as (xd & Hxd & <-).
    assert (Hstep : (if Nat.eqb x node then Ok (Some x)
                     else match fuel with
                          | 0 => Stuck
                          | S fuel => FileSystemModel.remove_node_loop fuel w
                                        node (sibling_next xd)
                          end) = Ok (Some c)).
    { destruct fuel; simpl in Hrun; [done|].
      by rewrite (get_Ok _ _ _ Hxd) in Hrun. }
    destruct (Nat.eqb_spec x node) as [->|Hne].
    + injection Hstep as <-. split; [done|by left].
    + destruct fuel as [|fuel]; [done|].
      destruct (IH _ Hstep) as [-> Hin]. split; [done|by right].
Qed.

Lemma linked_middle w prev l1 c l2 :
  linked w prev (l1 ++ c :: l2) ->
  sibling_prev <$> heap w !! c = Some (from_option Some prev (last l1))
  /\ linked w prev l1
  /\ linked w (Some c) l2.
Proof.
  revert prev. induction l1 as [|x l1 IH]; intros prev; simpl.
  - intros [Hc Hl]. done.
  - intros [Hx Hl]. destruct (IH _ Hl) as (Hc & Hl1 & Hl2).
    repeat apply conj; try done.
    destruct l1 as [|y l1]; [done|]. rewrite last_cons_cons.
    destruct (last (y :: l1)) eqn:E; [done|]. by apply last_None in E.
Qed.

Lemma linked_join w prev l1 l2 :
  linked w prev l1 -> linked w (from_option Some prev (last l1)) l2 ->
  linked w prev (l1 ++ l2).
Proof.
  revert prev. induction l1 as [|x l1 IH]; intros prev; simpl; [done|].
  intros [Hx Hl] H2. split; [done|]. apply IH; [done|].
  destruct l1 as [|y l1]; [done|]. rewrite last_cons_cons in H2.
  destruct (last (y :: l1)) eqn:E; [done|]. by apply last_None in E.
Qed.

Lemma keeps_remove_node fuel i node :
  keeps sound (FileSystemModel.remove_node fuel i node).
Proof.
  intros w r w' Hs. unfold FileSystemModel.remove_node.
  apply keeps_bind_reads; [|done]. intros o [= <-].
  apply keeps_bind_reads; [|done]. intros pd Hpd.
  apply keeps_bind_reads; [|done]. intros cur Hloop.
  destruct cur as [c|]; [|by intros [= _ <-]].
  destruct (FileSystemModel.pointer_or_current w i) as [par|] eqn:Hi;
    [|done].
  simpl in Hpd. apply get_inv in Hpd.
  destruct (sound_node _ _ _ Hs Hpd) as (l & Hc & Hpar & Hnames & Hl).
  destruct (remove_node_loop_Some _ _ _ _ _ _ Hc Hloop) as [-> Hin].
  apply list_elem_of_split in Hin as (l1 & l2 & ->).
  destruct (chain_elem _ _ _ node Hc) as [n Hn].
  { apply elem_of_app. right. by left. }
  apply next_of_Some in Hn as (nd & Hnode & _).
  pose proof (chain_NoDup _ _ _ Hc) as Hdup.
  assert (Hpl : forall c, c ∈ l1 ++ node :: l2 -> par < c).
  { intros c Hin. by apply (sound_order w), Hpar. }
  assert (Hnp : node <> par).
  { intros ->. pose proof (Hpl par). rewrite elem_of_app, elem_of_cons in H.
    specialize (H ltac:(tauto)). lia. }
  assert (Hpar_out : par ∉ l1 ++ node :: l2).
  { intros Hin. pose proof (Hpl _ Hin). lia. }
  destruct (linked_middle _ _ _ _ _ Hl) as (Hprev & Hl1 & Hl2).
  assert (Hprev' : sibling_prev nd = last l1).
  { rewrite Hnode in Hprev. simpl in Hprev. injection Hprev as ->.
    by destruct (last l1). }
  destruct (remove_node_splice fuel w i par pd node nd l1 l2)
    as (w1 & Hrun & Hlist & Hnode1 & Hpar1 & Hz1 & Hnx1 & Hframe & Hw1);
    [done|done|done|done|by apply NoDup_cons|done|done|done|].
  unfold FileSystemModel.remove_node in Hrun.
  rewrite (bind_reads_Ok
             (fun w => Ok (FileSystemModel.pointer_or_current w i)) _ w
             (Some par)) in Hrun by (by rewrite Hi).
  rewrite (bind_reads_Ok
             (fun w => FileSystemModel.deref w (Some par)) _ w pd) in Hrun
    by (by apply get_Ok).
  rewrite (bind_reads_Ok
             (fun w => FileSystemModel.remove_node_loop fuel w node (child pd))
             _ w (Some node) Hloop) in Hrun.
  cbv beta iota in Hrun. rewrite Hrun. intros [= _ <-].
  (* the state after the splice *)
  apply NoDup_app in Hdup as (Hdup1 & Hdisj & Hdup2).
  apply NoDup_cons in Hdup2 as [Hn2 Hdup2].
  assert (Hn1 : node ∉ l1).
  { intros Hin. eapply Hdisj; [done|]. by left. }
  assert (Hsib : forall c, c ∈ l1 ++ l2 -> c <> node /\ c <> par
                           /\ parent_at w c = Some par).
  { intros c Hin. repeat apply conj.
    - intros ->. apply elem_of_app in Hin as [?|?]; done.
    - intros ->. apply Hpar_out. rewrite elem_of_app, elem_of_cons.
      apply elem_of_app in Hin. tauto.
    - apply Hpar. rewrite elem_of_app, elem_of_cons.
      apply elem_of_app in Hin. tauto. }
  assert (Hlast : forall z, last l1 = Some z -> z ∈ l1).
  { intros z Hz. apply last_Some in Hz as [l' ->]. apply elem_of_app.
    right. by left. }
  assert (Hhead : forall nx, head l2 = Some nx -> nx ∈ l2).
  { intros nx Hnx. clear -Hnx. destruct l2; simpl in Hnx; simplify_eq.
    by left. }
  assert (Hz_in : forall z, last l1 = Some z ->
            exists zd, heap w !! z = Some zd /\ z <> node /\ z <> par
                       /\ parent_at w z = Some par).
  { intros z Hz. destruct (Hsib z) as (? & ? & ?).
    { apply elem_of_app. left. by apply Hlast. }
    destruct (chain_elem _ _ _ z Hc) as [n' Hn].
    { apply elem_of_app. left. by apply Hlast. }
    apply next_of_Some in Hn as (zd & Hzd & _). eauto. }
  assert (Hnx_in : forall nx, head l2 = Some nx ->
            exists nxd, heap w !! nx = Some nxd /\ nx <> node /\ nx <> par
                        /\ parent_at w nx = Some par).
  { intros nx Hnx. destruct (Hsib nx) as (? & ? & ?).
    { apply elem_of_app. right. by apply Hhead. }
    destruct (chain_elem _ _ _ nx Hc) as [n' Hn].
    { apply elem_of_app. right. right. by apply Hhead. }
    apply next_of_Some in Hn as (nxd & Hnxd & _). eauto. }
  (* what the splice leaves as it was *)
  assert (Hplace : forall x, x <> node -> Some x <> last l1 ->
            Some x <> head l2 -> place_at w1 x = place_at w x).
  { intros x Hxn Hxz Hxnx. destruct (decide (x = par)) as [->|Hxp].
    - eapply place_at_set; [done..| | | |]; by destruct l1.
    - apply place_at_lookup. by apply Hframe. }
  assert (Hchild : forall x, x <> par ->
            child <$> heap w1 !! x = child <$> heap w !! x).
  { intros x Hxp. destruct (decide (x = node)) as [->|Hxn].
    { by rewrite Hnode1, Hnode. }
    destruct (decide (Some x = last l1)) as [Hxz|Hxz].
    { destruct (Hz_in x (eq_sym Hxz)) as (zd & Hzd & _).
      by rewrite (Hz1 x zd (eq_sym Hxz) Hzd), Hzd. }
    destruct (decide (Some x = head l2)) as [Hxnx|Hxnx].
    { destruct (Hnx_in x (eq_sym Hxnx)) as (nxd & Hnxd & _).
      by rewrite (Hnx1 x nxd (eq_sym Hxnx) Hnxd), Hnxd. }
    by rewrite Hframe. }
  assert (Hparent : forall x, x <> node -> parent_at w1 x = parent_at w x).
  { intros x Hxn. unfold parent_at.
    destruct (decide (Some x = last l1)) as [Hxz|Hxz].
    { destruct (Hz_in x (eq_sym Hxz)) as (zd & Hzd & _).
      by rewrite (Hz1 x zd (eq_sym Hxz) Hzd), Hzd. }
    destruct (decide (Some x = head l2)) as [Hxnx|Hxnx].
    { destruct (Hnx_in x (eq_sym Hxnx)) as (nxd & Hnxd & _).
      by rewrite (Hnx1 x nxd (eq_sym Hxnx) Hnxd), Hnxd. }
    by destruct (place_at_eq _ _ _ (Hplace x Hxn Hxz Hxnx)) as (_ & E & _). }
  assert (Hname : forall x, name_at w1 x = name_at w x).
  { intros x. unfold name_at. destruct (decide (x = node)) as [->|Hxn].
    { by rewrite Hnode1, Hnode. }
    destruct (decide (Some x = last l1)) as [Hxz|Hxz].
    { destruct (Hz_in x (eq_sym Hxz)) as (zd & Hzd & _).
      by rewrite (Hz1 x zd (eq_sym Hxz) Hzd), Hzd. }
    destruct (decide (Some x = head l2)) as [Hxnx|Hxnx].
    { destruct (Hnx_in x (eq_sym Hxnx)) as (nxd & Hnxd & _).
      by rewrite (Hnx1 x nxd (eq_sym Hxnx) Hnxd), Hnxd. }
    by destruct (place_at_eq _ _ _ (Hplace x Hxn Hxz Hxnx))
      as (_ & _ & E & _). }
  assert (Hprev1 : forall x, x <> node -> Some x <> head l2 ->
            sibling_prev <$> heap w1 !! x = sibling_prev <$> heap w !! x).
  { intros x Hxn Hxnx. destruct (decide (Some x = last l1)) as [Hxz|Hxz].
    { destruct (Hz_in x (eq_sym Hxz)) as (zd & Hzd & _).
      by rewrite (Hz1 x zd (eq_sym Hxz) Hzd), Hzd. }
    by destruct (place_at_eq _ _ _ (Hplace x Hxn Hxz Hxnx))
      as (_ & _ & _ & E). }
  assert (Hroot1 : root w1 = root w) by (by rewrite <- Hw1).
  apply sound_intro.
  - destruct (sound_root _ Hs) as (rd & Hrd & Hrp). rewrite Hroot1.
    assert (root w <> node) as Hrn.
    { intros E. rewrite E in Hrd. assert (parent_at w node = Some par) as E2.
      { apply Hpar. apply elem_of_app. right. by left. }
      unfold parent_at in E2. rewrite Hrd in E2. congruence. }
    pose proof (Hparent _ Hrn) as E. unfold parent_at in E.
    rewrite Hrd, Hrp in E.
    destruct (decide (root w = par)) as [Erp|Erp].
    + rewrite Erp, Hpar1. eexists. split; [done|].
      rewrite Erp in Hrd. assert (rd = pd) as -> by congruence.
      by destruct l1.
    + pose proof (Hchild _ Erp) as E2. rewrite Hrd in E2.
      destruct (heap w1 !! root w) as [rd1|]; [eauto|done].
  - intros c p Hcp. destruct (decide (c = node)) as [->|Hcn].
    { unfold parent_at in Hcp. by rewrite Hnode1 in Hcp. }
    rewrite Hparent in Hcp by done. by apply (sound_order w).
  - intros q qd1 Hq1. destruct (decide (q = par)) as [->|Hqp].
    + (* the parent keeps the other children *)
      apply listChildren_inv in Hlist as (pd1 & Hpd1 & Hc1 & _).
      assert (pd1 = qd1) as -> by congruence.
      exists (l1 ++ l2). repeat apply conj; [done| | |].
      * intros c Hin. destruct (Hsib c Hin) as (? & ? & ?).
        by rewrite Hparent.
      * assert (map (name_at w1) (l1 ++ l2) = map (name_at w) (l1 ++ l2))
          as ->.
        { apply map_ext. intros; apply Hname. }
        rewrite map_app in Hnames |- *. simpl in Hnames.
        apply NoDup_app in Hnames as (Hna & Hnb & Hnc).
        apply NoDup_cons in Hnc as [_ Hnc].
        apply NoDup_app. repeat apply conj; [done| |done].
        intros nm Hin Hin2. apply (Hnb nm Hin). by right.
      * apply linked_join.
        -- eapply linked_same; [done|]. intros c Hin. apply Hprev1.
           ++ by intros ->.
           ++ intros E. symmetry in E. apply Hhead in E.
              eapply Hdisj; [done|]. by right.
        -- destruct l2 as [|nx l2]; [done|]. simpl in Hl2 |- *.
           destruct Hl2 as [Hnxp Hl2].
           destruct (Hnx_in nx eq_refl) as (nxd & Hnxd & _).
           split.
           ++ rewrite (Hnx1 nx nxd eq_refl Hnxd). simpl.
              by destruct (last l1).
           ++ eapply linked_same; [done|]. intros c Hin.
              apply NoDup_cons in Hdup2 as [Hnx2 _]. apply Hprev1.
              ** intros ->. apply Hn2. by right.
              ** simpl. intros [= ->]. done.
    + (* the children of any other node keep their place *)
      pose proof (Hchild q Hqp) as E. rewrite Hq1 in E.
      destruct (heap w !! q) as [qd|] eqn:Hq; [|done]. simpl in E.
      eapply node_same; [done|done|congruence|].
      intros c Hcq. apply Hplace.
      * intros ->. assert (parent_at w node = Some par) as E2.
        { apply Hpar. apply elem_of_app. right. by left. }
        congruence.
      * intros Hz. destruct (Hz_in c (eq_sym Hz)) as (_ & _ & _ & _ & E2).
        congruence.
      * intros Hnx. destruct (Hnx_in c (eq_sym Hnx)) as (_ & _ & _ & _ & E2).
        congruence.
Qed.

(** *** [delete_item] *)
Lemma keeps__delete_node fuel n :
  (forall node i, keeps sound (_delete_node_rec fuel n node i))
  /\ (forall c i, keeps sound (_delete_node_loop fuel n c i)).
Proof.
  induction n as [|n [IHrec IHloop]].
  - split.
    + intros node i. apply keeps_stuck.
    + intros [c|] i; [apply keeps_stuck|apply keeps_ret].
  - split.
    + intros node i.
      change (_delete_node_rec fuel (S n) node i)
        with (let! nd := getM node in
              exec _delete_node_loop fuel n (child nd) i in
              exec FileSystemModel.remove_node fuel i node in
              ret tt).
      apply keeps_bind; [apply keeps_reads|]. intros nd.
      apply keeps_bind; [apply IHloop|]. intros _.
      apply keeps_bind; [apply keeps_remove_node|]. intros _.
      apply keeps_ret.
    + intros [c|] i; [|apply keeps_ret].
      change (_delete_node_loop fuel (S n) (Some c) i)
        with (let! cd := getM c in
              let! j := reads (fun w => FileSystemModel.index fuel w 0 0 i) in
              exec _delete_node_rec fuel n c j in
              _delete_node_loop fuel n (sibling_next cd) i).
      apply keeps_bind; [apply keeps_reads|]. intros cd.
      apply keeps_bind; [apply keeps_reads|]. intros j.
      apply keeps_bind; [apply IHrec|]. intros _. apply IHloop.
Qed.

Lemma keeps_delete_item fuel node reply_yes :
  keeps sound (delete_item fuel node reply_yes).
Proof.
  unfold delete_item. apply keeps_bind; [apply keeps_reads|]. intros w0.
  destruct (Nat.eqb node (root w0)); [apply keeps_ret|].
  apply keeps_bind; [apply keeps_reads|]. intros nd.
  destruct (_ && _); [apply keeps_ret|].
  apply keeps_try_except.
  apply keeps_bind; [apply keeps_reads|]. intros nd'.
  apply keeps_bind; [apply keeps_reads|]. intros row.
  apply keeps_bind; [apply keeps_reads|]. intros pp.
  apply keeps_bind; [apply keeps_reads|]. intros parent_index.
  apply keeps_bind; [apply keeps__delete_node|]. intros _.
  apply keeps_bind; [by apply keeps_modify|]. intros _.
  apply keeps_bind; [by apply keeps_modify|]. intros _.
  apply keeps_modify. intros w. by destruct (Nat.eqb (current w) node).
Qed.

Lemma keeps_perform fuel o : keeps sound (perform fuel o).
Proof.
  destruct o; simpl.
  - apply keeps_create_item.
  - apply keeps_delete_item.
  - apply keeps_rename_item.
  - apply keeps_bind; [apply keeps_open_file|]. intros _. apply keeps_ret.
  - apply keeps_bind; [apply keeps_reads|]. intros _. apply keeps_ret.
Qed.

Lemma sound_init t0 t0' t1 t1' : sound (init t0 t0' t1 t1').
Proof.
  unfold init.
  set (w := mkWorld [new_FileNode "" true None t0 t0'] 0 0 [] [] 0 0).
  assert (Hs : sound w).
  { apply sound_intro.
    - eexists. split; [reflexivity|done].
    - intros c p Hcp. unfold parent_at in Hcp.
      destruct c as [|c]; [done|].
      destruct (heap w !! S c) eqn:Hc; [|done].
      apply lookup_lt_Some in Hc. simpl in Hc. lia.
    - intros q qd Hq. destruct q as [|q].
      + injection Hq as <-. exists []. repeat apply conj; try done;
          try constructor.
        intros c Hin. by apply elem_of_nil in Hin.
      + apply lookup_lt_Some in Hq. simpl in Hq. lia. }
  destruct (_create_node 0 "ROOT" true 0 t1 t1' w) as [r w'] eqn:E.
  eapply (_create_node_sound 0 "ROOT" true 0 t1 t1' w _ [] r w');
    [done|reflexivity|constructor| |done].
  intros c Hin. by apply elem_of_nil in Hin.
Qed.

Lemma sound_run fuel os w : sound w -> sound (run fuel os w).
Proof.
  revert w. induction os as [|o os IH]; intros w Hs; simpl; [done|].
  apply IH. destruct (perform fuel o w) as [r w'] eqn:E.
  by eapply keeps_perform.
Qed.

(** Every state that the window can reach satisfies [sound]: whatever
    operations are performed after the start, and however each of them
    ends (it may show an error box, be declined, or run out of fuel), the
    links of the store form a tree below the root, no two children of a
    node share a name, every node is younger than its parent, and the
    children of every node are linked in both directions. *)
Theorem every_state_is_sound fuel os t0 t0' t1 t1' :
  sound (run fuel os (init t0 t0' t1 t1')).
Proof. apply sound_run. apply sound_init. Qed.

(** A way down from [r] is shorter than the store is large. *)
Lemma descends_length w r path n :
  sound w -> descends (length (heap w)) w r path n ->
  r < length (heap w) -> length path + r < length (heap w).
Proof.
  intros Hs. induction 1 as [r|r l c path n Hl Hc _ IH]; intros Hr;
    simpl; [done|].
  pose proof Hl as (rd & Hrd & Hch & _)%listChildren_inv.
  destruct (sound_node _ _ _ Hs Hrd) as (l' & Hc' & Hpar & _).
  rewrite <- (chain_fun _ _ _ _ Hch Hc') in Hpar.
  pose proof (sound_order _ _ _ Hs (Hpar _ Hc)).
  pose proof (chain_in_heap _ _ _ _ Hch Hc). specialize (IH ltac:(done)).
  lia.
Qed.

(** In every state that the window can reach, a node found on a way down
    from the root through nodes with ordinary names has these names,
    joined by '/' after a leading '/', as its [full_path], and
    [resolve_path] leads from this text back to the node; the size of the
    store is fuel enough for both. *)
Theorem reachable_path_round_trip fuel os t0 t0' t1 t1' w path n :
  w = run fuel os (init t0 t0' t1 t1') ->
  descends (length (heap w)) w (root w) path n ->
  Forall (fun c => ordinary (name_at w c) = true) path ->
  full_path (length (heap w)) w n
    = Ok (String "/" (join "/" (map (name_at w) path)))
  /\ resolve_path (length (heap w)) w
       (String "/" (join "/" (map (name_at w) path))) = Ok n.
Proof.
  intros -> Hd Hord.
  set (w := run fuel os (init t0 t0' t1 t1')) in *.
  assert (Hs : sound w) by apply sound_run, sound_init.
  pose proof Hs as (Hwf & _).
  destruct (sound_root _ Hs) as (rd & Hrd & Hpar).
  assert (Hlen : length path <= length (heap w)).
  { pose proof (descends_length _ _ _ _ Hs Hd (lookup_lt_Some _ _ _ Hrd)).
    lia. }
  split.
  - unfold full_path.
    rewrite (full_path_loop_descends _ _ _ _ _ Hwf Hd) by done.
    rewrite full_path_loop_eq, (get_Ok _ _ _ Hrd). cbn [rbind].
    rewrite Hpar. cbn [rbind app]. rewrite rev_involutive.
    destruct path as [|c path']; [done|].
    destruct (rev (map (name_at w) (c :: path'))) eqn:E; [|done].
    apply (f_equal (@length _)) in E. rewrite length_rev in E. done.
  - rewrite resolve_path_joined.
    + by apply resolve_path_loop_descends.
    + apply Forall_fmap. eapply Forall_impl; [done|].
      intros c. apply PathFacts.ordinary_truthy.
    + apply Forall_fmap. eapply Forall_impl; [done|].
      intros c. apply PathFacts.ordinary_no_slash.
Qed.

Lemma reachable_path_round_trip_witness :
  full_path 4 (run 8 make_a_b (init 0 0 0 0)) 3 = Ok "/ROOT/a/b.txt"%string
  /\ resolve_path 4 (run 8 make_a_b (init 0 0 0 0)) "/ROOT/a/b.txt" = Ok 3.
Proof.
  set (w := run 8 make_a_b (init 0 0 0 0)).
  assert (Hd : descends (length (heap w)) w (root w) [1; 2; 3] 3).
  { eapply descends_child with (l := [1]); [reflexivity|by left|].
    eapply descends_child with (l := [2]); [reflexivity|by left|].
    eapply descends_child with (l := [3]); [reflexivity|by left|].
    constructor. }
  assert (Ho : Forall (fun c => ordinary (name_at w c) = true) [1; 2; 3]).
  { repeat constructor. }
  exact (reachable_path_round_trip 8 make_a_b 0 0 0 0 w [1; 2; 3] 3
           eq_refl Hd Ho).
Defined.

End Invariant.

(** ** winfilesystem.py: rows and indices of the model *)
Module QtModel.
Import Chain ChainFacts PyFacts Win Win.FileManager WinFacts WinDelete
  Invariant.

(** [rowCount] and [index] on the children [l] of the node that the
    parent index stands for: [rowCount] is the number of children for an
    index of column 0 (or the invalid index) and 0 for an index of
    another column; [index] gives the child in the row when row and
    column are in range, and the invalid index when they are not. *)
Theorem index_in_and_out_of_range fuel w i p l row col :
  FileSystemModel.pointer_or_current w i = Some p ->
  listChildren fuel w p = Ok l ->
  FileSystemModel.rowCount fuel w i
    = Ok (if (0 <? column i)%Z then 0 else length l)
  /\ FileSystemModel.index fuel w row col i
     = Ok (match l !! row with
           | Some c =>
               if (0 <? column i)%Z then InvalidIndex
               else if Nat.ltb col 4 then createIndex row col (Some c)
                    else InvalidIndex
           | None => InvalidIndex
           end).
Proof.
  intros Hi (pd & Hp & Hc & Hl)%listChildren_inv.
  assert (Hrows : FileSystemModel.rowCount fuel w i
            = Ok (if (0 <? column i)%Z then 0 else length l)).
  { unfold FileSystemModel.rowCount. destruct (0 <? column i)%Z; [done|].
    rewrite Hi. simpl. rewrite (get_Ok _ _ _ Hp). simpl.
    by rewrite (rowCount_loop_chain _ _ _ _ _ Hc). }
  split; [done|].
  unfold FileSystemModel.index, FileSystemModel.hasIndex.
  rewrite Hrows. simpl. unfold FileSystemModel.columnCount.
  destruct (0 <? column i)%Z.
  { assert (Nat.ltb row 0 = false) as -> by (by apply Nat.ltb_ge; lia).
    simpl. by destruct (l !! row). }
  destruct (Nat.ltb row (length l)) eqn:Hrow; simpl.
  - apply Nat.ltb_lt in Hrow.
    destruct (lookup_lt_is_Some_2 l row Hrow) as [c Hrc]. rewrite Hrc.
    destruct (Nat.ltb col 4); simpl; [|done].
    rewrite Hi. simpl. rewrite (get_Ok _ _ _ Hp). simpl.
    rewrite (index_loop_chain _ _ _ _ Hc). simpl. by rewrite Hrc.
  - apply Nat.ltb_ge in Hrow. by rewrite (lookup_ge_None_2 _ _ Hrow).
Qed.

(** In a sound state whose model shows the tree from its root, a valid
    index that [index] gives for a row under a parent index of column 0
    points at a child of the node the parent index stands for;
    [sibling_index] of that child is the row; and [parent] of the index
    stands for the same node again, so that [index] at the same row under
    it gives the same index: the two are inverse to each other. *)
Theorem parent_inverts_index fuel w i p row j :
  sound w -> model_root w = model_current w ->
  length (heap w) <= fuel ->
  FileSystemModel.pointer_or_current w i = Some p -> (column i <= 0)%Z ->
  FileSystemModel.index fuel w row 0 i = Ok j -> j <> InvalidIndex ->
  exists c pj,
    j = createIndex row 0 (Some c)
    /\ parent_at w c = Some p
    /\ FileSystemModel.sibling_index fuel w (Some c) = Ok row
    /\ FileSystemModel.parent fuel w j = Ok pj
    /\ FileSystemModel.pointer_or_current w pj = Some p
    /\ (column pj <= 0)%Z
    /\ FileSystemModel.index fuel w row 0 pj = Ok j.
Proof.
  intros Hs Hmodel Hfuel Hi Hcol Hidx Hvalid.
  assert (Hwalk : forall q qd, heap w !! q = Some qd ->
            exists l, listChildren fuel w q = Ok l
                      /\ chain (next_of w) (child qd) l
                      /\ (forall c, c ∈ l -> parent_at w c = Some q)).
  { intros q qd Hq. destruct (sound_node _ _ _ Hs Hq) as (l & Hc & Hpar & _).
    exists l. split; [|done]. eapply listChildren_intro; [done|done|].
    pose proof (chain_length _ _ _ Hc). lia. }
  (* the node of the parent index and its children *)
  assert (exists pd, heap w !! p = Some pd) as [pd Hp].
  { unfold FileSystemModel.index, FileSystemModel.hasIndex,
      FileSystemModel.rowCount in Hidx.
    assert ((0 <? column i)%Z = false) as E by lia. rewrite E, Hi in Hidx.
    simpl in Hidx. unfold get in Hidx.
    destruct (heap w !! p) as [pd|]; [eauto|done]. }
  destruct (Hwalk p pd Hp) as (l & Hl & Hc & Hpar).
  rewrite (index_at _ _ _ _ _ _ Hi Hcol Hl) in Hidx.
  destruct (l !! row) as [c|] eqn:Hrow; [|by injection Hidx as <-].
  injection Hidx as <-.
  assert (Hcin : c ∈ l) by (by eapply list_elem_of_lookup_2).
  pose proof (Hpar c Hcin) as Hcp.
  unfold parent_at in Hcp. destruct (heap w !! c) as [cd|] eqn:Hcd; [|done].
  (* the row of the child *)
  assert (Hlenl : length l <= fuel).
  { by apply listChildren_inv in Hl as (? & _ & _ & ?). }
  assert (Hsib : FileSystemModel.sibling_index fuel w (Some c) = Ok row).
  { unfold FileSystemModel.sibling_index. simpl.
    rewrite (get_Ok _ _ _ Hcd). simpl. rewrite Hcp.
    rewrite (get_Ok _ _ _ Hp). simpl.
    pose proof (chain_NoDup _ _ _ Hc) as Hdup.
    pose proof (take_drop_middle _ _ _ Hrow) as Hsplit.
    rewrite <- Hsplit in Hc, Hdup.
    rewrite (sibling_index_loop_found _ _ _ _ (take row l) (drop (S row) l)).
    - rewrite length_take. f_equal.
      apply lookup_lt_Some in Hrow. simpl. apply Nat.min_l. lia.
    - done.
    - apply NoDup_app in Hdup as (_ & Hd & _). intros Hin.
      eapply Hd; [done|]. by left.
    - rewrite length_take. apply lookup_lt_Some in Hrow.
      rewrite Nat.min_l by lia. lia. }
  (* the parent of the index *)
  assert (exists pj, FileSystemModel.parent fuel w (createIndex row 0 (Some c))
                     = Ok pj
            /\ FileSystemModel.pointer_or_current w pj = Some p
            /\ (column pj <= 0)%Z) as (pj & Hpj & Hptr & Hcolj).
  { unfold FileSystemModel.parent. simpl. rewrite (get_Ok _ _ _ Hcd).
    simpl. rewrite Hcp. simpl.
    destruct (Nat.eqb_spec p (model_root w)) as [Hr|Hr]; simpl.
    { exists InvalidIndex. repeat split; [|done]. simpl. congruence. }
    destruct (Nat.eqb_spec p (model_current w)) as [Hcur|Hcur]; simpl.
    { exists InvalidIndex. repeat split; [|done]. simpl. congruence. }
    assert (exists rowp, FileSystemModel.sibling_index fuel w (Some p)
                         = Ok rowp) as [rowp Hrowp].
    { unfold FileSystemModel.sibling_index. simpl.
      rewrite (get_Ok _ _ _ Hp). simpl.
      destruct (parent pd) as [g|] eqn:Hg; [|eauto].
      assert (parent_at w p = Some g) as Hpg.
      { unfold parent_at. by rewrite Hp. }
      pose proof (sound_order _ _ _ Hs Hpg) as Hlt.
      destruct (lookup_lt_is_Some_2 (heap w) g) as [gd Hgd].
      { apply lookup_lt_Some in Hp. lia. }
      rewrite (get_Ok _ _ _ Hgd). simpl.
      destruct (Hwalk g gd Hgd) as (lg & _ & Hcg & _).
      eapply sibling_index_loop_total; [done|].
      pose proof (chain_length _ _ _ Hcg). lia. }
    rewrite Hrowp. simpl. eexists. repeat split. simpl. lia. }
  exists c, pj. repeat apply conj; try done.
  - unfold parent_at. by rewrite Hcd.
  - rewrite (index_at _ _ _ _ _ _ Hptr Hcolj Hl). by rewrite Hrow.
Qed.

Lemma index_in_and_out_of_range_witness :
  FileSystemModel.rowCount 8 with_abcd (createIndex 0 0 (Some 1)) = Ok 2
  /\ FileSystemModel.index 8 with_abcd 1 0 (createIndex 0 0 (Some 1))
     = Ok (createIndex 1 0 (Some 4))
  /\ FileSystemModel.index 8 with_abcd 2 0 (createIndex 0 0 (Some 1))
     = Ok InvalidIndex
  /\ FileSystemModel.index 8 with_abcd 1 4 (createIndex 0 0 (Some 1))
     = Ok InvalidIndex.
Proof.
  pose proof (index_in_and_out_of_range 8 with_abcd
                (createIndex 0 0 (Some 1)) 1 [2; 4] 1 0 eq_refl eq_refl)
    as [H1 H2].
  pose proof (index_in_and_out_of_range 8 with_abcd
                (createIndex 0 0 (Some 1)) 1 [2; 4] 2 0 eq_refl eq_refl)
    as [_ H3].
  pose proof (index_in_and_out_of_range 8 with_abcd
                (createIndex 0 0 (Some 1)) 1 [2; 4] 1 4 eq_refl eq_refl)
    as [_ H4].
  split; [exact H1|]. split; [exact H2|]. split; [exact H3|exact H4].
Defined.

Lemma parent_inverts_index_witness :
  exists c pj,
    createIndex 0 0 (Some 3) = createIndex 0 0 (Some c)
    /\ parent_at (run 8 make_a_b (init 0 0 0 0)) c = Some 2
    /\ FileSystemModel.sibling_index 8 (run 8 make_a_b (init 0 0 0 0))
         (Some c) = Ok 0
    /\ FileSystemModel.parent 8 (run 8 make_a_b (init 0 0 0 0))
         (createIndex 0 0 (Some 3)) = Ok pj
    /\ FileSystemModel.pointer_or_current (run 8 make_a_b (init 0 0 0 0)) pj
       = Some 2
    /\ (column pj <= 0)%Z
    /\ FileSystemModel.index 8 (run 8 make_a_b (init 0 0 0 0)) 0 0 pj
       = Ok (createIndex 0 0 (Some 3)).
Proof.
  apply (parent_inverts_index 8 (run 8 make_a_b (init 0 0 0 0))
           (createIndex 0 0 (Some 2)) 2 0 (createIndex 0 0 (Some 3))).
  - apply sound_run, sound_init.
  - reflexivity.
  - vm_compute. lia.
  - reflexivity.
  - simpl. lia.
  - reflexivity.
  - discriminate.
Defined.

End QtModel.

(** ** winfilesystem.py: steps of the navigation *)
Module Steps.
Import PyFacts Win Win.FileManager WinFacts Navigation.

Lemma pop_Some l top rest : pop l = Some (top, rest) -> l = rest ++ [top].
Proof.
  unfold pop. destruct (rev l) as [|x r] eqn:E; [done|]. intros [= <- <-].
  apply (f_equal (@rev _)) in E. rewrite rev_involutive in E. by subst.
Qed.

Lemma pop_None l : pop l = None -> l = [].
Proof.
  unfold pop. destruct (rev l) as [|x r] eqn:E; [|done]. intros _.
  apply (f_equal (@rev _)) in E. by rewrite rev_involutive in E.
Qed.

(** [navigateBack] and [navigateForward] undo each other: after a step
    back that there was a node to go back to, the step forward restores
    the state, and after a step forward the step back does; with an empty
    stack either of them changes nothing.  Neither touches the store. *)
Theorem back_and_forward_are_inverse w :
  (history w <> [] -> after navigateForward (after navigateBack w) = w)
  /\ (future w <> [] -> after navigateBack (after navigateForward w) = w)
  /\ (history w = [] -> navigateBack w = (Ok tt, w))
  /\ (future w = [] -> navigateForward w = (Ok tt, w))
  /\ heap (after navigateBack w) = heap w
  /\ heap (after navigateForward w) = heap w.
Proof.
  unfold after, navigateBack, navigateForward. repeat apply conj.
  - intros Hh. destruct (pop (history w)) as [[top rest]|] eqn:E.
    + apply pop_Some in E. cbn [snd future with_history with_current
        with_future history current]. rewrite pop_snoc. cbn [snd].
      destruct w. cbn in *. by rewrite E.
    + by apply pop_None in E.
  - intros Hf. destruct (pop (future w)) as [[top rest]|] eqn:E.
    + apply pop_Some in E. cbn [snd future with_history with_current
        with_future history current]. rewrite pop_snoc. cbn [snd].
      destruct w. cbn in *. by rewrite E.
    + by apply pop_None in E.
  - by intros ->.
  - by intros ->.
  - by destruct (pop (history w)) as [[top rest]|].
  - by destruct (pop (future w)) as [[top rest]|].
Qed.

(** [navigateAddress] takes every node that the text resolves to,
    directory or file, as the current one, puts the node left on the
    stack of visited nodes and empties the forward stack; a step back
    then shows the node left again, with the stack as it was and the
    target as the one step forward.  When the text does not resolve, the
    error is shown and nothing changes.  [navigateUp] does nothing at a
    node without a parent; from another node a step back after it shows
    that node again, with the parent added to the forward stack. *)
Theorem address_and_up_then_back fuel w text :
  match resolve_path fuel w text with
  | Ok n =>
      navigateAddress fuel text w
      = (Ok None,
         with_current n
           (with_future [] (with_history (history w ++ [current w]) w)))
      /\ after navigateBack (after (navigateAddress fuel text) w)
         = with_future [n] w
  | Raise e => navigateAddress fuel text w = (Ok (Some (critical_exn e)), w)
  | Stuck => navigateAddress fuel text w = (Stuck, w)
  end
  /\ forall cd, heap w !! current w = Some cd ->
       match parent cd with
       | Some p =>
           navigateUp w
           = (Ok tt, with_current p
                       (with_history (history w ++ [current w]) w))
           /\ after navigateBack (after navigateUp w)
              = with_future (future w ++ [p]) w
       | None => navigateUp w = (Ok tt, w)
       end.
Proof.
  split.
  - destruct (resolve_path fuel w text) as [n|e|] eqn:E.
    + assert (H : navigateAddress fuel text w
                = (Ok None,
                   with_current n
                     (with_future []
                        (with_history (history w ++ [current w]) w)))).
      { unfold navigateAddress, try_except, bind, reads, modify.
        by rewrite E. }
      split; [done|]. unfold after. rewrite H. cbn [snd].
      unfold navigateBack.
      cbn [history with_current with_future with_history].
      rewrite pop_snoc. cbn [snd]. by destruct w.
    + unfold navigateAddress, try_except, bind, reads, modify.
      by rewrite E.
    + unfold navigateAddress, try_except, bind, reads, modify.
      by rewrite E.
  - intros cd Hcd. unfold navigateUp.
    rewrite (bind_reads_Ok (fun w => Ok w) _ w w eq_refl).
    rewrite (bind_getM _ _ _ _ Hcd).
    destruct (parent cd) as [p|] eqn:Hp; [|done].
    assert (H : forall k : FileNode -> M world unit,
              k cd w = (Ok tt, with_current p
                         (with_history (history w ++ [current w]) w)) ->
              after navigateBack (snd (k cd w))
              = with_future (future w ++ [p]) w).
    { intros k ->. cbn [snd]. unfold after, navigateBack.
      cbn [history with_current with_future with_history].
      rewrite pop_snoc. cbn [snd]. by destruct w. }
    split; [done|]. unfold after at 2. unfold navigateUp.
    rewrite (bind_reads_Ok (fun w => Ok w) _ w w eq_refl).
    rewrite (bind_getM _ _ _ _ Hcd).
    apply (H (fun cd => match parent cd with
                        | Some p =>
                            exec modify (fun w => with_history
                                           (history w ++ [current w]) w) in
                            modify (with_current p)
                        | None => ret tt
                        end)).
    by rewrite Hp.
Qed.

Lemma back_and_forward_are_inverse_witness :
  after navigateForward (after navigateBack walked_back) = walked_back
  /\ after navigateBack (after navigateForward walked_back) = walked_back.
Proof.
  destruct (back_and_forward_are_inverse walked_back) as (H1 & H2 & _).
  split.
  - apply H1. vm_compute. discriminate.
  - apply H2. vm_compute. discriminate.
Defined.

Lemma address_and_up_then_back_witness :
  after navigateBack (after (navigateAddress 8 "/ROOT/c") walked_back)
    = with_future [4] walked_back
  /\ after navigateBack (after navigateUp walked_back)
     = with_future [3; 1] walked_back.
Proof.
  destruct (address_and_up_then_back 8 walked_back "/ROOT/c") as [H1 H2].
  split.
  - exact (proj2 H1).
  - exact (proj2 (H2 _ eq_refl)).
Defined.

End Steps.

(** ** simplefilesystem.py: what the tree widget shows *)
Module SimpleShow.
Import Chain ChainFacts PyFacts Simple SimpleFacts.

Lemma echo_length {A} (l : list A) : S (length (echo l)) = 2 ^ length l.
Proof.
  induction l as [|x l IH]; [done|].
  cbn [echo length]. rewrite length_app, Nat.pow_succ_r'. lia.
Qed.

Lemma heard_length {A} (x : A) l : length (heard (x :: l)) = 2 ^ length l.
Proof. cbn [heard length]. apply echo_length. Qed.

Lemma echo_fmap {A B} (f : A -> B) l : f <$> echo l = echo (f <$> l).
Proof.
  induction l as [|x l IH]; [done|].
  cbn [echo fmap list_fmap]. f_equal. rewrite fmap_app.
  by rewrite IH.
Qed.

Lemma items_text0 w par first t :
  below w par first t -> text0_of <$> items w t = filename_at w <$> spine t.
Proof.
  revert par first. induction t as [|r kids _ sibs IH]; intros par first; [done|].
  intros (-> & nd & Hr & _ & _ & Hs). cbn [items spine]. rewrite Hr.
  cbn [fmap list_fmap text0_of]. f_equal.
  - unfold filename_at. by rewrite Hr.
  - by eapply IH.
Qed.

Lemma items_length w par first t :
  below w par first t -> length (items w t) = length (spine t).
Proof.
  intros H%items_text0.
  by rewrite <- (length_fmap text0_of), H, length_fmap.
Qed.

Lemma addTreeItems_S n w node :
  addTreeItems (S n) w node
  = (let? nd := get w node in
     let? below_item :=
       match child nd with
       | Some c => addTreeItems n w c
       | None => Ok []
       end in
     let? later := addTreeItems_while n w (sibling_next nd) in
     Ok (Item (filename nd) (if isdir nd then "Directory" else "File")
              below_item :: later)).
Proof. done. Qed.

Lemma addTreeItems_while_S n w s :
  addTreeItems_while (S n) w (Some s)
  = (let? here := addTreeItems n w s in
     let? sd := get w s in
     let? later := addTreeItems_while n w (sibling_next sd) in
     Ok (here ++ later)%list).
Proof. done. Qed.

Lemma addTreeItems_while_None n w : addTreeItems_while n w None = Ok [].
Proof. by destruct n. Qed.

Lemma addTreeItems_chain w t :
  forall par first, below w par first t ->
  (forall n, 2 * length (refs t) <= n ->
     addTreeItems_while n w first = Ok (echo (items w t)))
  /\ (forall n r, first = Some r -> 2 * length (refs t) <= S n ->
        addTreeItems n w r = Ok (heard (items w t))).
Proof.
  induction t as [|r kids IHk sibs IHs]; intros par first.
  - intros ->. split; [|done]. intros n _. apply addTreeItems_while_None.
  - intros (-> & nd & Hr & Hp & Hk & Hs).
    destruct (IHk _ _ Hk) as [_ IHk2]. destruct (IHs _ _ Hs) as [IHs1 _].
    cbn [refs length] in *. rewrite length_app in *.
    assert (Hhead : forall n, 2 * (length (refs kids) + length (refs sibs)) < n ->
              addTreeItems n w r = Ok (heard (items w (Br r kids sibs)))).
    { intros [|n] Hn; [lia|]. rewrite addTreeItems_S. cbn [items heard].
      unfold get. rewrite Hr. cbn [rbind].
      assert (match child nd with
              | Some c => addTreeItems n w c
              | None => Ok []
              end = Ok (heard (items w kids))) as ->.
      { destruct kids as [|c k1 k2].
        - simpl in Hk. by rewrite Hk.
        - pose proof Hk as (Hc & _). rewrite Hc.
          apply (IHk2 n c Hc). lia. }
      cbn [rbind]. rewrite IHs1 by lia. done. }
    split.
    + intros [|n] Hn; [lia|].
      rewrite addTreeItems_while_S, Hhead by lia.
      cbn [rbind]. unfold get. rewrite Hr. cbn [rbind].
      rewrite IHs1 by lia. cbn [rbind items]. rewrite Hr. done.
    + intros n ? [= <-] Hn. apply Hhead. lia.
Qed.

(** [updateTree] from a node (the root when none is given) whose children
    and later siblings are linked as trees: the widget gets the item of
    the node, with the first child and the echo of the other children
    below it, and after it the echo of the later siblings of the node.
    An echo of [k] nodes has [2 ^ k - 1] items: every node after the
    first of a chain is shown as often as all its later siblings
    together, plus once. *)
Theorem updateTree_echoes_siblings fuel w sel node nd par kids sibs :
  node = match sel with Some n => n | None => root w end ->
  heap w !! node = Some nd ->
  below w node (child nd) kids -> below w par (sibling_next nd) sibs ->
  2 * (length (refs kids) + length (refs sibs)) < fuel ->
  updateTree fuel w sel
    = Ok (Item (filename nd) (if isdir nd then "Directory" else "File")
               (heard (items w kids)) :: echo (items w sibs))
  /\ text0_of <$> echo (items w sibs) = echo (filename_at w <$> spine sibs)
  /\ S (length (echo (items w sibs))) = 2 ^ length (spine sibs)
  /\ text0_of <$> heard (items w kids)
     = heard (filename_at w <$> spine kids)
  /\ (kids <> Leaf ->
      length (heard (items w kids)) = 2 ^ (length (spine kids) - 1)).
Proof.
  intros -> Hn Hk Hs Hf. unfold updateTree.
  split; [|split; [|split; [|split]]].
  - destruct fuel as [|n]; [lia|].
    rewrite addTreeItems_S. unfold get. rewrite Hn. cbn [rbind].
    assert (match child nd with
            | Some c => addTreeItems n w c
            | None => Ok []
            end = Ok (heard (items w kids))) as ->.
    { destruct (addTreeItems_chain w kids _ _ Hk) as [_ H2].
      destruct kids as [|c k1 k2].
      - simpl in Hk. by rewrite Hk.
      - pose proof Hk as (Hc & _). rewrite Hc. apply (H2 n c Hc). lia. }
    destruct (addTreeItems_chain w sibs _ _ Hs) as [H1 _].
    cbn [rbind]. rewrite H1 by lia. done.
  - rewrite echo_fmap. f_equal. by eapply items_text0.
  - rewrite echo_length. f_equal. by eapply items_length.
  - pose proof (items_text0 _ _ _ _ Hk) as H.
    destruct (items w kids) as [|x l], (spine kids) as [|y s]; try done.
    cbn [heard fmap list_fmap] in *. injection H as -> H.
    f_equal. by rewrite echo_fmap, H.
  - intros Hne. pose proof (items_length _ _ _ _ Hk) as H.
    destruct (items w kids) as [|x l].
    + destruct kids; [done|]. simpl in H. lia.
    + rewrite heard_length. rewrite <- H. simpl. by rewrite Nat.sub_0_r.
Qed.

Lemma updateTree_echoes_siblings_witness :
  updateTree 8 with_a_b_c None
  = Ok [Item "/" "Directory"
          [Item "c" "Directory" []; Item "b" "Directory" [];
           Item "a" "Directory" []; Item "a" "Directory" []]].
Proof.
  refine (proj1 (updateTree_echoes_siblings 8 with_a_b_c None 0 _ 0
                   (Br 3 Leaf (Br 2 Leaf (Br 1 Leaf Leaf))) Leaf
                   eq_refl eq_refl _ eq_refl _)).
  - simpl. repeat (split || eexists); reflexivity.
  - simpl. lia.
Defined.

End SimpleShow.

(** ** simplefilesystem.py: names and paths *)
Module SimpleNames.
Import Chain ChainFacts PyFacts PathFacts Simple SimpleFacts.

Lemma findNode_while_first fuel w first l name :
  chain (next_of w) first l -> length l <= fuel ->
  findNode_while fuel w first name = Ok (child_named w l name).
Proof.
  intros Hc. revert fuel. induction Hc as [|c n l Hn Hc IH]; intros fuel Hf.
  - by destruct fuel.
  - destruct fuel as [|fuel]; [simpl in Hf; lia|].
    apply simple_next_of_Some in Hn as (cd & Hcd & Hnx).
    cbn [findNode_while]. unfold get. rewrite Hcd. cbn [rbind].
    unfold child_named. cbn [List.find]. unfold filename_at at 1.
    rewrite Hcd. destruct (String.eqb (filename cd) name); [done|].
    rewrite Hnx. apply IH. simpl in Hf. lia.
Qed.

(** The two tests of the loop body of [findNode] and [getNodeFromItem]
    together look for the first child with the name. *)
Lemma first_then_while fuel w p pd l name :
  heap w !! p = Some pd -> chain (next_of w) (child pd) l ->
  length l <= fuel ->
  exists first,
    first_child_named w pd name = Ok first
    /\ match first with
       | Some c => child_named w l name = Some c
       | None => findNode_while fuel w (child pd) name
                 = Ok (child_named w l name)
       end.
Proof.
  intros Hp Hc Hf. unfold first_child_named.
  inversion Hc as [E|c n l' Hn Hc' E]; subst.
  - exists None. split; [done|]. by destruct fuel.
  - apply simple_next_of_Some in Hn as (cd & Hcd & Hnx).
    unfold get. rewrite Hcd. cbn [rbind].
    destruct (String.eqb (filename cd) name) eqn:En; eexists; (split; [done|]).
    + unfold child_named. cbn [List.find]. unfold filename_at.
      by rewrite Hcd, En.
    + rewrite E. by apply findNode_while_first.
Qed.

Lemma findNode_for_step fuel w p l name names :
  listChildren fuel w p = Ok l -> name <> "" ->
  findNode_for fuel w p (name :: names)
  = match child_named w l name with
    | Some c => findNode_for fuel w c names
    | None => Ok None
    end.
Proof.
  intros (pd & Hp & Hc & Hf)%simple_listChildren_inv Hne.
  cbn [findNode_for]. apply String.eqb_neq in Hne. rewrite Hne.
  unfold get at 1. rewrite Hp. cbn [rbind].
  destruct (first_then_while fuel w p pd l name Hp Hc Hf) as (first & -> & H).
  cbn [rbind]. destruct first as [c|].
  - by rewrite H.
  - rewrite H. cbn [rbind]. by destruct (child_named w l name).
Qed.

Lemma getNodeFromItem_for_step fuel w p l name names :
  listChildren fuel w p = Ok l ->
  getNodeFromItem_for fuel w p (name :: names)
  = match child_named w l name with
    | Some c => getNodeFromItem_for fuel w c names
    | None => getNodeFromItem_for fuel w p names
    end.
Proof.
  intros (pd & Hp & Hc & Hf)%simple_listChildren_inv.
  cbn [getNodeFromItem_for].
  unfold get at 1. rewrite Hp. cbn [rbind].
  destruct (first_then_while fuel w p pd l name Hp Hc Hf) as (first & -> & H).
  cbn [rbind]. destruct first as [c|].
  - by rewrite H.
  - rewrite H. cbn [rbind]. by destruct (child_named w l name).
Qed.

Lemma findNode_for_selects fuel w p names n :
  Forall (fun s => s <> "") names ->
  findNode_for fuel w p names = Ok (Some n) ->
  getNodeFromItem_for fuel w p names = Ok n.
Proof.
  intros Hall. revert p.
  induction Hall as [|name names Hne _ IH]; intros p.
  - by intros [= ->].
  - cbn [findNode_for getNodeFromItem_for].
    apply String.eqb_neq in Hne. rewrite Hne.
    destruct (get w p) as [pd| |]; cbn [rbind]; [|done..].
    destruct (first_child_named w pd name) as [[c|]| |]; cbn [rbind];
      [by apply IH| |done..].
    destruct (findNode_while fuel w (child pd) name) as [[s|]| |];
      cbn [rbind]; [by apply IH|done..].
Qed.

(** [findNode] and [getNodeFromItem] go from a node to the first of its
    children that bears the name.  Where there is none, [findNode] gives
    up with [None] and [getNodeFromItem] stays at the node and goes on
    with the next name.  [findNode] skips an empty name; so an item whose
    texts are the non-empty names of a path that [findNode] resolves
    selects the node that the path resolves to. *)
Theorem findNode_takes_first_named_child fuel w p l name names :
  listChildren fuel w p = Ok l ->
  findNode_for fuel w p ("" :: names) = findNode_for fuel w p names
  /\ (name <> "" ->
      findNode_for fuel w p (name :: names)
      = match child_named w l name with
        | Some c => findNode_for fuel w c names
        | None => Ok None
        end)
  /\ getNodeFromItem_for fuel w p (name :: names)
     = match child_named w l name with
       | Some c => getNodeFromItem_for fuel w c names
       | None => getNodeFromItem_for fuel w p names
       end
  /\ (forall n, Forall (fun s => s <> "") names ->
        findNode_for fuel w p names = Ok (Some n) ->
        getNodeFromItem_for fuel w p names = Ok n).
Proof.
  intros Hl. split; [done|]. split; [|split].
  - intros Hne. by apply findNode_for_step.
  - by apply getNodeFromItem_for_step.
  - intros n. apply findNode_for_selects.
Qed.














Lemma findNode_takes_first_named_child_witness :
  findNode_for 8 with_a_x_b 0 ["a"; "x"] = findNode_for 8 with_a_x_b 1 ["x"]
  /\ findNode_for 8 with_a_x_b 0 ["c"; "x"] = Ok None
  /\ getNodeFromItem_for 8 with_a_x_b 0 ["c"; "b"]
     = getNodeFromItem_for 8 with_a_x_b 0 ["b"].
Proof.
  split; [|split].
  - exact (proj1 (proj2 (findNode_takes_first_named_child
                           8 with_a_x_b 0 [3; 1] "a" ["x"] eq_refl))
             ltac:(discriminate)).
  - exact (proj1 (proj2 (findNode_takes_first_named_child
                           8 with_a_x_b 0 [3; 1] "c" ["x"] eq_refl))
             ltac:(discriminate)).
  - exact (proj1 (proj2 (proj2 (findNode_takes_first_named_child
                                  8 with_a_x_b 0 [3; 1] "c" ["b"] eq_refl)))).
Defined.



End SimpleNames.

(** ** simplefilesystem.py: the links stay in order *)
Module SimpleInvariant.
Import Chain ChainFacts PyFacts PathFacts Simple SimpleFacts.

Lemma parent_at_Some w x p :
  parent_at w x = Some p <-> exists nd, heap w !! x = Some nd /\ parent nd = p.
Proof.
  unfold parent_at. destruct (heap w !! x) as [nd|]; simpl; split.
  - intros [= <-]. eauto.
  - intros (? & [= <-] & <-). done.
  - done.
  - by intros (? & ? & _).
Qed.

Lemma parent_at_lt w x p : parent_at w x = Some p -> x < length (heap w).
Proof. intros (nd & H & _)%parent_at_Some. by eapply lookup_lt_Some. Qed.

(** Writing a node with the same parent changes no parent link. *)
Lemma parent_at_insert w r nd nd' x :
  heap w !! r = Some nd -> parent nd' = parent nd ->
  parent_at (with_heap (<[r := nd']> (heap w)) w) x = parent_at w x.
Proof.
  intros Hr Hp. unfold parent_at. cbn [heap with_heap].
  rewrite list_lookup_insert. case_decide as Hd; [|done].
  destruct Hd as [<- _]. rewrite Hr. simpl. by rewrite Hp.
Qed.

Lemma sound_insert w r nd nd' :
  sound w -> heap w !! r = Some nd -> parent nd' = parent nd ->
  (forall c, child nd' = Some c -> parent_at w c = Some (Some r)) ->
  (forall n, sibling_next nd' = Some n ->
     n < r /\ parent_at w n = Some (parent nd)) ->
  sound (with_heap (<[r := nd']> (heap w)) w).
Proof.
  intros (Hroot & Hcur & Hall) Hr Hp Hc Hn.
  pose proof (lookup_lt_Some _ _ _ Hr) as Hlt.
  split; [|split].
  - cbn [root with_heap]. by rewrite (parent_at_insert w r nd nd').
  - cbn [current_node heap with_heap]. by rewrite length_insert.
  - intros x xd. cbn [heap with_heap]. rewrite list_lookup_insert.
    case_decide as Hd.
    + destruct Hd as [<- _]. intros [= <-].
      destruct (Hall _ _ Hr) as (H1 & _ & _).
      split; [|split].
      * intros p. rewrite Hp. apply H1.
      * intros c Hc'. rewrite (parent_at_insert w r nd nd') by done.
        by apply Hc.
      * intros n Hn'. rewrite (parent_at_insert w r nd nd') by done.
        rewrite Hp. by apply Hn.
    + intros Hx. destruct (Hall _ _ Hx) as (H1 & H2 & H3).
      split; [done|]. split.
      * intros c Hc'. rewrite (parent_at_insert w r nd nd') by done.
        by apply H2.
      * intros n Hn'. rewrite (parent_at_insert w r nd nd') by done.
        by apply H3.
Qed.

(** A write that keeps the three links of the node. *)
Lemma simple_sound_same_links w r nd nd' :
  sound w -> heap w !! r = Some nd ->
  parent nd' = parent nd -> child nd' = child nd ->
  sibling_next nd' = sibling_next nd ->
  sound (with_heap (<[r := nd']> (heap w)) w).
Proof.
  intros Hs Hr Hp Hc Hn. pose proof Hs as (_ & _ & Hall).
  destruct (Hall _ _ Hr) as (_ & H2 & H3).
  apply (sound_insert w r nd nd'); [done..| |].
  - intros c. rewrite Hc. apply H2.
  - intros n. rewrite Hn. apply H3.
Qed.

Lemma keeps_setattr_same r f :
  (forall nd, parent (f nd) = parent nd /\ child (f nd) = child nd
              /\ sibling_next (f nd) = sibling_next nd) ->
  keeps sound (setattr r f).
Proof.
  intros Hf s res s' Hs. unfold setattr.
  destruct (heap s !! r) as [nd|] eqn:Hr; intros [= _ <-]; [|done].
  destruct (Hf nd) as (? & ? & ?). by eapply simple_sound_same_links.
Qed.

(** A new node under the node [p]. *)
Lemma simple_sound_alloc w p name isdir :
  sound w -> p < length (heap w) ->
  sound (with_heap (heap w ++ [new_FileNode name isdir (Some p)]) w).
Proof.
  intros (Hroot & Hcur & Hall) Hp.
  assert (Hpa : forall x q, parent_at w x = Some q ->
            parent_at (with_heap (heap w ++ [new_FileNode name isdir (Some p)]) w) x
            = Some q).
  { intros x q Hx. pose proof (parent_at_lt _ _ _ Hx).
    unfold parent_at in *. cbn [heap with_heap]. by rewrite lookup_app_l. }
  split; [|split].
  - cbn [root with_heap]. by apply Hpa.
  - cbn [current_node heap with_heap]. rewrite length_app. simpl. lia.
  - intros x xd. cbn [heap with_heap]. intros Hx.
    destruct (decide (x < length (heap w))) as [Hlt|Hge].
    + rewrite lookup_app_l in Hx by done.
      destruct (Hall _ _ Hx) as (H1 & H2 & H3). split; [done|]. split.
      * intros c Hc. apply Hpa. by apply H2.
      * intros n Hn. destruct (H3 _ Hn). split; [done|]. by apply Hpa.
    + pose proof (lookup_lt_Some _ _ _ Hx) as Hlt.
      rewrite length_app in Hlt. simpl in Hlt.
      assert (x = length (heap w)) as -> by lia.
      rewrite list_lookup_middle in Hx by done. injection Hx as <-.
      split; [|done]. intros q [= <-]. done.
Qed.

(** [create_under] on a node of the store. *)
Lemma create_under_sound name isdir p w res w' :
  sound w -> p < length (heap w) ->
  create_under name isdir p w = (res, w') ->
  sound w' /\ res = Ok (length (heap w)).
Proof.
  intros Hs Hp. unfold create_under. rewrite simple_bind_alloc.
  set (nd0 := new_FileNode name isdir (Some p)).
  set (new := length (heap w)).
  set (w1 := with_heap (heap w ++ [nd0]) w).
  assert (Hs1 : sound w1) by by apply simple_sound_alloc.
  assert (Hnew1 : heap w1 !! new = Some nd0) by by apply list_lookup_middle.
  destruct (lookup_lt_is_Some_2 _ _ Hp) as [pd Hpd].
  assert (Hpd1 : heap w1 !! p = Some pd) by by apply lookup_app_l_Some.
  cut (forall r1 w2, addChildNode p new w1 = (r1, w2) ->
       sound w2 /\ r1 = Ok tt).
  { intros Hcut. unfold bind.
    destruct (addChildNode p new w1) as [[[]|e|] w2];
      destruct (Hcut _ _ eq_refl) as [? ?]; [|done..].
    unfold ret. by intros [= <- <-]. }
  intros r1 w2. unfold addChildNode.
  rewrite (simple_bind_getM _ _ _ pd) by done.
  pose proof Hs as (_ & _ & Hall).
  destruct (Hall _ _ Hpd) as (_ & Hchild & _).
  destruct (child pd) as [c|] eqn:Hc.
  - destruct (proj1 (parent_at_Some _ _ _) (Hchild c eq_refl))
      as (cd & Hcd & Hcp).
    pose proof (lookup_lt_Some _ _ _ Hcd) as Hclt.
    assert (Hcd1 : heap w1 !! c = Some cd) by by apply lookup_app_l_Some.
    rewrite !bind_assoc.
    rewrite (simple_bind_setattr _ _ _ _ nd0) by done.
    set (w2' := with_heap (<[new := set_sibling_next (Some c) nd0]> (heap w1)) w1).
    assert (Hs2 : sound w2').
    { apply (sound_insert w1 new nd0); [done|done|done|done|].
      intros n [= <-]. split; [unfold new; lia|].
      apply parent_at_Some. exists cd. split; [done|]. by rewrite Hcp. }
    assert (Hpd2 : heap w2' !! p = Some pd).
    { unfold w2'. cbn [heap with_heap].
      rewrite list_lookup_insert_ne by (unfold new; lia). done. }
    assert (Hcd2 : heap w2' !! c = Some cd).
    { unfold w2'. cbn [heap with_heap].
      rewrite list_lookup_insert_ne by (unfold new; lia). done. }
    rewrite !bind_assoc. rewrite (simple_bind_getM _ _ _ pd) by done.
    rewrite Hc. rewrite (simple_bind_setattr _ _ _ _ cd) by done.
    set (w3 := with_heap (<[c := set_sibling_prev (Some new) cd]> (heap w2')) w2').
    assert (Hs3 : sound w3) by by apply (simple_sound_same_links w2' c cd).
    assert (Hpc : p <> c).
    { intros ->. destruct (Hall _ _ Hcd) as (H1 & _). specialize (H1 _ Hcp). lia. }
    assert (Hpd3 : heap w3 !! p = Some pd).
    { unfold w3. cbn [heap with_heap]. by rewrite list_lookup_insert_ne. }
    unfold setattr. rewrite Hpd3. intros [= <- <-]. split; [|done].
    apply (sound_insert w3 p pd); [done|done|done| |].
    + intros c' [= <-]. apply parent_at_Some.
      unfold w3. cbn [heap with_heap].
      assert (new <> c) by (unfold new; lia).
      rewrite list_lookup_insert_ne by done.
      unfold w2'. cbn [heap with_heap].
      rewrite list_lookup_insert_eq
        by (unfold w1; cbn [heap with_heap]; rewrite length_app; simpl; unfold new; lia).
      eexists. split; [done|]. done.
    + destruct (proj2 (proj2 Hs3) _ _ Hpd3) as (_ & _ & H3). exact H3.
  - rewrite bind_ret. unfold setattr. rewrite Hpd1. intros [= <- <-].
    split; [|done].
    apply (sound_insert w1 p pd); [done|done|done| |].
    + intros c' [= <-]. apply parent_at_Some. eauto.
    + destruct (proj2 (proj2 Hs1) _ _ Hpd1) as (_ & _ & H3). exact H3.
Qed.

(** The search of [deleteNode] ends at a node whose next sibling is the
    node looked for. *)
Lemma deleteNode_while_Some fuel w node first s :
  deleteNode_while fuel w node first = Ok (Some s) ->
  exists sd, heap w !! s = Some sd /\ sibling_next sd = Some node.
Proof.
  revert first. induction fuel as [|fuel IH]; intros [c|]; simpl; try done.
  - unfold get. destruct (heap w !! c) as [cd|] eqn:Hc; [|done].
    cbn [rbind]. unfold is_ref.
    destruct (sibling_next cd) as [n|] eqn:Hn; [|done].
    destruct (Nat.eqb n node) eqn:E; [|done].
    apply Nat.eqb_eq in E as ->. intros [= <-]. eauto.
  - unfold get. destruct (heap w !! c) as [cd|] eqn:Hc; [|done].
    cbn [rbind]. unfold is_ref.
    destruct (sibling_next cd) as [n|] eqn:Hn.
    + destruct (Nat.eqb n node) eqn:E.
      * apply Nat.eqb_eq in E as ->. intros [= <-]. eauto.
      * apply IH.
    + apply IH.
Qed.

Lemma keeps_sound_setattr_prev r v : keeps sound (setattr r (set_sibling_prev v)).
Proof. by apply keeps_setattr_same. Qed.

Lemma keeps_deleteNode_unlink fuel node :
  keeps sound (deleteNode_unlink fuel node).
Proof.
  intros w res w' Hs. unfold deleteNode_unlink, getM.
  apply Invariant.keeps_bind_reads; [|done].
  intros nd Hnd%SimpleRaise.simple_get_inv.
  destruct (parent nd) as [p|] eqn:Hp; [|by intros [= _ <-]].
  apply Invariant.keeps_bind_reads; [|done].
  intros pd Hpd%SimpleRaise.simple_get_inv.
  pose proof Hs as (_ & _ & Hall).
  destruct (Hall _ _ Hnd) as (Hn1 & _ & Hn3).
  destruct (is_ref (child pd) node) eqn:Href.
  - unfold bind at 1. unfold setattr at 1. rewrite Hpd.
    set (w1 := with_heap _ w).
    assert (Hs1 : sound w1).
    { apply (sound_insert w p pd); [done|done|done| |].
      - intros c Hc. cbn in Hc. destruct (Hn3 _ Hc) as [_ ?]. by rewrite <- Hp.
      - destruct (Hall _ _ Hpd) as (_ & _ & H3). exact H3. }
    revert Hs1. generalize w1. clear. intros w1 Hs1.
    apply Invariant.keeps_bind_reads; [|done]. intros nd1 _.
    destruct (sibling_next nd1); [|by intros [= _ <-]].
    by apply keeps_sound_setattr_prev.
  - apply Invariant.keeps_bind_reads; [|done]. intros [s|] Hwhile;
      [|by intros [= _ <-]].
    apply deleteNode_while_Some in Hwhile as (sd & Hsd & Hsn).
    destruct (Hall _ _ Hsd) as (_ & _ & Hs3).
    destruct (Hs3 _ Hsn) as [Hlt Hpar].
    apply parent_at_Some in Hpar as (nd' & Hnd' & Hpar).
    assert (nd' = nd) as -> by congruence.
    unfold bind at 1. unfold setattr at 1. rewrite Hsd.
    set (w1 := with_heap _ w).
    assert (Hs1 : sound w1).
    { apply (sound_insert w s sd); [done|done|done| |].
      - destruct (Hall _ _ Hsd) as (_ & H2 & _). exact H2.
      - intros n Hn. cbn in Hn. destruct (Hn3 _ Hn) as [? ?].
        split; [lia|]. by rewrite <- Hpar. }
    revert Hs1. generalize w1. clear. intros w1 Hs1.
    apply Invariant.keeps_bind_reads; [|done]. intros nd1 _.
    destruct (sibling_next nd1); [|by intros [= _ <-]].
    by apply keeps_sound_setattr_prev.
Qed.

Lemma keeps_deleteNode_rec fuel n :
  (forall node, keeps sound (deleteNode_rec fuel n node))
  /\ (forall sibling, keeps sound (deleteNode_loop fuel n sibling)).
Proof.
  induction n as [|n [IHr IHl]]; split.
  - intros node. apply Invariant.keeps_stuck.
  - intros [s|]; [apply Invariant.keeps_stuck|apply Invariant.keeps_ret].
  - intros node. cbn [deleteNode_rec].
    apply Invariant.keeps_bind; [apply keeps_deleteNode_unlink|]. intros _.
    apply Invariant.keeps_bind; [apply Invariant.keeps_reads|]. intros nd.
    apply IHl.
  - intros [s|]; [|apply Invariant.keeps_ret]. cbn [deleteNode_loop].
    apply Invariant.keeps_bind; [apply Invariant.keeps_reads|]. intros sd.
    apply Invariant.keeps_bind; [apply IHr|]. intros _. apply IHl.
Qed.

Lemma keeps_deleteNode fuel node : keeps sound (deleteNode fuel node).
Proof. apply keeps_deleteNode_rec. Qed.

Lemma keeps_onDelete fuel selected reply_yes :
  keeps sound (onDelete fuel selected reply_yes).
Proof.
  unfold onDelete. destruct selected as [item|]; [|apply Invariant.keeps_ret].
  apply Invariant.keeps_bind; [apply Invariant.keeps_reads|]. intros node.
  apply Invariant.keeps_bind; [apply Invariant.keeps_reads|]. intros nd.
  destruct (isdir nd), reply_yes;
    first [apply keeps_deleteNode | apply Invariant.keeps_ret].
Qed.

Lemma keeps_onEdit fuel selected edit : keeps sound (onEdit fuel selected edit).
Proof.
  unfold onEdit. destruct selected as [item|]; [|apply Invariant.keeps_ret].
  apply Invariant.keeps_bind; [apply Invariant.keeps_reads|]. intros node.
  apply Invariant.keeps_bind; [apply Invariant.keeps_reads|]. intros nd.
  destruct (isdir nd); [apply Invariant.keeps_ret|].
  destruct edit; [|apply Invariant.keeps_ret].
  unfold saveFile. by apply keeps_setattr_same.
Qed.

(** What the two searches find is a node of the store. *)
Lemma first_child_named_lt w nd name c :
  first_child_named w nd name = Ok (Some c) -> c < length (heap w).
Proof.
  unfold first_child_named. destruct (child nd) as [c'|]; [|done].
  unfold get. destruct (heap w !! c') as [cd|] eqn:Hc; [|done]. cbn [rbind].
  destruct (String.eqb _ _); intros [= <-]. by eapply lookup_lt_Some.
Qed.

Lemma findNode_while_lt fuel w first name s :
  findNode_while fuel w first name = Ok (Some s) -> s < length (heap w).
Proof.
  revert first. induction fuel as [|fuel IH]; intros [c|]; simpl; try done.
  unfold get. destruct (heap w !! c) as [cd|] eqn:Hc; [|done]. cbn [rbind].
  destruct (String.eqb _ _).
  - intros [= <-]. by eapply lookup_lt_Some.
  - apply IH.
Qed.

Lemma findNode_for_lt fuel w p names n :
  p < length (heap w) -> findNode_for fuel w p names = Ok (Some n) ->
  n < length (heap w).
Proof.
  revert p. induction names as [|name names IH]; intros p Hp.
  - by intros [= <-].
  - cbn [findNode_for]. destruct (String.eqb name ""); [by apply IH|].
    destruct (get w p) as [pd| |]; cbn [rbind]; [|done..].
    destruct (first_child_named w pd name) as [[c|]| |] eqn:E1;
      cbn [rbind]; [|  |done..].
    + apply IH. by eapply first_child_named_lt.
    + destruct (findNode_while fuel w (child pd) name) as [[s|]| |] eqn:E2;
        cbn [rbind]; [|done..].
      apply IH. by eapply findNode_while_lt.
Qed.

Lemma getNodeFromItem_for_lt fuel w p names n :
  p < length (heap w) -> getNodeFromItem_for fuel w p names = Ok n ->
  n < length (heap w).
Proof.
  revert p. induction names as [|name names IH]; intros p Hp.
  - by intros [= <-].
  - cbn [getNodeFromItem_for].
    destruct (get w p) as [pd| |]; cbn [rbind]; [|done..].
    destruct (first_child_named w pd name) as [[c|]| |] eqn:E1;
      cbn [rbind]; [|  |done..].
    + apply IH. by eapply first_child_named_lt.
    + destruct (findNode_while fuel w (child pd) name) as [[s|]| |] eqn:E2;
        cbn [rbind]; [| |done..].
      * apply IH. by eapply findNode_while_lt.
      * by apply IH.
Qed.

Lemma sound_root_lt w : sound w -> root w < length (heap w).
Proof. intros (H & _). by eapply parent_at_lt. Qed.

Lemma sound_with_current_node w n :
  sound w -> n < length (heap w) -> sound (with_current_node n w).
Proof. intros (? & ? & ?) Hn. done. Qed.

Lemma keeps_onSelectionChanged fuel selected :
  keeps sound (onSelectionChanged fuel selected).
Proof.
  unfold onSelectionChanged. destruct selected as [item|];
    [|apply Invariant.keeps_ret].
  intros w res w' Hs. apply Invariant.keeps_bind_reads; [|done].
  intros node Hnode. intros [= _ <-]. apply sound_with_current_node; [done|].
  eapply getNodeFromItem_for_lt; [|done]. by apply sound_root_lt.
Qed.

Lemma keeps_onPathEntered fuel path : keeps sound (onPathEntered fuel path).
Proof.
  unfold onPathEntered. intros w res w' Hs.
  apply Invariant.keeps_bind_reads; [|done].
  intros [n|] Hfind; [|by intros [= _ <-]].
  intros [= _ <-]. apply sound_with_current_node; [done|].
  eapply findNode_for_lt; [|done]. by apply sound_root_lt.
Qed.

Lemma keeps_onCreate fuel isdir path : keeps sound (onCreate fuel isdir path).
Proof.
  unfold onCreate. intros w res w' Hs.
  apply Invariant.keeps_bind_reads; [|done]. intros w0 [= <-].
  assert (Hrest : forall new_name parent_node,
    match parent_node with Some p => p < length (heap w) | None => True end ->
    (match parent_node with
     | None => ret (Some parent_not_directory)
     | Some p =>
         let! pd := getM p in
         if negb (Simple.isdir pd) then ret (Some parent_not_directory)
         else
           let! existing := reads (fun w => findNode fuel w path) in
           match existing with
           | None => exec create_under new_name isdir p in ret None
           | Some _ =>
               ret (Some (if isdir then directory_already_exists
                          else file_already_exists))
           end
     end) w = (res, w') -> sound w').
  { intros new_name [p|] Hp; [|by intros [= _ <-]].
    apply Invariant.keeps_bind_reads; [|done]. intros pd _.
    destruct (negb (Simple.isdir pd)); [by intros [= _ <-]|].
    apply Invariant.keeps_bind_reads; [|done].
    intros [e|] _; [by intros [= _ <-]|].
    unfold bind.
    destruct (create_under new_name isdir p w) as [[a|e|] w1] eqn:E;
      destruct (create_under_sound _ _ _ _ _ _ Hs Hp E) as [? _];
      unfold ret; by intros [= _ <-]. }
  destruct (Nat.ltb 1 (length (split "/" path))).
  - rewrite bind_assoc. apply Invariant.keeps_bind_reads; [|done].
    intros parent_node Hfind. rewrite bind_ret. cbv beta iota.
    apply (Hrest (List.last (split "/" path) "") parent_node).
    destruct parent_node as [p|]; [|done].
    eapply findNode_for_lt; [|done]. by apply sound_root_lt.
  - rewrite bind_ret. cbv beta iota.
    apply (Hrest path (Some (current_node w))).
    by destruct Hs as (_ & ? & _).
Qed.

Lemma keeps_simple_perform fuel o : keeps sound (perform fuel o).
Proof.
  destruct o as [[] path|selected reply_yes|selected edit|path];
    cbn [perform].
  - apply keeps_onCreate.
  - apply keeps_onCreate.
  - apply Invariant.keeps_bind; [apply keeps_onDelete|].
    intros _. apply Invariant.keeps_ret.
  - apply Invariant.keeps_bind; [apply keeps_onEdit|].
    intros _. apply Invariant.keeps_ret.
  - apply keeps_onPathEntered.
Qed.

Lemma keeps_handle fuel e : keeps sound (handle fuel e).
Proof.
  destruct e as [selected|o]; cbn [handle].
  - apply Invariant.keeps_bind; [apply keeps_onSelectionChanged|].
    intros _. apply Invariant.keeps_ret.
  - apply keeps_simple_perform.
Qed.

Lemma simple_sound_init : sound init.
Proof.
  split; [done|]. split; [simpl; lia|].
  intros [|x] nd; [|done]. intros [= <-]. done.
Qed.

Lemma simple_sound_run fuel es w : sound w -> sound (run fuel es w).
Proof.
  revert w. induction es as [|e es IH]; intros w Hs; [done|].
  cbn [run]. apply IH.
  destruct (handle fuel e w) as [r w'] eqn:E. by eapply keeps_handle.
Qed.

End SimpleInvariant.

(** ** simplefilesystem.py: the handlers end *)
Module SimpleEnds.
Import Chain ChainFacts PyFacts PathFacts Simple SimpleFacts SimpleInvariant.

Lemma sound_child w x nd c :
  sound w -> heap w !! x = Some nd -> child nd = Some c ->
  x < c /\ c < length (heap w) /\ parent_at w c = Some (Some x).
Proof.
  intros (_ & _ & Hall) Hx Hc. destruct (Hall _ _ Hx) as (_ & H2 & _).
  pose proof (H2 _ Hc) as Hp. split; [|split; [by eapply parent_at_lt|done]].
  apply parent_at_Some in Hp as (cd & Hcd & Hcp).
  destruct (Hall _ _ Hcd) as (H1 & _). by apply H1.
Qed.

Lemma sound_next w x nd n :
  sound w -> heap w !! x = Some nd -> sibling_next nd = Some n ->
  n < x /\ n < length (heap w) /\ parent_at w n = Some (parent nd).
Proof.
  intros (_ & _ & Hall) Hx Hn. destruct (Hall _ _ Hx) as (_ & _ & H3).
  destruct (H3 _ Hn) as [? Hp]. split; [done|].
  split; [by eapply parent_at_lt|done].
Qed.

Lemma sound_rank w x q : sound w -> parent_at w x = Some q -> rank q <= x.
Proof.
  intros (_ & _ & Hall) (nd & Hnd & <-)%parent_at_Some.
  destruct (Hall _ _ Hnd) as (H1 & _).
  destruct (parent nd) as [p|]; simpl; [|lia]. specialize (H1 p eq_refl). lia.
Qed.

(** *** The searches end *)
Lemma findNode_while_returns w name :
  sound w -> forall fuel first,
  (forall c, first = Some c -> c < length (heap w) /\ c < fuel) ->
  exists r, findNode_while fuel w first name = Ok r.
Proof.
  intros Hs. induction fuel as [|fuel IH]; intros [c|] Hc; try (by eexists).
  - destruct (Hc c eq_refl). lia.
  - destruct (Hc c eq_refl) as [Hv Hf].
    destruct (lookup_lt_is_Some_2 _ _ Hv) as [cd Hcd].
    cbn [findNode_while]. unfold get. rewrite Hcd. cbn [rbind].
    destruct (String.eqb _ _); [by eexists|]. apply IH.
    intros n Hn. destruct (sound_next _ _ _ _ Hs Hcd Hn) as (? & ? & _).
    split; [done|lia].
Qed.

Lemma first_child_named_returns w p pd name :
  sound w -> heap w !! p = Some pd ->
  exists r, first_child_named w pd name = Ok r.
Proof.
  intros Hs Hp. unfold first_child_named.
  destruct (child pd) as [c|] eqn:Hc; [|by eexists].
  destruct (sound_child _ _ _ _ Hs Hp Hc) as (_ & Hv & _).
  destruct (lookup_lt_is_Some_2 _ _ Hv) as [cd Hcd].
  unfold get. rewrite Hcd. by eexists.
Qed.

Lemma findNode_for_returns fuel w names :
  sound w -> length (heap w) <= fuel ->
  forall p, p < length (heap w) ->
  exists r, findNode_for fuel w p names = Ok r.
Proof.
  intros Hs Hf. induction names as [|name names IH]; intros p Hp;
    [by eexists|].
  cbn [findNode_for]. destruct (String.eqb name ""); [by apply IH|].
  destruct (lookup_lt_is_Some_2 _ _ Hp) as [pd Hpd].
  unfold get at 1. rewrite Hpd. cbn [rbind].
  destruct (first_child_named_returns w p pd name Hs Hpd) as [[c|] E];
    rewrite E; cbn [rbind].
  - apply IH. by eapply first_child_named_lt.
  - destruct (findNode_while_returns w name Hs fuel (child pd)) as [[s|] E2].
    { intros c Hc. destruct (sound_child _ _ _ _ Hs Hpd Hc) as (_ & ? & _).
      split; [done|lia]. }
    + rewrite E2. cbn [rbind]. apply IH. by eapply findNode_while_lt.
    + rewrite E2. by eexists.
Qed.

Lemma getNodeFromItem_for_returns fuel w names :
  sound w -> length (heap w) <= fuel ->
  forall p, p < length (heap w) ->
  exists n, getNodeFromItem_for fuel w p names = Ok n
            /\ n < length (heap w).
Proof.
  intros Hs Hf. induction names as [|name names IH]; intros p Hp;
    [by eexists|].
  cbn [getNodeFromItem_for].
  destruct (lookup_lt_is_Some_2 _ _ Hp) as [pd Hpd].
  unfold get at 1. rewrite Hpd. cbn [rbind].
  destruct (first_child_named_returns w p pd name Hs Hpd) as [[c|] E];
    rewrite E; cbn [rbind].
  - apply IH. by eapply first_child_named_lt.
  - destruct (findNode_while_returns w name Hs fuel (child pd)) as [[s|] E2].
    { intros c Hc. destruct (sound_child _ _ _ _ Hs Hpd Hc) as (_ & ? & _).
      split; [done|lia]. }
    + rewrite E2. cbn [rbind]. apply IH. by eapply findNode_while_lt.
    + rewrite E2. cbn [rbind]. by apply IH.
Qed.

Lemma deleteNode_while_returns w node :
  sound w -> forall fuel first,
  (forall c, first = Some c -> c < length (heap w) /\ c < fuel) ->
  exists r, deleteNode_while fuel w node first = Ok r.
Proof.
  intros Hs. induction fuel as [|fuel IH]; intros [c|] Hc; try (by eexists).
  - destruct (Hc c eq_refl). lia.
  - destruct (Hc c eq_refl) as [Hv Hf].
    destruct (lookup_lt_is_Some_2 _ _ Hv) as [cd Hcd].
    cbn [deleteNode_while]. unfold get. rewrite Hcd. cbn [rbind].
    destruct (is_ref _ _); [by eexists|]. apply IH.
    intros n Hn. destruct (sound_next _ _ _ _ Hs Hcd Hn) as (? & ? & _).
    split; [done|lia].
Qed.

(** *** Writes that keep the nodes and their parents *)
Lemma same_parents_refl w : same_parents w w.
Proof. done. Qed.

Lemma same_parents_trans w1 w2 w3 :
  same_parents w1 w2 -> same_parents w2 w3 -> same_parents w1 w3.
Proof.
  intros [H1 H2] [H3 H4]. split; [congruence|].
  intros x. by rewrite H4.
Qed.

Lemma same_parents_insert w r nd nd' :
  heap w !! r = Some nd -> parent nd' = parent nd ->
  same_parents w (with_heap (<[r := nd']> (heap w)) w).
Proof.
  intros Hr Hp. split.
  - cbn [heap with_heap]. by rewrite length_insert.
  - intros x. by apply (parent_at_insert w r nd nd').
Qed.

(** The end of both branches of the first half of [deleteNode]. *)
Lemma unlink_tail w node v :
  sound w -> node < length (heap w) ->
  exists w',
    (let! nd := getM node in
     match sibling_next nd with
     | Some nx => setattr nx (set_sibling_prev v)
     | None => ret tt
     end) w = (Ok tt, w')
    /\ sound w' /\ same_parents w w'.
Proof.
  intros Hs Hn. destruct (lookup_lt_is_Some_2 _ _ Hn) as [nd Hnd].
  rewrite (simple_bind_getM _ _ _ nd) by done.
  destruct (sibling_next nd) as [nx|] eqn:Hx.
  - destruct (sound_next _ _ _ _ Hs Hnd Hx) as (_ & Hv & _).
    destruct (lookup_lt_is_Some_2 _ _ Hv) as [xd Hxd].
    rewrite (simple_setattr_Ok _ _ _ _ Hxd). eexists. split; [done|]. split.
    + by apply (simple_sound_same_links w nx xd).
    + by apply (same_parents_insert w nx xd).
  - exists w. done.
Qed.

Lemma deleteNode_unlink_returns fuel node w :
  sound w -> node < length (heap w) -> length (heap w) <= fuel ->
  exists w',
    deleteNode_unlink fuel node w = (Ok tt, w')
    /\ sound w' /\ same_parents w w'.
Proof.
  intros Hs Hn Hf. destruct (lookup_lt_is_Some_2 _ _ Hn) as [nd Hnd].
  unfold deleteNode_unlink. rewrite (simple_bind_getM _ _ _ nd) by done.
  destruct (parent nd) as [p|] eqn:Hp; [|by exists w].
  pose proof Hs as (_ & _ & Hall).
  destruct (Hall _ _ Hnd) as (Hn1 & _ & Hn3). specialize (Hn1 _ Hp).
  assert (Hpv : p < length (heap w)) by lia.
  destruct (lookup_lt_is_Some_2 _ _ Hpv) as [pd Hpd].
  rewrite (simple_bind_getM _ _ _ pd) by done.
  destruct (is_ref (child pd) node) eqn:Href.
  - rewrite (simple_bind_setattr _ _ _ _ pd) by done.
    set (w1 := with_heap _ w).
    assert (Hs1 : sound w1).
    { apply (sound_insert w p pd); [done|done|done| |].
      - intros c Hc. cbn in Hc. destruct (Hn3 _ Hc) as [_ ?]. by rewrite <- Hp.
      - destruct (Hall _ _ Hpd) as (_ & _ & H3). exact H3. }
    assert (Hp1 : same_parents w w1) by by apply (same_parents_insert w p pd).
    destruct (unlink_tail w1 node None Hs1) as (w2 & E & Hs2 & Hp2).
    { destruct Hp1 as [-> _]. done. }
    exists w2. split; [done|]. split; [done|].
    by eapply same_parents_trans.
  - destruct (deleteNode_while_returns w node Hs fuel (child pd)) as [r Hr].
    { intros c Hc. destruct (sound_child _ _ _ _ Hs Hpd Hc) as (_ & ? & _).
      split; [done|lia]. }
    rewrite (bind_reads_Ok (fun w => deleteNode_while fuel w node (child pd))
               _ w _ Hr).
    destruct r as [s|]; [|by exists w].
    pose proof Hr as (sd & Hsd & Hsn)%deleteNode_while_Some.
    destruct (Hall _ _ Hsd) as (_ & _ & Hs3).
    destruct (Hs3 _ Hsn) as [Hlt Hpar].
    apply parent_at_Some in Hpar as (nd' & Hnd' & Hpar).
    assert (nd' = nd) as -> by congruence.
    rewrite (simple_bind_setattr _ _ _ _ sd) by done.
    set (w1 := with_heap _ w).
    assert (Hs1 : sound w1).
    { apply (sound_insert w s sd); [done|done|done| |].
      - destruct (Hall _ _ Hsd) as (_ & H2 & _). exact H2.
      - intros n Hn'. cbn in Hn'. destruct (Hn3 _ Hn') as [? ?].
        split; [lia|]. by rewrite <- Hpar. }
    assert (Hp1 : same_parents w w1) by by apply (same_parents_insert w s sd).
    destruct (unlink_tail w1 node (Some s) Hs1) as (w2 & E & Hs2 & Hp2).
    { destruct Hp1 as [-> _]. done. }
    exists w2. split; [done|]. split; [done|].
    by eapply same_parents_trans.
Qed.

Lemma deleteNode_loop_None fuel n w : deleteNode_loop fuel n None w = (Ok tt, w).
Proof. by destruct n. Qed.

Lemma rec_budget H x c n :
  x < c -> c < H -> 2 * H * (H - x) <= S n ->
  2 * H * (H - x - 1) + c + 1 <= n.
Proof.
  intros Hxc HcH Hn.
  assert (H - x = S (H - x - 1)) as E by lia. rewrite E in Hn.
  rewrite Nat.mul_succ_r in Hn.
  set (t := 2 * H * (H - x - 1)) in *. lia.
Qed.

Lemma loop_budget H x s n :
  x < s -> s < H -> 2 * H * (H - x - 1) + s + 1 <= S n ->
  2 * H * (H - s) <= n.
Proof.
  intros Hxs HsH Hn.
  assert (2 * H * (H - s) <= 2 * H * (H - x - 1))
    by (apply Nat.mul_le_mono_l; lia).
  set (t := 2 * H * (H - x - 1)) in *. set (u := 2 * H * (H - s)) in *. lia.
Qed.

(** [deleteNode] and its loop end: a call on [x] needs a budget that
    falls with [x], since the children of [x] were made after [x], and a
    turn of the loop at [s] one that falls with [s], since the next
    sibling of [s] was made before [s]. *)
Lemma deleteNode_rec_returns fuel H n :
  H <= fuel ->
  (forall x w, sound w -> length (heap w) = H -> x < H ->
     2 * H * (H - x) <= n ->
     exists w', deleteNode_rec fuel n x w = (Ok tt, w')
                /\ sound w' /\ same_parents w w')
  /\ (forall s x w, sound w -> length (heap w) = H ->
        parent_at w s = Some (Some x) ->
        2 * H * (H - x - 1) + s + 1 <= n ->
        exists w', deleteNode_loop fuel n (Some s) w = (Ok tt, w')
                   /\ sound w' /\ same_parents w w').
Proof.
  intros Hf. induction n as [|n [IHr IHl]]; split.
  - intros x w _ _ Hx Hn. exfalso.
    assert (0 < 2 * H * (H - x)) by (apply Nat.mul_pos_pos; lia). lia.
  - intros s x w _ _ _ Hn. set (t := 2 * H * (H - x - 1)) in *. lia.
  - intros x w Hs HH Hx Hn. cbn [deleteNode_rec].
    destruct (deleteNode_unlink_returns fuel x w Hs) as (w1 & E1 & Hs1 & Hp1);
      [lia..|].
    rewrite (bind_Ok _ _ _ _ _ E1).
    pose proof Hp1 as [HH1 _].
    assert (Hx1 : x < length (heap w1)) by lia.
    destruct (lookup_lt_is_Some_2 _ _ Hx1) as [nd1 Hnd1].
    rewrite (simple_bind_getM _ _ _ nd1) by done.
    destruct (child nd1) as [c|] eqn:Hc.
    + destruct (sound_child _ _ _ _ Hs1 Hnd1 Hc) as (Hxc & Hcv & Hcp).
      destruct (IHl c x w1 Hs1) as (w2 & E2 & Hs2 & Hp2); [lia|done| |].
      { apply rec_budget; [done|lia|done]. }
      exists w2. split; [done|]. split; [done|].
      by eapply same_parents_trans.
    + rewrite deleteNode_loop_None. by exists w1.
  - intros s x w Hs HH Hp Hn. cbn [deleteNode_loop].
    pose proof (parent_at_lt _ _ _ Hp) as Hsv.
    pose proof (sound_rank _ _ _ Hs Hp) as Hxs. simpl in Hxs.
    pose proof Hp as (sd & Hsd & Hsp)%parent_at_Some.
    rewrite (simple_bind_getM _ _ _ sd) by done.
    destruct (IHr s w Hs) as (w1 & E1 & Hs1 & Hp1); [done|lia| |].
    { apply (loop_budget H x); [lia|lia|done]. }
    rewrite (bind_Ok _ _ _ _ _ E1).
    destruct (sibling_next sd) as [nx|] eqn:Hnx.
    + destruct (sound_next _ _ _ _ Hs Hsd Hnx) as (Hlt & Hv & Hnp).
      destruct (IHl nx x w1 Hs1) as (w2 & E2 & Hs2 & Hp2).
      * destruct Hp1 as [-> _]. done.
      * destruct Hp1 as [_ ->]. by rewrite Hnp, Hsp.
      * lia.
      * exists w2. split; [done|]. split; [done|].
        by eapply same_parents_trans.
    + rewrite deleteNode_loop_None. by exists w1.
Qed.

Lemma enough_le h : h <= enough h /\ 2 * h * h <= enough h
                    /\ 2 * h * (h + 2) <= enough h
                    /\ 2 * (h + 1) * (h + 3) <= enough h.
Proof. unfold enough. repeat split; nia. Qed.

Lemma deleteNode_returns fuel node w :
  sound w -> node < length (heap w) -> enough (length (heap w)) <= fuel ->
  exists w', deleteNode fuel node w = (Ok tt, w')
             /\ sound w' /\ same_parents w w'.
Proof.
  intros Hs Hn Hf. destruct (enough_le (length (heap w))) as (H1 & H2 & _).
  unfold deleteNode.
  apply (proj1 (deleteNode_rec_returns fuel (length (heap w)) fuel
                  ltac:(lia))); [done..|].
  assert (2 * length (heap w) * (length (heap w) - node)
          <= 2 * length (heap w) * length (heap w))
    by (apply Nat.mul_le_mono_l; lia).
  lia.
Qed.

(** *** The tree widget is filled *)
Lemma show_budget H r x c n :
  r <= x -> x < c -> c < H ->
  2 * H * (H + 1 - r) + 2 * x + 1 <= S n ->
  2 * H * (H + 1 - S x) + 2 * c + 1 <= n.
Proof.
  intros Hr Hxc HcH Hn.
  assert (2 * H * (S (H + 1 - S x)) <= 2 * H * (H + 1 - r))
    by (apply Nat.mul_le_mono_l; lia).
  rewrite Nat.mul_succ_r in *. lia.
Qed.

Lemma addTreeItems_returns w H :
  sound w -> length (heap w) = H -> forall n,
  (forall x q, parent_at w x = Some q ->
     2 * H * (H + 1 - rank q) + 2 * x + 1 <= n ->
     exists its, addTreeItems n w x = Ok its)
  /\ (forall s q, parent_at w s = Some q ->
        2 * H * (H + 1 - rank q) + 2 * s + 2 <= n ->
        exists its, addTreeItems_while n w (Some s) = Ok its).
Proof.
  intros Hs HH. induction n as [|n [IHa IHw]]; split.
  - intros x q _ Hn. set (t := 2 * H * (H + 1 - rank q)) in *. lia.
  - intros s q _ Hn. set (t := 2 * H * (H + 1 - rank q)) in *. lia.
  - intros x q Hq Hn. rewrite SimpleShow.addTreeItems_S.
    pose proof (sound_rank _ _ _ Hs Hq) as Hrk.
    pose proof (parent_at_lt _ _ _ Hq) as Hxv.
    apply parent_at_Some in Hq as (nd & Hnd & Hq).
    unfold get. rewrite Hnd. cbn [rbind].
    assert (exists l, match child nd with
                      | Some c => addTreeItems n w c
                      | None => Ok []
                      end = Ok l) as [l ->].
    { destruct (child nd) as [c|] eqn:Hc; [|by eexists].
      destruct (sound_child _ _ _ _ Hs Hnd Hc) as (Hxc & Hcv & Hcp).
      apply (IHa c (Some x)); [done|]. cbn [rank].
      apply (show_budget H (rank q) x); [done|done|lia|done]. }
    cbn [rbind].
    assert (exists l, addTreeItems_while n w (sibling_next nd) = Ok l)
      as [l' ->].
    { destruct (sibling_next nd) as [nx|] eqn:Hnx.
      - destruct (sound_next _ _ _ _ Hs Hnd Hnx) as (Hlt & Hv & Hnp).
        apply (IHw nx q); [by rewrite Hnp, Hq|]. lia.
      - rewrite SimpleShow.addTreeItems_while_None. by eexists. }
    by eexists.
  - intros s q Hq Hn. rewrite SimpleShow.addTreeItems_while_S.
    destruct (IHa s q Hq) as [l ->]; [lia|]. cbn [rbind].
    pose proof Hq as (sd & Hsd & Hsq)%parent_at_Some.
    unfold get. rewrite Hsd. cbn [rbind].
    assert (exists l, addTreeItems_while n w (sibling_next sd) = Ok l)
      as [l' ->].
    { destruct (sibling_next sd) as [nx|] eqn:Hnx.
      - destruct (sound_next _ _ _ _ Hs Hsd Hnx) as (Hlt & Hv & Hnp).
        apply (IHw nx q); [by rewrite Hnp, Hsq|]. lia.
      - rewrite SimpleShow.addTreeItems_while_None. by eexists. }
    by eexists.
Qed.

Lemma updateTree_returns fuel w sel :
  sound w -> 2 * length (heap w) * (length (heap w) + 2) <= fuel ->
  (forall n, sel = Some n -> n < length (heap w)) ->
  exists its, updateTree fuel w sel = Ok its.
Proof.
  intros Hs Hf Hsel. unfold updateTree.
  set (x := match sel with Some n => n | None => root w end).
  assert (Hx : x < length (heap w)).
  { unfold x. destruct sel; [by apply Hsel|by apply sound_root_lt]. }
  destruct (lookup_lt_is_Some_2 _ _ Hx) as [nd Hnd].
  apply (proj1 (addTreeItems_returns w _ Hs eq_refl fuel) x (parent nd)).
  - apply parent_at_Some. eauto.
  - assert (2 * length (heap w) * (length (heap w) + 1 - rank (parent nd))
            <= 2 * length (heap w) * (length (heap w) + 1))
      by (apply Nat.mul_le_mono_l; lia).
    nia.
Qed.

(** *** The handlers end *)
Lemma onSelectionChanged_returns fuel selected w :
  sound w -> length (heap w) <= fuel ->
  exists w', onSelectionChanged fuel selected w = (Ok tt, w')
             /\ length (heap w') = length (heap w).
Proof.
  intros Hs Hf. unfold onSelectionChanged.
  destruct selected as [item|]; [|by exists w].
  destruct (getNodeFromItem_for_returns fuel w (List.tl item) Hs Hf (root w))
    as (n & E & _); [by apply sound_root_lt|].
  rewrite (bind_reads_Ok (fun w => getNodeFromItem fuel w item) _ w n)
    by done.
  by eexists.
Qed.

Lemma findNode_returns fuel w path :
  sound w -> length (heap w) <= fuel ->
  exists r, findNode fuel w path = Ok r
            /\ forall n, r = Some n -> n < length (heap w).
Proof.
  intros Hs Hf. unfold findNode.
  destruct (findNode_for_returns fuel w (split "/" path) Hs Hf (root w))
    as [r E]; [by apply sound_root_lt|].
  exists r. split; [done|]. intros n ->.
  eapply findNode_for_lt; [|done]. by apply sound_root_lt.
Qed.

Lemma onPathEntered_returns fuel path w :
  sound w -> length (heap w) <= fuel ->
  exists r w', onPathEntered fuel path w = (Ok r, w')
               /\ length (heap w') = length (heap w).
Proof.
  intros Hs Hf. unfold onPathEntered.
  destruct (findNode_returns fuel w path Hs Hf) as (r & E & _).
  rewrite (bind_reads_Ok (fun w => findNode fuel w path) _ w r) by done.
  destruct r; by do 2 eexists.
Qed.

Lemma keeps_length_setattr k r f :
  keeps (fun s => length (heap s) = k) (setattr r f).
Proof.
  intros s res s' Hk. unfold setattr.
  destruct (heap s !! r); intros [= _ <-]; [|done].
  cbn [heap with_heap]. by rewrite length_insert.
Qed.

Lemma keeps_length_addChildNode k p new :
  keeps (fun s => length (heap s) = k) (addChildNode p new).
Proof.
  unfold addChildNode, getM.
  apply Invariant.keeps_bind; [apply Invariant.keeps_reads|]. intros pd.
  apply Invariant.keeps_bind; [|intros _; apply keeps_length_setattr].
  destruct (child pd); [|apply Invariant.keeps_ret].
  apply Invariant.keeps_bind; [apply keeps_length_setattr|]. intros _.
  apply Invariant.keeps_bind; [apply Invariant.keeps_reads|]. intros pd'.
  destruct (child pd'); [apply keeps_length_setattr|].
  by intros s res s' HP [= _ <-].
Qed.

Lemma create_under_length name isdir p w res w' :
  create_under name isdir p w = (res, w') ->
  length (heap w') = S (length (heap w)).
Proof.
  unfold create_under. rewrite simple_bind_alloc. unfold bind.
  set (w1 := with_heap _ w).
  assert (H1 : length (heap w1) = S (length (heap w))).
  { unfold w1. cbn [heap with_heap]. rewrite length_app. simpl. lia. }
  destruct (addChildNode p (length (heap w)) w1) as [[[]|e|] w2] eqn:E;
    pose proof (keeps_length_addChildNode _ _ _ _ _ _ H1 E);
    unfold ret; by intros [= _ <-].
Qed.

Lemma onCreate_returns fuel isdir path w :
  sound w -> length (heap w) <= fuel ->
  exists r w', onCreate fuel isdir path w = (Ok r, w')
               /\ length (heap w') <= S (length (heap w)).
Proof.
  intros Hs Hf. unfold onCreate.
  rewrite bind_reads_Ok with (a := w) by done. cbv beta.
  assert (Hrest : forall new_name parent_node,
    match parent_node with Some p => p < length (heap w) | None => True end ->
    exists r w',
    (match parent_node with
     | None => ret (Some parent_not_directory)
     | Some p =>
         let! pd := getM p in
         if negb (Simple.isdir pd) then ret (Some parent_not_directory)
         else
           let! existing := reads (fun w => findNode fuel w path) in
           match existing with
           | None => exec create_under new_name isdir p in ret None
           | Some _ =>
               ret (Some (if isdir then directory_already_exists
                          else file_already_exists))
           end
     end) w = (Ok r, w') /\ length (heap w') <= S (length (heap w))).
  { intros new_name [p|] Hp; [|exists (Some parent_not_directory), w; split; [done|lia]].
    destruct (lookup_lt_is_Some_2 _ _ Hp) as [pd Hpd].
    rewrite (simple_bind_getM _ _ _ pd) by done.
    destruct (negb (Simple.isdir pd));
      [exists (Some parent_not_directory), w; split; [done|lia]|].
    destruct (findNode_returns fuel w path Hs Hf) as (r & E & _).
    rewrite (bind_reads_Ok (fun w => findNode fuel w path) _ w r) by done.
    destruct r as [n|]; [eexists _, w; split; [done|lia]|].
    destruct (create_under new_name isdir p w) as [res w1] eqn:Ec.
    destruct (create_under_sound _ _ _ _ _ _ Hs Hp Ec) as [_ ->].
    pose proof (create_under_length _ _ _ _ _ _ Ec) as Hlen.
    rewrite (bind_Ok _ _ _ _ _ Ec). exists None, w1. split; [done|lia]. }
  destruct (Nat.ltb 1 (length (split "/" path))).
  - rewrite bind_assoc.
    destruct (findNode_returns fuel w
                (join "/" (removelast (split "/" path))) Hs Hf)
      as (r & E & Hr).
    rewrite (bind_reads_Ok
               (fun w => findNode fuel w
                           (join "/" (removelast (split "/" path))))
               _ w r) by done.
    rewrite bind_ret. cbv beta iota.
    apply (Hrest (List.last (split "/" path) "") r).
    destruct r; [by apply Hr|done].
  - rewrite bind_ret. cbv beta iota.
    apply (Hrest path (Some (current_node w))).
    by destruct Hs as (_ & ? & _).
Qed.

Lemma onDelete_returns fuel selected reply_yes w :
  sound w -> enough (length (heap w)) <= fuel ->
  exists w', onDelete fuel selected reply_yes w = (Ok tt, w')
             /\ length (heap w') = length (heap w).
Proof.
  intros Hs Hf. destruct (enough_le (length (heap w))) as (H1 & _).
  unfold onDelete. destruct selected as [item|]; [|by exists w].
  destruct (getNodeFromItem_for_returns fuel w (List.tl item) Hs
              ltac:(lia) (root w))
    as (n & E & Hn); [by apply sound_root_lt|].
  rewrite (bind_reads_Ok (fun w => getNodeFromItem fuel w item) _ w n)
    by done.
  destruct (lookup_lt_is_Some_2 _ _ Hn) as [nd Hnd].
  rewrite (simple_bind_getM _ _ _ nd) by done.
  destruct (deleteNode_returns fuel n w Hs Hn Hf) as (w' & Ed & _ & [Hl _]).
  destruct (Simple.isdir nd), reply_yes; first [by exists w' | by exists w].
Qed.

Lemma onEdit_returns fuel selected edit w :
  sound w -> length (heap w) <= fuel ->
  exists w', onEdit fuel selected edit w = (Ok tt, w')
             /\ length (heap w') = length (heap w).
Proof.
  intros Hs Hf. unfold onEdit. destruct selected as [item|]; [|by exists w].
  destruct (getNodeFromItem_for_returns fuel w (List.tl item) Hs Hf (root w))
    as (n & E & Hn); [by apply sound_root_lt|].
  rewrite (bind_reads_Ok (fun w => getNodeFromItem fuel w item) _ w n)
    by done.
  destruct (lookup_lt_is_Some_2 _ _ Hn) as [nd Hnd].
  rewrite (simple_bind_getM _ _ _ nd) by done.
  destruct (Simple.isdir nd); [by exists w|].
  destruct edit as [text|]; [|by exists w].
  unfold saveFile. rewrite (simple_setattr_Ok _ _ _ _ Hnd).
  eexists. split; [done|]. cbn [heap with_heap]. by rewrite length_insert.
Qed.

Lemma handle_returns fuel e w :
  sound w -> enough (length (heap w)) <= fuel ->
  exists r w', handle fuel e w = (Ok r, w')
               /\ length (heap w') <= S (length (heap w)).
Proof.
  intros Hs Hf. destruct (enough_le (length (heap w))) as (H1 & _).
  destruct e as [selected|[[] path|selected reply_yes|selected edit|path]];
    cbn [handle perform].
  - destruct (onSelectionChanged_returns fuel selected w Hs) as (w' & E & Hl);
      [lia|].
    rewrite (bind_Ok _ _ _ _ _ E). exists None, w'. split; [done|lia].
  - apply onCreate_returns; [done|lia].
  - apply onCreate_returns; [done|lia].
  - destruct (onDelete_returns fuel selected reply_yes w Hs Hf)
      as (w' & E & Hl).
    rewrite (bind_Ok _ _ _ _ _ E). exists None, w'. split; [done|lia].
  - destruct (onEdit_returns fuel selected edit w Hs) as (w' & E & Hl);
      [lia|].
    rewrite (bind_Ok _ _ _ _ _ E). exists None, w'. split; [done|lia].
  - destruct (onPathEntered_returns fuel path w Hs) as (r & w' & E & Hl);
      [lia|].
    exists r, w'. split; [done|lia].
Qed.

(** *** The children of a node *)
Lemma sound_chain w x :
  sound w -> forall k first,
  (forall c, first = Some c -> c < k /\ parent_at w c = Some (Some x)) ->
  exists l, chain (next_of w) first l /\ length l <= k
            /\ Forall (fun c => c < k /\ parent_at w c = Some (Some x)) l
            /\ NoDup l.
Proof.
  intros Hs. induction k as [|k IH]; intros [c|] Hc.
  - destruct (Hc c eq_refl). lia.
  - exists []. repeat split; [constructor|simpl; lia|constructor|constructor].
  - destruct (Hc c eq_refl) as [Hck Hcp].
    pose proof Hcp as (cd & Hcd & Hcpar)%parent_at_Some.
    destruct (IH (sibling_next cd)) as (l & Hl & Hlen & Hall & Hnd).
    { intros n Hn. destruct (sound_next _ _ _ _ Hs Hcd Hn) as (? & ? & Hp).
      split; [lia|]. by rewrite Hp, Hcpar. }
    exists (c :: l). split; [|split; [|split]].
    + econstructor; [|done]. unfold next_of. by rewrite Hcd.
    + simpl. lia.
    + constructor; [done|]. eapply Forall_impl; [done|].
      intros y [? ?]. split; [lia|done].
    + apply NoDup_cons. split; [|done]. intros Hin.
      rewrite Forall_forall in Hall. destruct (Hall _ Hin) as [Hlt _].
      assert (Hall' : Forall (fun y => y < c) l).
      { clear -Hs Hl Hcd. remember (sibling_next cd) as f eqn:Ef.
        revert c cd Hcd Ef. induction Hl as [|y n l Hn Hl IHl];
          intros c cd Hcd Ef; [constructor|].
        symmetry in Ef.
        destruct (sound_next _ _ _ _ Hs Hcd Ef) as (Hyc & _ & _).
        apply simple_next_of_Some in Hn as (yd & Hyd & Hyn).
        constructor; [done|].
        eapply Forall_impl; [by eapply (IHl y yd)|].
        intros z ?. simpl in *. lia. }
      rewrite Forall_forall in Hall'. specialize (Hall' _ Hin). lia.
  - exists []. repeat split; [constructor|simpl; lia|constructor|constructor].
Qed.

Lemma sound_listChildren w x :
  sound w -> x < length (heap w) ->
  exists l, listChildren (length (heap w)) w x = Ok l /\ NoDup l
            /\ Forall (fun c => parent_at w c = Some (Some x)) l.
Proof.
  intros Hs Hx. destruct (lookup_lt_is_Some_2 _ _ Hx) as [nd Hnd].
  destruct (sound_chain w x Hs (length (heap w)) (child nd))
    as (l & Hl & Hlen & Hall & Hndp).
  { intros c Hc. destruct (sound_child _ _ _ _ Hs Hnd Hc) as (_ & ? & ?).
    done. }
  exists l. split; [|split; [done|]].
  - eapply simple_listChildren_intro; [|done|done]. by rewrite Hnd.
  - eapply Forall_impl; [done|]. by intros y [_ ?].
Qed.

(** In every state that the window can reach, whatever the user did and
    however each handler ended, the links are in order ([sound]); and
    every node lists its children: the walk along [sibling_next] from its
    [child] ends, meets no node twice, and meets only nodes whose parent
    is the node. *)
Theorem links_stay_in_order fuel es :
  let w := run fuel es init in
  sound w
  /\ forall x, x < length (heap w) ->
       exists l, listChildren (length (heap w)) w x = Ok l /\ NoDup l
                 /\ Forall (fun c => parent_at w c = Some (Some x)) l.
Proof.
  intros w. assert (Hs : sound w) by apply simple_sound_run, simple_sound_init.
  split; [done|]. intros x Hx. by apply sound_listChildren.
Qed.

(** In every state that the window can reach, every handler returns when
    it has fuel enough for the size of the store: no loop runs on and no
    call nests without end, no exception leaves the handler, and the tree
    widget can be filled afterwards, from the root or from any node. *)
Theorem every_handler_returns fuel0 es fuel e :
  let w := run fuel0 es init in
  enough (length (heap w)) <= fuel ->
  exists r w',
    handle fuel e w = (Ok r, w')
    /\ forall sel, (forall n, sel = Some n -> n < length (heap w')) ->
         exists its, updateTree fuel w' sel = Ok its.
Proof.
  intros w Hf.
  assert (Hs : sound w) by apply simple_sound_run, simple_sound_init.
  destruct (handle_returns fuel e w Hs Hf) as (r & w' & E & Hlen).
  exists r, w'. split; [done|]. intros sel Hsel.
  apply updateTree_returns; [by eapply keeps_handle| |done].
  unfold enough in Hf. nia.
Qed.

Lemma every_handler_returns_witness :
  exists r w',
    handle 30 (act (op_delete (Some ["/"; "a"]) true))
      (run 8 [act (op_create true "a")] init) = (Ok r, w')
    /\ exists its, updateTree 30 w' None = Ok its.
Proof.
  destruct (every_handler_returns 8 [act (op_create true "a")] 30
              (act (op_delete (Some ["/"; "a"]) true)))
    as (r & w' & H & Hu).
  - vm_compute. lia.
  - exists r, w'. split; [exact H|]. apply Hu. intros n Hn. discriminate Hn.
Defined.

End SimpleEnds.

(** ** winfilesystem.py: the loops end *)
Module WinOrder.
Import Chain ChainFacts PyFacts Win Win.FileManager WinFacts.

Lemma ends_in_bind {S A B} (J : S -> Prop) (R : A -> S -> Prop)
    (Q : B -> S -> Prop) (m : M S A) (k : A -> M S B) s :
  ends_in J R (m s) ->
  (forall a s', R a s' -> ends_in J Q (k a s')) ->
  ends_in J Q (bind m k s).
Proof.
  unfold bind. destruct (m s) as [[a|e|] s']; simpl; [|done..].
  intros HR Hk. by apply Hk.
Qed.

Lemma ends_in_mono {S A} (J : S -> Prop) (Q Q' : A -> S -> Prop) x :
  ends_in J Q x -> (forall a s, Q a s -> Q' a s) -> ends_in J Q' x.
Proof. destruct x as [[a|e|] s]; simpl; auto. Qed.

Lemma ends_in_reads {S A B} (J : S -> Prop) (Q : B -> S -> Prop)
    (f : S -> res A) (k : A -> M S B) s :
  returns (f s) -> J s ->
  (forall a, f s = Ok a -> ends_in J Q (k a s)) ->
  ends_in J Q (bind (reads f) k s).
Proof.
  unfold bind, reads. destruct (f s) as [a|e|]; simpl; [|done..].
  intros _ _ Hk. by apply Hk.
Qed.

Lemma ends_in_try_except (J : world -> Prop) (Q : unit -> world -> Prop)
    body s :
  ends_in J Q (body s) -> (forall a s', Q a s' -> J s') ->
  ends_in J (fun _ s' => J s') (try_except body s).
Proof.
  unfold try_except. destruct (body s) as [[a|e|] s']; simpl; [|done..].
  intros HQ HJ. by eapply HJ.
Qed.

(** *** What [ordered] says of a node *)
Section ordered.
Context (w : world) (Hs : ordered w).

Lemma ordered_parent x nd p :
  heap w !! x = Some nd -> parent nd = Some p -> p < x.
Proof.
  destruct Hs as (_ & _ & _ & _ & _ & Hall). intros Hx.
  destruct (Hall _ _ Hx) as (H1 & _). apply H1.
Qed.

Lemma ordered_child x nd c :
  heap w !! x = Some nd -> child nd = Some c ->
  x < c /\ c < length (heap w).
Proof.
  destruct Hs as (_ & _ & _ & _ & _ & Hall). intros Hx.
  destruct (Hall _ _ Hx) as (_ & H2 & _). apply H2.
Qed.

Lemma ordered_next x nd n :
  heap w !! x = Some nd -> sibling_next nd = Some n ->
  x < n /\ n < length (heap w).
Proof.
  destruct Hs as (_ & _ & _ & _ & _ & Hall). intros Hx.
  destruct (Hall _ _ Hx) as (_ & _ & H3 & _). apply H3.
Qed.

Lemma ordered_prev x nd p :
  heap w !! x = Some nd -> sibling_prev nd = Some p -> p < x.
Proof.
  destruct Hs as (_ & _ & _ & _ & _ & Hall). intros Hx.
  destruct (Hall _ _ Hx) as (_ & _ & _ & H4). apply H4.
Qed.

Lemma ordered_root : root w < length (heap w).
Proof. by destruct Hs as (? & _). Qed.

Lemma ordered_current : current w < length (heap w).
Proof. by destruct Hs as (_ & ? & _). Qed.

Lemma ordered_model_current : model_current w < length (heap w).
Proof. by destruct Hs as (_ & _ & ? & _). Qed.

End ordered.

(** Writing a node whose links are in order. *)
Lemma ordered_insert w r nd nd' :
  ordered w -> heap w !! r = Some nd ->
  (forall p, parent nd' = Some p -> p < r) ->
  (forall c, child nd' = Some c -> r < c /\ c < length (heap w)) ->
  (forall n, sibling_next nd' = Some n -> r < n /\ n < length (heap w)) ->
  (forall p, sibling_prev nd' = Some p -> p < r) ->
  ordered (with_heap (<[r := nd']> (heap w)) w).
Proof.
  intros (H1 & H2 & H3 & H4 & H5 & Hall) Hr Hp Hc Hn Hv.
  unfold ordered. cbn [heap root current model_current history future
                       with_heap]. rewrite length_insert.
  repeat (split; [done|]).
  intros x xd. rewrite list_lookup_insert. case_decide as Hd.
  - destruct Hd as [<- _]. intros [= <-]. done.
  - apply Hall.
Qed.

Lemma ordered_same_links w r nd nd' :
  ordered w -> heap w !! r = Some nd ->
  parent nd' = parent nd -> child nd' = child nd ->
  sibling_next nd' = sibling_next nd -> sibling_prev nd' = sibling_prev nd ->
  ordered (with_heap (<[r := nd']> (heap w)) w).
Proof.
  intros Hs Hr Hp Hc Hn Hv.
  apply (ordered_insert w r nd nd'); [done|done|..].
  - intros p. rewrite Hp. apply (ordered_parent w Hs _ _ _ Hr).
  - intros c. rewrite Hc. apply (ordered_child w Hs _ _ _ Hr).
  - intros n. rewrite Hn. apply (ordered_next w Hs _ _ _ Hr).
  - intros p. rewrite Hv. apply (ordered_prev w Hs _ _ _ Hr).
Qed.

(** A new node under the node [p]. *)
Lemma ordered_alloc w p name isdir t1 t2 :
  ordered w -> p < length (heap w) ->
  ordered (with_heap (heap w ++ [new_FileNode name isdir (Some p) t1 t2]) w).
Proof.
  intros (H1 & H2 & H3 & H4 & H5 & Hall) Hp.
  unfold ordered. cbn [heap root current model_current history future
                       with_heap]. rewrite length_app. simpl.
  split; [lia|]. split; [lia|]. split; [lia|].
  split; [eapply Forall_impl; [done|]; simpl; intros; lia|].
  split; [eapply Forall_impl; [done|]; simpl; intros; lia|].
  intros x xd Hx.
  destruct (decide (x < length (heap w))) as [Hlt|Hge].
  - rewrite lookup_app_l in Hx by done.
    destruct (Hall _ _ Hx) as (A1 & A2 & A3 & A4). split; [done|].
    split; [intros c Hc; destruct (A2 _ Hc); lia|].
    split; [intros n Hn; destruct (A3 _ Hn); lia|done].
  - pose proof (lookup_lt_Some _ _ _ Hx) as Hlt.
    rewrite length_app in Hlt. simpl in Hlt.
    assert (x = length (heap w)) as -> by lia.
    rewrite list_lookup_middle in Hx by done. injection Hx as <-.
    split; [|done]. intros q [= <-]. done.
Qed.

(** The navigation fields may be set to nodes. *)
Lemma ordered_fields w w' :
  ordered w -> heap w' = heap w -> root w' = root w ->
  model_current w' = model_current w ->
  current w' < length (heap w) ->
  Forall (fun n => n < length (heap w)) (history w') ->
  Forall (fun n => n < length (heap w)) (future w') ->
  ordered w'.
Proof.
  intros (H1 & H2 & H3 & H4 & H5 & Hall) Hh Hr Hm Hc Hhi Hfu.
  unfold ordered. rewrite Hh, Hr, Hm. done.
Qed.

(** *** The loops end

    Every loop walks along [sibling_next], to nodes made later: it makes
    fewer turns than the store has nodes. *)
Section loops.
Context (w : world) (Hs : ordered w).

Lemma rowCount_loop_returns fuel first count :
  (forall c, first = Some c ->
     c < length (heap w) /\ length (heap w) <= c + fuel) ->
  exists k, FileSystemModel.rowCount_loop fuel w first count = Ok k.
Proof.
  revert first count. induction fuel as [|fuel IH]; intros [c|] count Hc;
    try (by eexists).
  - destruct (Hc c eq_refl). lia.
  - destruct (Hc c eq_refl) as [Hv Hf].
    destruct (lookup_lt_is_Some_2 _ _ Hv) as [cd Hcd].
    cbn [FileSystemModel.rowCount_loop]. rewrite (get_Ok _ _ _ Hcd).
    cbn [rbind]. apply IH. intros n Hn.
    destruct (ordered_next w Hs _ _ _ Hcd Hn). split; [done|lia].
Qed.

Lemma sibling_index_loop_returns fuel node first index :
  (forall c, first = Some c ->
     c < length (heap w) /\ length (heap w) <= c + fuel) ->
  exists k, FileSystemModel.sibling_index_loop fuel w node first index = Ok k.
Proof.
  revert first index. induction fuel as [|fuel IH]; intros [c|] index Hc;
    try (by eexists).
  - destruct (Hc c eq_refl). lia.
  - destruct (Hc c eq_refl) as [Hv Hf].
    destruct (lookup_lt_is_Some_2 _ _ Hv) as [cd Hcd].
    cbn [FileSystemModel.sibling_index_loop].
    destruct (Nat.eqb c node); [by eexists|].
    rewrite (get_Ok _ _ _ Hcd). cbn [rbind]. apply IH. intros n Hn.
    destruct (ordered_next w Hs _ _ _ Hcd Hn). split; [done|lia].
Qed.

Lemma remove_node_loop_returns fuel node first :
  (forall c, first = Some c ->
     c < length (heap w) /\ length (heap w) <= c + fuel) ->
  exists r, FileSystemModel.remove_node_loop fuel w node first = Ok r
            /\ forall c, r = Some c -> c = node.
Proof.
  revert first. induction fuel as [|fuel IH]; intros [c|] Hc;
    try (by eexists).
  - destruct (Hc c eq_refl). lia.
  - destruct (Hc c eq_refl) as [Hv Hf].
    destruct (lookup_lt_is_Some_2 _ _ Hv) as [cd Hcd].
    cbn [FileSystemModel.remove_node_loop].
    destruct (Nat.eqb c node) eqn:E.
    { apply Nat.eqb_eq in E as ->. eexists. split; [done|]. by intros ? [= <-]. }
    rewrite (get_Ok _ _ _ Hcd). cbn [rbind]. apply IH. intros n Hn.
    destruct (ordered_next w Hs _ _ _ Hcd Hn). split; [done|lia].
Qed.

Lemma index_loop_returns row first :
  (forall c, first = Some c -> c < length (heap w)) ->
  exists r, FileSystemModel.index_loop w row first = Ok r
            /\ forall c, r = Some c -> c < length (heap w).
Proof.
  revert first. induction row as [|row IH]; intros first Hc.
  - by exists first.
  - cbn [FileSystemModel.index_loop]. destruct first as [c|].
    + destruct (lookup_lt_is_Some_2 _ _ (Hc c eq_refl)) as [cd Hcd].
      rewrite (get_Ok _ _ _ Hcd). cbn [rbind]. apply IH. intros n Hn.
      by destruct (ordered_next w Hs _ _ _ Hcd Hn).
    + apply IH. done.
Qed.

Lemma _create_node_loop_returns fuel last :
  last < length (heap w) -> length (heap w) <= last + fuel ->
  exists l ld, _create_node_loop fuel w last = Ok l
               /\ heap w !! l = Some ld /\ sibling_next ld = None.
Proof.
  revert last. induction fuel as [|fuel IH]; intros last Hv Hf.
  - lia.
  - destruct (lookup_lt_is_Some_2 _ _ Hv) as [ld Hld].
    cbn [_create_node_loop]. rewrite (get_Ok _ _ _ Hld). cbn [rbind].
    destruct (sibling_next ld) as [n|] eqn:Hn.
    + destruct (ordered_next w Hs _ _ _ Hld Hn).
      destruct fuel as [|fuel']; [lia|]. apply IH; [done|lia].
    + by exists last, ld.
Qed.

Lemma resolve_path_find_returns fuel first part :
  (forall c, first = Some c ->
     c < length (heap w) /\ length (heap w) <= c + fuel) ->
  exists r, resolve_path_find fuel w first part = Ok r
            /\ forall c, r = Some c -> c < length (heap w).
Proof.
  revert first. induction fuel as [|fuel IH]; intros [c|] Hc;
    try (by eexists).
  - destruct (Hc c eq_refl). lia.
  - destruct (Hc c eq_refl) as [Hv Hf].
    destruct (lookup_lt_is_Some_2 _ _ Hv) as [cd Hcd].
    cbn [resolve_path_find]. rewrite (get_Ok _ _ _ Hcd). cbn [rbind].
    destruct (String.eqb _ _).
    { eexists. split; [done|]. by intros ? [= <-]. }
    apply IH. intros n Hn.
    destruct (ordered_next w Hs _ _ _ Hcd Hn). split; [done|lia].
Qed.

Lemma create_item_loop_returns fuel first name :
  (forall c, first = Some c ->
     c < length (heap w) /\ length (heap w) <= c + fuel) ->
  returns (create_item_loop fuel w first name).
Proof.
  revert first. induction fuel as [|fuel IH]; intros [c|] Hc; try done.
  - destruct (Hc c eq_refl). lia.
  - destruct (Hc c eq_refl) as [Hv Hf].
    destruct (lookup_lt_is_Some_2 _ _ Hv) as [cd Hcd].
    cbn [create_item_loop]. rewrite (get_Ok _ _ _ Hcd). cbn [rbind].
    destruct (String.eqb _ _); [done|].
    apply IH. intros n Hn.
    destruct (ordered_next w Hs _ _ _ Hcd Hn). split; [done|lia].
Qed.

Lemma rename_item_loop_returns fuel node first new_name :
  (forall c, first = Some c ->
     c < length (heap w) /\ length (heap w) <= c + fuel) ->
  returns (rename_item_loop fuel w node first new_name).
Proof.
  revert first. induction fuel as [|fuel IH]; intros [c|] Hc; try done.
  - destruct (Hc c eq_refl). lia.
  - destruct (Hc c eq_refl) as [Hv Hf].
    destruct (lookup_lt_is_Some_2 _ _ Hv) as [cd Hcd].
    cbn [rename_item_loop]. rewrite (get_Ok _ _ _ Hcd). cbn [rbind].
    destruct (_ && _); [done|].
    apply IH. intros n Hn.
    destruct (ordered_next w Hs _ _ _ Hcd Hn). split; [done|lia].
Qed.

Lemma full_path_loop_returns fuel node path :
  node < length (heap w) -> node <= fuel ->
  exists l, full_path_loop fuel w node path = Ok l.
Proof.
  revert node path. induction fuel as [|fuel IH]; intros node path Hv Hf.
  - destruct (lookup_lt_is_Some_2 _ _ Hv) as [nd Hnd].
    cbn [full_path_loop]. rewrite (get_Ok _ _ _ Hnd). cbn [rbind].
    destruct (parent nd) as [p|] eqn:Hp; [|by eexists].
    pose proof (ordered_parent w Hs _ _ _ Hnd Hp). lia.
  - destruct (lookup_lt_is_Some_2 _ _ Hv) as [nd Hnd].
    cbn [full_path_loop]. rewrite (get_Ok _ _ _ Hnd). cbn [rbind].
    destruct (parent nd) as [p|] eqn:Hp; [|by eexists].
    pose proof (ordered_parent w Hs _ _ _ Hnd Hp). apply IH; lia.
Qed.

(** The first child of a node, as a start of a loop. *)
Lemma child_start fuel x nd :
  heap w !! x = Some nd -> length (heap w) <= fuel ->
  forall c, child nd = Some c ->
    c < length (heap w) /\ length (heap w) <= c + fuel.
Proof.
  intros Hx Hf c Hc. destruct (ordered_child w Hs _ _ _ Hx Hc). lia.
Qed.

(** *** The functions of the model end *)
Lemma deref_returns o :
  (forall r, o = Some r -> r < length (heap w)) ->
  returns (FileSystemModel.deref w o)
  /\ forall nd, FileSystemModel.deref w o = Ok nd ->
       exists r, o = Some r /\ heap w !! r = Some nd.
Proof.
  intros Ho. destruct o as [r|]; simpl; [|done].
  destruct (lookup_lt_is_Some_2 _ _ (Ho r eq_refl)) as [nd Hnd].
  rewrite (get_Ok _ _ _ Hnd). split; [done|]. intros ? [= <-]. eauto.
Qed.

Lemma sibling_index_returns fuel o :
  (forall r, o = Some r -> r < length (heap w)) ->
  length (heap w) <= fuel ->
  returns (FileSystemModel.sibling_index fuel w o).
Proof.
  intros Ho Hf. unfold FileSystemModel.sibling_index.
  destruct (deref_returns o Ho) as [Hr Hd].
  destruct (FileSystemModel.deref w o) as [nd| |] eqn:E; [|done..].
  destruct (Hd _ eq_refl) as (r & -> & Hnd). cbn [rbind].
  destruct (parent nd) as [p|] eqn:Hp; [|done].
  pose proof (ordered_parent w Hs _ _ _ Hnd Hp) as Hlt.
  pose proof (lookup_lt_Some _ _ _ Hnd) as Hrv.
  destruct (lookup_lt_is_Some_2 (heap w) p) as [pd Hpd]; [lia|].
  rewrite (get_Ok _ _ _ Hpd). cbn [rbind].
  destruct (sibling_index_loop_returns fuel r (child pd) 0) as [k ->];
    [|done].
  by apply (child_start fuel p pd).
Qed.

Lemma pointer_valid i :
  valid_index w i ->
  forall r, FileSystemModel.pointer_or_current w i = Some r ->
    r < length (heap w).
Proof.
  destruct i as [|row col [p|]]; simpl; intros Hi r; [| |done].
  - intros [= <-]. by apply ordered_model_current.
  - by intros [= <-].
Qed.

Lemma rowCount_returns fuel i :
  valid_index w i -> length (heap w) <= fuel ->
  returns (FileSystemModel.rowCount fuel w i).
Proof.
  intros Hi Hf. unfold FileSystemModel.rowCount.
  destruct (0 <? column i)%Z; [done|].
  destruct (deref_returns _ (pointer_valid i Hi)) as [Hr Hd].
  destruct (FileSystemModel.deref w _) as [pd| |] eqn:E; [|done..].
  destruct (Hd _ eq_refl) as (r & _ & Hpd). cbn [rbind].
  destruct (rowCount_loop_returns fuel (child pd) 0) as [k ->]; [|done].
  by apply (child_start fuel r pd).
Qed.

Lemma index_returns fuel row col i :
  valid_index w i -> length (heap w) <= fuel ->
  returns (FileSystemModel.index fuel w row col i)
  /\ forall j, FileSystemModel.index fuel w row col i = Ok j ->
       valid_index w j.
Proof.
  intros Hi Hf. unfold FileSystemModel.index, FileSystemModel.hasIndex.
  pose proof (rowCount_returns fuel i Hi Hf) as Hrc.
  destruct (FileSystemModel.rowCount fuel w i) as [n| |]; [|done..].
  cbn [rbind]. destruct (negb _).
  { split; [done|]. by intros j [= <-]. }
  destruct (deref_returns _ (pointer_valid i Hi)) as [Hr Hd].
  destruct (FileSystemModel.deref w _) as [pd| |] eqn:E; [|done..].
  destruct (Hd _ eq_refl) as (r & _ & Hpd). cbn [rbind].
  destruct (index_loop_returns row (child pd)) as (c & -> & Hc).
  { intros c Hc. by destruct (ordered_child w Hs _ _ _ Hpd Hc). }
  cbn [rbind]. split; [done|]. intros j [= <-].
  destruct c as [c|]; [|done]. simpl. by apply Hc.
Qed.

Lemma model_parent_returns fuel i :
  valid_index w i -> length (heap w) <= fuel ->
  returns (FileSystemModel.parent fuel w i)
  /\ forall j, FileSystemModel.parent fuel w i = Ok j -> valid_index w j.
Proof.
  intros Hi Hf. unfold FileSystemModel.parent.
  destruct i as [|row col o]; [split; [done|]; by intros j [= <-]|].
  assert (Ho : forall r, o = Some r -> r < length (heap w)).
  { intros r ->. exact Hi. }
  destruct (deref_returns o Ho) as [Hr Hd].
  destruct (FileSystemModel.deref w o) as [cd| |] eqn:E; [|done..].
  destruct (Hd _ eq_refl) as (r & -> & Hcd). cbn [rbind].
  destruct (_ || _); [split; [done|]; by intros j [= <-]|].
  assert (Hp : forall p, parent cd = Some p -> p < length (heap w)).
  { intros p Hp. pose proof (ordered_parent w Hs _ _ _ Hcd Hp).
    pose proof (lookup_lt_Some _ _ _ Hcd). lia. }
  pose proof (sibling_index_returns fuel (parent cd) Hp Hf) as Hsi.
  destruct (FileSystemModel.sibling_index fuel w (parent cd)) as [k| |];
    [|done..].
  cbn [rbind]. split; [done|]. intros j [= <-]. simpl.
  destruct (parent cd) as [p|]; [by apply Hp|done].
Qed.

End loops.

End WinOrder.

(** ** winfilesystem.py: steps that keep the links in order *)
Module WinSteps.
Import Chain ChainFacts PyFacts Win Win.FileManager WinFacts WinOrder.

(** *** Steps that keep the links in order *)

(** The links are in order in a store of [H] nodes. *)
Abbreviation tidy H := (fun s : world => ordered s /\ length (heap s) = H).

Lemma ordered_node w x nd :
  ordered w -> heap w !! x = Some nd ->
  (forall p, parent nd = Some p -> p < x)
  /\ (forall c, child nd = Some c -> x < c /\ c < length (heap w))
  /\ (forall n, sibling_next nd = Some n -> x < n /\ n < length (heap w))
  /\ (forall p, sibling_prev nd = Some p -> p < x).
Proof. intros (_ & _ & _ & _ & _ & Hall). apply Hall. Qed.

Lemma ends_in_weaken {S A} (J J' : S -> Prop) (Q Q' : A -> S -> Prop) x :
  ends_in J Q x -> (forall s, J s -> J' s) ->
  (forall a s, Q a s -> Q' a s) -> ends_in J' Q' x.
Proof. destruct x as [[a|e|] s]; simpl; auto. Qed.

Lemma ends_in_getM (J : world -> Prop) {B} (Q : B -> world -> Prop)
    r (k : FileNode -> M world B) s :
  r < length (heap s) ->
  (forall nd, heap s !! r = Some nd -> ends_in J Q (k nd s)) ->
  ends_in J Q (bind (getM r) k s).
Proof.
  intros Hr Hk. destruct (lookup_lt_is_Some_2 _ _ Hr) as [nd Hnd].
  rewrite (bind_getM _ _ _ _ Hnd). by apply Hk.
Qed.

(** A write of links in order, and what follows it. *)
Lemma ends_in_setattr H (J : world -> Prop) {B} (Q : B -> world -> Prop)
    r f (k : unit -> M world B) s :
  tidy H s -> r < H ->
  (forall nd, heap s !! r = Some nd ->
     (forall p, parent (f nd) = Some p -> p < r)
     /\ (forall c, child (f nd) = Some c -> r < c /\ c < H)
     /\ (forall n, sibling_next (f nd) = Some n -> r < n /\ n < H)
     /\ (forall p, sibling_prev (f nd) = Some p -> p < r)) ->
  (forall s', tidy H s' -> ends_in J Q (k tt s')) ->
  ends_in J Q (bind (setattr r f) k s).
Proof.
  intros [Hs HH] Hr Hf Hk.
  destruct (lookup_lt_is_Some_2 (heap s) r) as [nd Hnd]; [lia|].
  rewrite (bind_setattr _ _ _ _ _ Hnd). apply Hk.
  destruct (Hf _ Hnd) as (F1 & F2 & F3 & F4). split.
  - apply (ordered_insert s r nd); [done|done|done|..|done].
    + intros c Hc. rewrite HH. by apply F2.
    + intros n Hn. rewrite HH. by apply F3.
  - cbn [heap with_heap]. by rewrite length_insert.
Qed.

(** A write that keeps the four links of the node. *)
Lemma ends_in_setattr_same H (J : world -> Prop) {B} (Q : B -> world -> Prop)
    r f (k : unit -> M world B) s :
  tidy H s -> r < H ->
  (forall nd, parent (f nd) = parent nd /\ child (f nd) = child nd
              /\ sibling_next (f nd) = sibling_next nd
              /\ sibling_prev (f nd) = sibling_prev nd) ->
  (forall s', tidy H s' -> ends_in J Q (k tt s')) ->
  ends_in J Q (bind (setattr r f) k s).
Proof.
  intros [Hs HH] Hr Hf Hk. apply (ends_in_setattr H); [done|done| |done].
  intros nd Hnd. destruct (Hf nd) as (-> & -> & -> & ->).
  rewrite <- HH. by apply ordered_node.
Qed.

Lemma bind_ret_r {S A} (m : M S A) s : bind m ret s = m s.
Proof. unfold bind, ret. by destruct (m s) as [[a|e|] s']. Qed.

Lemma valid_index_length w w' i :
  length (heap w') = length (heap w) -> valid_index w i -> valid_index w' i.
Proof. intros Hl. destruct i as [|? ? [p|]]; simpl; [done| |done]. lia. Qed.

(** *** [remove_node] *)
Lemma remove_node_ends fuel H idx node w :
  tidy H w -> node < H -> valid_index w idx -> H <= fuel ->
  ends_in (tidy H) (fun _ s => tidy H s)
          (FileSystemModel.remove_node fuel idx node w).
Proof.
  intros [Hs HH] Hn Hi Hf. unfold FileSystemModel.remove_node.
  rewrite bind_reads_Ok
    with (a := FileSystemModel.pointer_or_current w idx) by done.
  destruct (deref_returns w _ (pointer_valid w Hs idx Hi)) as [Hr Hd].
  apply ends_in_reads; [done|done|]. intros pd Hpd.
  destruct (Hd _ Hpd) as (p & Hp & Hpd'). rewrite Hp.
  pose proof (lookup_lt_Some _ _ _ Hpd') as Hpv.
  destruct (remove_node_loop_returns w Hs fuel node (child pd))
    as (r & Hloop & _).
  { apply (child_start w Hs fuel p pd); [done|lia]. }
  rewrite (bind_reads_Ok
             (fun w => FileSystemModel.remove_node_loop fuel w node (child pd))
             _ w r) by done.
  destruct r as [c|]; [|done].
  assert (Hpv' : p < H) by lia. clear Hr Hd Hpd Hpd' Hloop Hpv Hi Hp.
  clear pd c.
  apply ends_in_getM; [lia|]. intros nd Hnd.
  destruct (ordered_node w _ _ Hs Hnd) as (N1 & N2 & N3 & N4).
  (* node.sibling_prev.sibling_next = node.sibling_next *)
  apply (ends_in_bind _ (fun _ s => tidy H s)).
  { destruct (sibling_prev nd) as [pv|] eqn:Hpv; [|done].
    specialize (N4 _ eq_refl).
    rewrite <- (bind_ret_r (setattr pv _)).
    apply (ends_in_setattr H); [done|lia| |done].
    intros pvd Hpvd. cbn.
    destruct (ordered_node w _ _ Hs Hpvd) as (A1 & A2 & A3 & A4).
    rewrite HH in *.
    split; [done|]. split; [done|]. split; [|done].
    intros n Hn'. destruct (N3 _ Hn'). lia. }
  clear dependent w. clear dependent nd. intros _ w [Hs HH].
  apply ends_in_getM; [lia|]. intros nd Hnd.
  destruct (ordered_node w _ _ Hs Hnd) as (N1 & N2 & N3 & N4).
  (* node.sibling_next.sibling_prev = node.sibling_prev *)
  apply (ends_in_bind _ (fun _ s => tidy H s)).
  { destruct (sibling_next nd) as [nx|] eqn:Hnx; [|done].
    destruct (N3 _ eq_refl) as [Hlt Hv].
    rewrite <- (bind_ret_r (setattr nx _)).
    apply (ends_in_setattr H); [done|lia| |done].
    intros nxd Hnxd. cbn.
    destruct (ordered_node w _ _ Hs Hnxd) as (A1 & A2 & A3 & A4).
    rewrite HH in *.
    split; [done|]. split; [done|]. split; [done|].
    intros q Hq. specialize (N4 _ Hq). lia. }
  clear dependent w. clear dependent nd. intros _ w [Hs HH].
  apply ends_in_getM; [lia|]. intros pd Hpd.
  apply ends_in_getM; [lia|]. intros nd Hnd.
  destruct (ordered_node w _ _ Hs Hnd) as (N1 & N2 & N3 & N4).
  (* if parent.child == node: parent.child = node.sibling_next *)
  apply (ends_in_bind _ (fun _ s => tidy H s)).
  { destruct (is_ref (child pd) node) eqn:Href; [|done].
    assert (Hc : child pd = Some node).
    { unfold is_ref in Href. destruct (child pd) as [c'|]; [|done].
      by apply Nat.eqb_eq in Href as ->. }
    destruct (ordered_node w _ _ Hs Hpd) as (A1 & A2 & A3 & A4).
    destruct (A2 _ Hc) as [Hlt _].
    rewrite <- (bind_ret_r (setattr p _)).
    apply (ends_in_setattr H); [done|lia| |done].
    intros pd' Hpd2. assert (pd' = pd) as -> by congruence. cbn.
    rewrite HH in *.
    split; [done|]. split; [|done].
    intros n Hn'. destruct (N3 _ Hn'). lia. }
  clear dependent w. clear dependent nd. clear dependent pd. intros _ w Hw.
  apply (ends_in_setattr H); [done|lia| |].
  { intros nd Hnd. destruct Hw as [Hs HH]. cbn.
    destruct (ordered_node w _ _ Hs Hnd) as (A1 & A2 & A3 & A4).
    rewrite HH in *. done. }
  clear dependent w. intros w Hw.
  apply (ends_in_setattr H); [done|lia| |].
  { intros nd Hnd. destruct Hw as [Hs HH]. cbn.
    destruct (ordered_node w _ _ Hs Hnd) as (A1 & A2 & A3 & A4).
    rewrite HH in *. done. }
  clear dependent w. intros w Hw.
  apply (ends_in_setattr H); [done|lia| |].
  { intros nd Hnd. destruct Hw as [Hs HH]. cbn.
    destruct (ordered_node w _ _ Hs Hnd) as (A1 & A2 & A3 & A4).
    rewrite HH in *. done. }
  intros s' Hs'. done.
Qed.

(** *** [_delete_node]

    A call on [x] needs a budget that falls with [x], since the children
    of [x] were made after [x], and so does a turn of the loop at [s],
    since the next sibling of [s] was made after [s]. *)
Lemma _delete_node_loop_None fuel n idx w :
  _delete_node_loop fuel n None idx w = (Ok tt, w).
Proof. by destruct n. Qed.

Lemma _delete_node_ends fuel H n :
  H <= fuel ->
  (forall x idx w, tidy H w -> x < H -> valid_index w idx ->
     2 * (H - x) <= n ->
     ends_in (tidy H) (fun _ s => tidy H s)
             (_delete_node_rec fuel n x idx w))
  /\ (forall s idx w, tidy H w -> s < H -> valid_index w idx ->
        2 * (H - s) + 1 <= n ->
        ends_in (tidy H) (fun _ s' => tidy H s')
                (_delete_node_loop fuel n (Some s) idx w)).
Proof.
  intros Hf. induction n as [|n [IHr IHl]]; split.
  - intros. lia.
  - intros. lia.
  - intros x idx w Hw Hx Hi Hn. cbn [_delete_node_rec].
    pose proof Hw as [Hs HH].
    apply ends_in_getM; [lia|]. intros nd Hnd.
    apply (ends_in_bind _ (fun _ s => tidy H s)).
    { destruct (child nd) as [c|] eqn:Hc.
      - destruct (ordered_child w Hs _ _ _ Hnd Hc).
        apply IHl; [done|lia|done|lia].
      - by rewrite _delete_node_loop_None. }
    intros _ w1 Hw1.
    apply (ends_in_bind _ (fun _ s => tidy H s)); [|by intros].
    apply remove_node_ends; [done|done| |done].
    eapply valid_index_length; [|done]. destruct Hw1 as [_ ->]. done.
  - intros s idx w Hw Hsv Hi Hn. cbn [_delete_node_loop].
    pose proof Hw as [Hs HH].
    apply ends_in_getM; [lia|]. intros sd Hsd. cbv zeta.
    destruct (index_returns w Hs fuel 0 0 idx Hi) as [Hr Hj]; [lia|].
    apply ends_in_reads; [done|done|]. intros i Hi'.
    apply (ends_in_bind _ (fun _ s => tidy H s)).
    { apply IHr; [done|done|by apply Hj|lia]. }
    intros _ w1 Hw1.
    destruct (sibling_next sd) as [nx|] eqn:Hnx.
    + destruct (ordered_next w Hs _ _ _ Hsd Hnx).
      apply IHl; [done|lia| |lia].
      eapply valid_index_length; [|done]. destruct Hw1 as [_ ->]. done.
    + by rewrite _delete_node_loop_None.
Qed.

End WinSteps.

(** ** winfilesystem.py: the handlers end *)
Module WinEnds.
Import Chain ChainFacts PyFacts Win Win.FileManager WinFacts WinOrder WinSteps.

Lemma bind_modify {B} f (k : unit -> M world B) w :
  bind (modify f) k w = k tt (f w).
Proof. done. Qed.

Lemma Forall_scrub (P : ref -> Prop) node l :
  Forall P l -> Forall P (scrub node l).
Proof.
  intros Hl. unfold scrub. apply Forall_forall. intros x Hx.
  apply list_elem_of_In, List.filter_In in Hx as [Hx _].
  rewrite Forall_forall in Hl. by apply Hl, list_elem_of_In.
Qed.

(** *** [delete_item] *)
Lemma delete_item_ends fuel H node reply_yes w :
  tidy H w -> node < H -> 2 * H + 1 <= fuel ->
  ends_in (tidy H) (fun _ s => tidy H s) (delete_item fuel node reply_yes w).
Proof.
  intros Hw Hn Hf. pose proof Hw as [Hs HH]. unfold delete_item.
  rewrite bind_reads_Ok with (a := w) by done.
  destruct (Nat.eqb node (root w)); [done|].
  apply ends_in_getM; [lia|]. intros nd Hnd.
  destruct (_ && _); [done|].
  apply (ends_in_try_except _ (fun _ s => tidy H s)); [|done].
  apply ends_in_getM; [lia|]. intros nd' Hnd'.
  assert (Hp : forall p, parent nd' = Some p -> p < length (heap w)).
  { intros p Hp. pose proof (ordered_parent w Hs _ _ _ Hnd' Hp). lia. }
  apply ends_in_reads; [|done|].
  { apply sibling_index_returns; [done|done|lia]. }
  intros row _.
  assert (Hi : valid_index w (createIndex 0 0 (parent nd'))).
  { simpl. destruct (parent nd') as [p|]; [by apply Hp|done]. }
  destruct (model_parent_returns w Hs fuel _ Hi) as [Hr Hj]; [lia|].
  apply ends_in_reads; [done|done|]. intros pp Hpp.
  destruct (index_returns w Hs fuel row 0 pp (Hj _ Hpp)) as [Hr2 Hj2]; [lia|].
  apply ends_in_reads; [done|done|]. intros parent_index Hpi.
  apply (ends_in_bind _ (fun _ s => tidy H s)).
  { unfold _delete_node.
    apply (proj1 (_delete_node_ends fuel H fuel ltac:(lia)));
      [done|done|by apply Hj2|lia]. }
  intros _ w1 [Hs1 HH1]. rewrite !bind_modify. unfold modify.
  cbn [ends_in]. split.
  - apply (ordered_fields w1); [done|by destruct (Nat.eqb _ _)..| | |].
    + destruct (Nat.eqb _ _); cbn.
      * by apply ordered_root.
      * by apply ordered_current.
    + destruct Hs1 as (_ & _ & _ & Hh & _).
      destruct (Nat.eqb _ _); cbn; by apply Forall_scrub.
    + destruct Hs1 as (_ & _ & _ & _ & Hfu & _).
      destruct (Nat.eqb _ _); cbn; by apply Forall_scrub.
  - by destruct (Nat.eqb _ _).
Qed.

(** *** [rename_item] *)
Lemma rename_item_ends fuel H node new_name ok w :
  tidy H w -> node < H -> H <= fuel ->
  ends_in (tidy H) (fun _ s => tidy H s)
          (rename_item fuel node new_name ok w).
Proof.
  intros Hw Hn Hf. pose proof Hw as [Hs HH]. unfold rename_item.
  destruct (_ || _); [done|].
  apply (ends_in_try_except _ (fun _ s => tidy H s)); [|done].
  apply ends_in_getM; [lia|]. intros nd Hnd.
  assert (Hp : forall p, parent nd = Some p -> p < length (heap w)).
  { intros p Hp. pose proof (ordered_parent w Hs _ _ _ Hnd Hp). lia. }
  destruct (deref_returns w _ Hp) as [Hr Hd].
  apply ends_in_reads; [done|done|]. intros pd Hpd.
  destruct (Hd _ Hpd) as (p & _ & Hpd').
  apply ends_in_reads; [|done|].
  { apply (rename_item_loop_returns w Hs).
    apply (child_start w Hs fuel p pd); [done|lia]. }
  intros _ _. rewrite <- bind_ret_r.
  apply (ends_in_setattr_same H); [done|done|done|done].
Qed.

(** *** [_create_node] *)
Lemma _create_node_loop_old w nd0 fuel :
  ordered w -> forall c, c < length (heap w) ->
  _create_node_loop fuel (with_heap (heap w ++ [nd0]) w) c
  = _create_node_loop fuel w c.
Proof.
  intros Hs. induction fuel as [|fuel IH]; intros c Hc;
    cbn [_create_node_loop]; unfold get; cbn [heap with_heap];
    rewrite lookup_app_l by done;
    destruct (heap w !! c) as [cd|] eqn:Hcd; cbn [rbind]; try done.
  destruct (sibling_next cd) as [n|] eqn:Hn; [|done].
  apply IH. by destruct (ordered_next w Hs _ _ _ Hcd Hn).
Qed.

Lemma _create_node_ends (J : world -> Prop) fuel H name isdir p t1 t2 w :
  tidy H w -> p < H -> H <= fuel ->
  ends_in J (fun new s => tidy (S H) s /\ new = H)
          (_create_node fuel name isdir p t1 t2 w).
Proof.
  intros [Hs HH] Hp Hf. unfold _create_node. rewrite bind_alloc.
  set (nd0 := new_FileNode name isdir (Some p) t1 t2).
  set (w1 := with_heap (heap w ++ [nd0]) w).
  assert (Hw1 : tidy (S H) w1).
  { split; [apply ordered_alloc; [done|lia]|].
    unfold w1. cbn [heap with_heap]. rewrite length_app. simpl. lia. }
  rewrite HH.
  apply ends_in_getM; [destruct Hw1 as [_ ->]; lia|]. intros pd Hpd1.
  assert (Hpd : heap w !! p = Some pd).
  { unfold w1 in Hpd1. cbn [heap with_heap] in Hpd1.
    by rewrite lookup_app_l in Hpd1 by lia. }
  destruct (child pd) as [c|] eqn:Hc.
  - destruct (ordered_child w Hs _ _ _ Hpd Hc) as [Hpc Hcv].
    destruct (_create_node_loop_returns w Hs fuel c Hcv)
      as (last & ld & Hloop & Hld & Hlast); [lia|].
    pose proof (lookup_lt_Some _ _ _ Hld) as Hlv.
    rewrite (bind_reads_Ok (fun w => _create_node_loop fuel w c) _ w1 last)
      by (unfold w1; by rewrite _create_node_loop_old).
    apply (ends_in_setattr (S H)); [done|lia| |].
    { intros ld1 Hld1. cbn.
      destruct (ordered_node w1 _ _ (proj1 Hw1) Hld1) as (A1 & A2 & A3 & A4).
      destruct Hw1 as [_ Hl1]. rewrite Hl1 in *.
      split; [done|]. split; [done|]. split; [|done].
      intros n [= <-]. lia. }
    intros w2 Hw2.
    apply (ends_in_setattr (S H)); [done|lia| |].
    { intros nd1 Hnd1. cbn.
      destruct (ordered_node w2 _ _ (proj1 Hw2) Hnd1) as (A1 & A2 & A3 & A4).
      destruct Hw2 as [_ Hl2]. rewrite Hl2 in *.
      split; [done|]. split; [done|]. split; [done|].
      intros q [= <-]. lia. }
    intros w3 Hw3. done.
  - apply (ends_in_setattr (S H)); [done|lia| |].
    { intros pd1 Hpd1'. cbn.
      destruct (ordered_node w1 _ _ (proj1 Hw1) Hpd1') as (A1 & A2 & A3 & A4).
      destruct Hw1 as [_ Hl1]. rewrite Hl1 in *.
      split; [done|]. split; [|done].
      intros c' [= <-]. lia. }
    intros w2 Hw2. done.
Qed.

(** *** [open_file] *)
Lemma open_file_ends fuel H node edit w :
  tidy H w -> node < H -> H <= fuel ->
  ends_in (tidy H) (fun _ s => tidy H s) (open_file fuel node edit w).
Proof.
  intros Hw Hn Hf. pose proof Hw as [Hs HH]. unfold open_file.
  apply ends_in_getM; [lia|]. intros nd Hnd.
  destruct (isdir nd); [done|]. destruct edit as [[text now]|]; [|done].
  unfold save_content. rewrite bind_assoc.
  apply (ends_in_setattr_same H); [done|done|done|].
  intros w1 Hw1.
  apply (ends_in_setattr_same H); [done|done|done|].
  clear dependent w. intros w [Hs HH].
  assert (Hi : valid_index w (createIndex 0 0 (Some node))) by (simpl; lia).
  destruct (model_parent_returns w Hs fuel _ Hi) as [Hr Hj]; [lia|].
  apply ends_in_reads; [done|done|]. intros pp Hpp.
  destruct (index_returns w Hs fuel 0 0 pp (Hj _ Hpp)) as [Hr2 _]; [lia|].
  apply ends_in_reads; [done|done|]. intros i _. done.
Qed.

(** *** [create_item] *)
Lemma create_item_ends fuel H p isdir name ok t1 t2 edit w :
  tidy H w -> p < H -> S H <= fuel ->
  ends_in ordered (fun _ s => ordered s)
          (create_item fuel p isdir name ok t1 t2 edit w).
Proof.
  intros Hw Hp Hf. pose proof Hw as [Hs HH]. unfold create_item.
  destruct (_ || _); [done|].
  apply (ends_in_try_except _ (fun _ s => ordered s)); [|done].
  apply ends_in_getM; [lia|]. intros pd Hpd.
  apply ends_in_reads; [|done|].
  { apply (create_item_loop_returns w Hs).
    apply (child_start w Hs fuel p pd); [done|lia]. }
  intros _ _.
  apply (ends_in_bind _ (fun new s => tidy (S H) s /\ new = H)).
  { apply _create_node_ends; [done|done|lia]. }
  intros new w1 [Hw1 ->]. destruct (negb isdir); [|by destruct Hw1].
  eapply ends_in_weaken; [apply (open_file_ends fuel (S H)); [done|lia|lia]|..].
  - by intros s [? _].
  - by intros _ s [? _].
Qed.

(** *** [resolve_path] *)
Lemma resolve_path_loop_returns w fuel path parts :
  ordered w -> length (heap w) <= fuel ->
  forall current, current < length (heap w) ->
  returns (resolve_path_loop fuel w path current parts)
  /\ forall n, resolve_path_loop fuel w path current parts = Ok n ->
       n < length (heap w).
Proof.
  intros Hs Hf. induction parts as [|part parts IH]; intros cur Hc.
  - split; [done|]. by intros n [= <-].
  - cbn [resolve_path_loop].
    destruct (String.eqb part "."); [by apply IH|].
    destruct (lookup_lt_is_Some_2 _ _ Hc) as [cd Hcd].
    rewrite (get_Ok _ _ _ Hcd). cbn [rbind].
    destruct (String.eqb part "..").
    + destruct (parent cd) as [p|] eqn:Hp; [|by apply IH].
      apply IH. pose proof (ordered_parent w Hs _ _ _ Hcd Hp). lia.
    + destruct (resolve_path_find_returns w Hs fuel (child cd) part)
        as (r & -> & Hr).
      { by apply (child_start w Hs fuel cur cd). }
      cbn [rbind]. destruct r as [f|]; [|done]. apply IH. by apply Hr.
Qed.

Lemma resolve_path_returns w fuel path :
  ordered w -> length (heap w) <= fuel ->
  returns (resolve_path fuel w path)
  /\ forall n, resolve_path fuel w path = Ok n -> n < length (heap w).
Proof.
  intros Hs Hf. unfold resolve_path.
  apply resolve_path_loop_returns; [done|done|].
  destruct (startswith _ _); [by apply ordered_root|by apply ordered_current].
Qed.

(** *** The navigation *)
Lemma navigateTree_ends index w :
  ordered w -> valid_index w index ->
  ends_in ordered (fun _ s => ordered s) (navigateTree index w).
Proof.
  intros Hs Hi. unfold navigateTree.
  destruct index as [|row col [node|]]; simpl; [done| |done].
  simpl in Hi. apply ends_in_getM; [done|]. intros nd Hnd.
  destruct (isdir nd); [|done]. rewrite !bind_modify. unfold modify.
  cbn [ends_in]. pose proof Hs as (_ & _ & _ & Hh & _).
  apply (ordered_fields w); [done..| |done].
  cbn. apply Forall_app. split; [done|].
  constructor; [by apply ordered_current|done].
Qed.

Lemma navigateAddress_ends fuel text w :
  ordered w -> length (heap w) <= fuel ->
  ends_in ordered (fun _ s => ordered s) (navigateAddress fuel text w).
Proof.
  intros Hs Hf. unfold navigateAddress.
  apply (ends_in_try_except _ (fun _ s => ordered s)); [|done].
  destruct (resolve_path_returns w fuel text Hs Hf) as [Hr Hn].
  apply ends_in_reads; [done|done|]. intros node Hnode.
  rewrite !bind_modify. unfold modify. cbn [ends_in].
  pose proof Hs as (_ & _ & _ & Hh & _).
  apply (ordered_fields w); [done|done|done|done|by apply Hn| |done].
  cbn. apply Forall_app. split; [done|].
  constructor; [by apply ordered_current|done].
Qed.

Lemma navigateBack_ends w :
  ordered w -> ends_in ordered (fun _ s => ordered s) (navigateBack w).
Proof.
  intros Hs. unfold navigateBack.
  destruct (pop (history w)) as [[top rest]|] eqn:E; [|done].
  apply Steps.pop_Some in E. cbn [ends_in].
  pose proof Hs as (_ & _ & _ & Hh & Hfu & _).
  rewrite E in Hh. apply Forall_app in Hh as [Hrest Htop].
  apply (ordered_fields w); [done|done|done|done| | |].
  - cbn. by inversion Htop.
  - done.
  - cbn. apply Forall_app. split; [done|].
    constructor; [by apply ordered_current|done].
Qed.

Lemma navigateForward_ends w :
  ordered w -> ends_in ordered (fun _ s => ordered s) (navigateForward w).
Proof.
  intros Hs. unfold navigateForward.
  destruct (pop (future w)) as [[top rest]|] eqn:E; [|done].
  apply Steps.pop_Some in E. cbn [ends_in].
  pose proof Hs as (_ & _ & _ & Hh & Hfu & _).
  rewrite E in Hfu. apply Forall_app in Hfu as [Hrest Htop].
  apply (ordered_fields w); [done|done|done|done| | |].
  - cbn. by inversion Htop.
  - cbn. apply Forall_app. split; [done|].
    constructor; [by apply ordered_current|done].
  - done.
Qed.

Lemma navigateUp_ends w :
  ordered w -> ends_in ordered (fun _ s => ordered s) (navigateUp w).
Proof.
  intros Hs. unfold navigateUp.
  rewrite bind_reads_Ok with (a := w) by done.
  apply ends_in_getM; [by apply ordered_current|]. intros cd Hcd.
  destruct (parent cd) as [p|] eqn:Hp; [|done].
  rewrite !bind_modify. unfold modify. cbn [ends_in].
  pose proof Hs as (_ & _ & _ & Hh & Hfu & _).
  pose proof (ordered_parent w Hs _ _ _ Hcd Hp).
  pose proof (ordered_current w Hs).
  apply (ordered_fields w); [done|done|done|done|cbn; lia| |done].
  cbn. apply Forall_app. split; [done|]. by constructor.
Qed.

(** *** Every handler *)
Lemma ends_in_then_ret {A B} (J : world -> Prop) (m : M world A) (b : B) w :
  ends_in J (fun _ s => J s) (m w) ->
  ends_in J (fun _ s => J s) ((exec m in ret b) w).
Proof.
  intros Hm. apply (ends_in_bind _ (fun _ s => J s)); [done|]. by intros.
Qed.

Lemma tidy_ordered {A} H (x : res A * world) :
  ends_in (tidy H) (fun _ s => tidy H s) x ->
  ends_in ordered (fun _ s => ordered s) x.
Proof.
  intros Hx. eapply ends_in_weaken; [done|..].
  - by intros s [? _].
  - by intros _ s [? _].
Qed.

Lemma handle_ends fuel e w :
  ordered w -> valid_event e w -> enough (length (heap w)) <= fuel ->
  ends_in ordered (fun _ s => ordered s) (handle fuel e w).
Proof.
  intros Hs He Hf. unfold enough in Hf.
  assert (Hw : tidy (length (heap w)) w) by done.
  destruct e as [o|index|text| | |]; cbn [handle].
  - destruct o as [p isdir name ok t1 t2 edit|node reply_yes
                  |node new_name ok|node edit|path];
      cbn [perform]; simpl in He.
    + apply (create_item_ends fuel (length (heap w))); [done|done|lia].
    + apply (tidy_ordered (length (heap w))).
      apply delete_item_ends; [done|done|lia].
    + apply (tidy_ordered (length (heap w))).
      apply rename_item_ends; [done|done|lia].
    + apply ends_in_then_ret. apply (tidy_ordered (length (heap w))).
      apply open_file_ends; [done|done|lia].
    + destruct (resolve_path_returns w fuel path Hs) as [Hr _]; [lia|].
      apply ends_in_reads; [done|done|]. by intros.
  - apply ends_in_then_ret. by apply navigateTree_ends.
  - apply navigateAddress_ends; [done|lia].
  - apply ends_in_then_ret. by apply navigateBack_ends.
  - apply ends_in_then_ret. by apply navigateForward_ends.
  - apply ends_in_then_ret. by apply navigateUp_ends.
Qed.

Lemma ordered_init t0 t0' t1 t1' : ordered (init t0 t0' t1 t1').
Proof.
  unfold init.
  set (w := mkWorld [new_FileNode "" true None t0 t0'] 0 0 [] [] 0 0).
  assert (Hw : tidy 1 w).
  { split; [|done]. unfold ordered. simpl.
    repeat (split; [first [lia|constructor]|]).
    intros [|x] nd; [|done]. intros [= <-]. done. }
  pose proof (_create_node_ends (fun _ => True) 1 1 "ROOT" true 0 t1 t1' w
                Hw ltac:(lia) ltac:(lia)) as He.
  assert (_create_node 0 "ROOT" true 0 t1 t1' w
          = _create_node 1 "ROOT" true 0 t1 t1' w) as -> by done.
  destruct (_create_node 1 "ROOT" true 0 t1 t1' w) as [[a|e|] s] eqn:E;
    simpl in He; [by destruct He as [[? _] _]| |done].
  exfalso. vm_compute in E. discriminate E.
Qed.

Lemma reachable_ordered w : reachable w -> ordered w.
Proof.
  induction 1 as [t0 t0' t1 t1'|fuel e w _ IH He Hf].
  - apply ordered_init.
  - pose proof (handle_ends fuel e w IH He Hf) as Hh.
    by destruct (handle fuel e w) as [[a|ex|] s].
Qed.

(** In every state that the window reaches, every handler ends on every
    node of the store when it has fuel enough for the size of the store:
    no loop over siblings runs on and [_delete_node] does not nest
    without end; the handler returns or raises, and the links are in
    order afterwards. *)
Theorem every_event_ends fuel e w :
  reachable w -> valid_event e w -> enough (length (heap w)) <= fuel ->
  returns (fst (handle fuel e w)) /\ ordered (snd (handle fuel e w)).
Proof.
  intros Hr He Hf.
  pose proof (handle_ends fuel e w (reachable_ordered w Hr) He Hf) as Hh.
  by destruct (handle fuel e w) as [[a|ex|] s].
Qed.

Lemma every_event_ends_witness :
  returns (fst (handle 8 (act (deleteNode 1 true)) (init 0 0 0 0)))
  /\ ordered (snd (handle 8 (act (deleteNode 1 true)) (init 0 0 0 0))).
Proof.
  apply (every_event_ends 8 (act (deleteNode 1 true)) (init 0 0 0 0)).
  - apply reach_init.
  - vm_compute. lia.
  - vm_compute. lia.
Defined.

(** In every state that the window reaches, the functions that the views
    call end on every index whose pointer is a node, and on every node:
    [rowCount], [index], [parent] and [sibling_index] of the model, and
    [full_path], return or raise when they have as much fuel as the store
    has nodes; [full_path] returns a path. *)
Theorem every_view_call_ends fuel w i row col node :
  reachable w -> valid_index w i -> node < length (heap w) ->
  length (heap w) <= fuel ->
  returns (FileSystemModel.rowCount fuel w i)
  /\ returns (FileSystemModel.index fuel w row col i)
  /\ returns (FileSystemModel.parent fuel w i)
  /\ returns (FileSystemModel.sibling_index fuel w (Some node))
  /\ exists path, full_path fuel w node = Ok path.
Proof.
  intros Hr Hi Hn Hf. pose proof (reachable_ordered w Hr) as Hs.
  split; [by apply rowCount_returns|].
  split; [by apply index_returns|].
  split; [by apply model_parent_returns|].
  split; [apply sibling_index_returns; [done| |done]; by intros r [= <-]|].
  unfold full_path.
  destruct (full_path_loop_returns w Hs fuel node []) as [l ->]; [done|lia|].
  by eexists.
Qed.

Lemma every_view_call_ends_witness :
  returns (FileSystemModel.rowCount 2 (init 0 0 0 0) InvalidIndex)
  /\ returns (FileSystemModel.index 2 (init 0 0 0 0) 0 0 InvalidIndex)
  /\ returns (FileSystemModel.parent 2 (init 0 0 0 0) InvalidIndex)
  /\ returns (FileSystemModel.sibling_index 2 (init 0 0 0 0) (Some 1))
  /\ exists path, full_path 2 (init 0 0 0 0) 1 = Ok path.
Proof.
  apply (every_view_call_ends 2 (init 0 0 0 0) InvalidIndex 0 0 1).
  - apply reach_init.
  - exact I.
  - vm_compute. lia.
  - vm_compute. lia.
Defined.

End WinEnds.
